(** * make_xftmpl: binary encoding of X templates from their text format

    A shallow embedding of [tools/make_xftmpl.c] and the properties of its
    lexer, output buffer, header check and sink writers.

    Conventions of the embedding.
    - File contents and memory are lists of [byte]; C integers are [Z] with
      their wrap-around written out ([UINT] and [DWORD] are 32 bits wide).
    - [char] is signed and [EOF] is [-1] (the x86 ABIs): the byte [xff]
      stored in a [char] converts back to the [int] [-1].
    - The byte order of the host is a parameter, [host].
    - The static variables of the C file and the [struct parser] are the
      fields of one [state] record, threaded through a small monad whose
      outcomes are a normal return, [fatal_error] (the process exits with
      status 1) and undefined behaviour of the C program.
    - The input and output streams have no I/O errors.  In the encoder
      proper [realloc] never fails; the encoder is given a second time with
      a [realloc] that can return [NULL] ([write_bytes_alloc] and the
      functions built on it), and is shown to be the first one when every
      request is granted. *)

From Stdlib Require Import ZArith Bool Lia String Ascii List.
From Stdlib Require Import Strings.Byte.
Import ListNotations.
Local Open Scope Z_scope.

(** ** Bytes *)

Definition Z_of_byte (b : byte) : Z := Z.of_N (Byte.to_N b).

Definition byte_of_Z (z : Z) : byte :=
  match Byte.of_N (Z.to_N (z mod 256)) with
  | Some b => b
  | None => x00
  end.

Definition bytes_of_string (s : string) : list byte := list_byte_of_string s.

Inductive byte_order := LittleEndian | BigEndian.

(** The object representation of an [n]-byte unsigned integer. *)
Definition le_bytes (n : nat) (v : Z) : list byte :=
  map (fun i => byte_of_Z (Z.shiftr v (8 * Z.of_nat i))) (seq 0 n).

Definition host_bytes (host : byte_order) (n : nat) (v : Z) : list byte :=
  match host with
  | LittleEndian => le_bytes n v
  | BigEndian => rev (le_bytes n v)
  end.

(** ** Token codes *)

Definition TOKEN_NAME : Z := 1.
Definition TOKEN_STRING : Z := 2.
Definition TOKEN_INTEGER : Z := 3.
Definition TOKEN_GUID : Z := 5.
Definition TOKEN_INTEGER_LIST : Z := 6.
Definition TOKEN_FLOAT_LIST : Z := 7.
Definition TOKEN_OBRACE : Z := 10.
Definition TOKEN_CBRACE : Z := 11.
Definition TOKEN_OPAREN : Z := 12.
Definition TOKEN_CPAREN : Z := 13.
Definition TOKEN_OBRACKET : Z := 14.
Definition TOKEN_CBRACKET : Z := 15.
Definition TOKEN_OANGLE : Z := 16.
Definition TOKEN_CANGLE : Z := 17.
Definition TOKEN_DOT : Z := 18.
Definition TOKEN_COMMA : Z := 19.
Definition TOKEN_SEMICOLON : Z := 20.
Definition TOKEN_TEMPLATE : Z := 31.
Definition TOKEN_WORD : Z := 40.
Definition TOKEN_DWORD : Z := 41.
Definition TOKEN_FLOAT : Z := 42.
Definition TOKEN_DOUBLE : Z := 43.
Definition TOKEN_CHAR : Z := 44.
Definition TOKEN_UCHAR : Z := 45.
Definition TOKEN_SWORD : Z := 46.
Definition TOKEN_SDWORD : Z := 47.
Definition TOKEN_VOID : Z := 48.
Definition TOKEN_LPSTR : Z := 49.
Definition TOKEN_UNICODE : Z := 50.
Definition TOKEN_CSTRING : Z := 51.
Definition TOKEN_ARRAY : Z := 52.

(** [struct keyword] and the table [reserved_words]. *)
Record keyword := mkKeyword { word : list byte; token : Z }.

Definition reserved_words : list keyword :=
  [ mkKeyword (bytes_of_string "ARRAY") TOKEN_ARRAY;
    mkKeyword (bytes_of_string "CHAR") TOKEN_CHAR;
    mkKeyword (bytes_of_string "CSTRING") TOKEN_CSTRING;
    mkKeyword (bytes_of_string "DOUBLE") TOKEN_DOUBLE;
    mkKeyword (bytes_of_string "DWORD") TOKEN_DWORD;
    mkKeyword (bytes_of_string "FLOAT") TOKEN_FLOAT;
    mkKeyword (bytes_of_string "SDWORD") TOKEN_SDWORD;
    mkKeyword (bytes_of_string "STRING") TOKEN_LPSTR;
    mkKeyword (bytes_of_string "SWORD") TOKEN_SWORD;
    mkKeyword (bytes_of_string "TEMPLATE") TOKEN_TEMPLATE;
    mkKeyword (bytes_of_string "UCHAR") TOKEN_UCHAR;
    mkKeyword (bytes_of_string "UNICODE") TOKEN_UNICODE;
    mkKeyword (bytes_of_string "VOID") TOKEN_VOID;
    mkKeyword (bytes_of_string "WORD") TOKEN_WORD ].

(** ** Program state *)

(** [infile] holds the bytes of the input stream that are still to be read
    (a byte pushed back by [ungetc] goes to the front); [output_data] is the
    block that [realloc] returned, its length the size of the allocation. *)
Record state := mkState {
  infile : list byte;
  line_no : Z;
  output_data : list byte;
  output_pos : Z;
  output_size : Z;
  option_header : bool;
  option_inc_var_name : option (list byte);
  option_inc_size_name : option (list byte);
  option_outfile_name : list byte
}.

Definition set_reader (s : state) (inp : list byte) (line : Z) : state :=
  mkState inp line (output_data s) (output_pos s) (output_size s)
          (option_header s) (option_inc_var_name s) (option_inc_size_name s)
          (option_outfile_name s).

Definition set_output (s : state) (block : list byte) (pos size : Z) : state :=
  mkState (infile s) (line_no s) block pos size
          (option_header s) (option_inc_var_name s) (option_inc_size_name s)
          (option_outfile_name s).

Definition set_header (s : state) (h : bool) : state :=
  mkState (infile s) (line_no s) (output_data s) (output_pos s) (output_size s)
          h (option_inc_var_name s) (option_inc_size_name s)
          (option_outfile_name s).

Definition set_inc_var_name (s : state) (n : option (list byte)) : state :=
  mkState (infile s) (line_no s) (output_data s) (output_pos s) (output_size s)
          (option_header s) n (option_inc_size_name s) (option_outfile_name s).

Definition set_inc_size_name (s : state) (n : option (list byte)) : state :=
  mkState (infile s) (line_no s) (output_data s) (output_pos s) (output_size s)
          (option_header s) (option_inc_var_name s) n (option_outfile_name s).

Definition set_outfile_name (s : state) (n : list byte) : state :=
  mkState (infile s) (line_no s) (output_data s) (output_pos s) (output_size s)
          (option_header s) (option_inc_var_name s) (option_inc_size_name s) n.

(** The messages of [fatal_error]. *)
Inductive fatal :=
| TruncatedGuid          (* truncated GUID *)
| InvalidGuid            (* invalid GUID '%s' *)
| InvalidFloatToken      (* invalid float token *)
| InvalidIntegerToken    (* invalid integer token *)
| InvalidSlash           (* invalid single '/' comment token *)
| LineTooLong            (* line too long *)
| UnterminatedString     (* unterminated string *)
| InvalidCharacter (c : byte)  (* invalid character '%c' to start token *)
| NoVariableName.        (* variable name must be specified with -i or #pragma name *)

(** Behaviour the C standard leaves undefined. *)
Inductive undefined :=
| BufferOverrun          (* memcpy past the end of the output_data block *)
| IndeterminateValue.    (* a local variable read before it was assigned *)

Inductive outcome (A : Type) :=
| Ret (a : A) (s : state)
| Fatal (e : fatal) (line : Z)
| Undefined (u : undefined).
Arguments Ret {A} a s.
Arguments Fatal {A} e line.
Arguments Undefined {A} u.

Definition M (A : Type) := state -> outcome A.

Definition ret {A} (a : A) : M A := fun s => Ret a s.

Definition bind {A B} (m : M A) (k : A -> M B) : M B :=
  fun s => match m s with
           | Ret a s' => k a s'
           | Fatal e l => Fatal e l
           | Undefined u => Undefined u
           end.

Notation "x <- m ;; k" := (bind m (fun x => k))
  (at level 61, m at next level, right associativity).
Notation "' pat <- m ;; k" := (bind m (fun x => match x with pat => k end))
  (at level 61, pat pattern, m at next level, right associativity).

(** [a && b] on two calls that return [BOOL]. *)
Definition and_then (a b : M bool) : M bool :=
  r <- a ;; if r then b else ret false.
Infix "&&&" := and_then (at level 40, left associativity).

Definition fatal_error {A} (e : fatal) : M A := fun s => Fatal e (line_no s).

(** ** Byte reader and pushback *)

Definition newline : byte := x0a.

Definition read_byte : M (bool * byte) := fun s =>
  match infile s with
  | [] => Ret (false, xff) s
  | c :: rest =>
      Ret (true, c)
          (set_reader s rest
             (if Byte.eqb c newline then line_no s + 1 else line_no s))
  end.

(** [ungetc] refuses [EOF], which is what the [char] [xff] converts to. *)
Definition unread_byte (last_byte : byte) : M bool := fun s =>
  let line := if Byte.eqb last_byte newline then line_no s - 1 else line_no s in
  if Byte.eqb last_byte xff
  then Ret false (set_reader s (infile s) line)
  else Ret true (set_reader s (last_byte :: infile s) line).

(** [fread (data, size, 1, infile) > 0]. *)
Definition read_bytes (size : nat) : M (bool * list byte) := fun s =>
  Ret (Nat.leb size (length (infile s)), firstn size (infile s))
      (set_reader s (skipn size (infile s)) (line_no s)).

(** [while (read_byte (parser, &c) && cond) body], on the locals [a]:
    the result is the last value of [c], the locals, the rest of the input
    and the line number. *)
Fixpoint while_read_from {A} (cond : A -> byte -> bool) (body : A -> byte -> A)
    (inp : list byte) (line : Z) (a : A) : byte * A * list byte * Z :=
  match inp with
  | [] => (xff, a, [], line)
  | c :: rest =>
      let line' := if Byte.eqb c newline then line + 1 else line in
      if cond a c
      then while_read_from cond body rest line' (body a c)
      else (c, a, rest, line')
  end.

Definition while_read {A} (cond : A -> byte -> bool) (body : A -> byte -> A)
    (a : A) : M (byte * A) := fun s =>
  match while_read_from cond body (infile s) (line_no s) a with
  | (c, a', inp, line) => Ret (c, a') (set_reader s inp line)
  end.

(** ** Output buffer *)

Definition realloc (block : list byte) (n : Z) : list byte :=
  firstn (Z.to_nat n) block ++ repeat x00 (Z.to_nat n - length block).

Definition memcpy (block : list byte) (pos : Z) (data : list byte)
  : option (list byte) :=
  if pos + Z.of_nat (length data) <=? Z.of_nat (length block)
  then Some (firstn (Z.to_nat pos) block ++ data
               ++ skipn (Z.to_nat pos + length data) block)
  else None.

Definition UINT_MOD : Z := 2 ^ 32.

(** [write_bytes] with a [realloc] that grants every request; for the
    return of [FALSE] see [write_bytes_alloc]. *)
Definition write_bytes (data : list byte) : M bool := fun s =>
  let size := Z.of_nat (length data) in
  let s1 :=
    if (output_pos s + size) mod UINT_MOD >? output_size s
    then let n := Z.max (output_size s * 2 mod UINT_MOD) size in
         set_output s (realloc (output_data s) n) (output_pos s) n
    else s in
  match memcpy (output_data s1) (output_pos s1) data with
  | Some block =>
      Ret true (set_output s1 block ((output_pos s1 + size) mod UINT_MOD)
                           (output_size s1))
  | None => Undefined BufferOverrun
  end.

(** ** The C library: character classes, strings, [bsearch], [strtok] *)

Definition in_range (lo hi : Z) (c : byte) : bool :=
  (lo <=? Z_of_byte c) && (Z_of_byte c <=? hi).

Definition isdigit (c : byte) : bool := in_range 48 57 c.
Definition isupper (c : byte) : bool := in_range 65 90 c.
Definition islower (c : byte) : bool := in_range 97 122 c.
Definition isalpha (c : byte) : bool := isupper c || islower c.
Definition isalnum (c : byte) : bool := isalpha c || isdigit c.
Definition isspace (c : byte) : bool := Byte.eqb c x20 || in_range 9 13 c.

Definition tolower (c : byte) : Z :=
  if isupper c then Z_of_byte c + 32 else Z_of_byte c.

Definition toupper (c : byte) : byte :=
  if islower c then byte_of_Z (Z_of_byte c - 32) else c.

(** The string a [char] array holds: the bytes before the first NUL. *)
Fixpoint c_string (buf : list byte) : list byte :=
  match buf with
  | [] => []
  | c :: rest => if Byte.eqb c x00 then [] else c :: c_string rest
  end.

Fixpoint bytes_eqb (a b : list byte) : bool :=
  match a, b with
  | [], [] => true
  | x :: a', y :: b' => Byte.eqb x y && bytes_eqb a' b'
  | _, _ => false
  end.

(** [!strcmp (tok, lit)]. *)
Definition str_is (tok : list byte) (lit : string) : bool :=
  bytes_eqb tok (bytes_of_string lit).

Fixpoint strcasecmp (a b : list byte) : Z :=
  match a, b with
  | [], [] => 0
  | [], y :: _ => 0 - tolower y
  | x :: _, [] => tolower x
  | x :: a', y :: b' =>
      if tolower x =? tolower y then strcasecmp a' b' else tolower x - tolower y
  end.

(** [bsearch]: bisection of [base] between [l] and [u]; [compar p] is the
    comparison of the key with the element [p]. *)
Fixpoint bsearch_between {A} (fuel : nat) (compar : A -> Z) (base : list A)
    (l u : nat) : option A :=
  match fuel with
  | O => None
  | S fuel' =>
      if (l <? u)%nat then
        let idx := ((l + u) / 2)%nat in
        match nth_error base idx with
        | None => None
        | Some p =>
            let comparison := compar p in
            if comparison <? 0 then bsearch_between fuel' compar base l idx
            else if comparison >? 0
                 then bsearch_between fuel' compar base (idx + 1)%nat u
                 else Some p
        end
      else None
  end.

Definition bsearch {A} (compar : A -> Z) (base : list A) : option A :=
  bsearch_between (S (length base)) compar base 0%nat (length base).

Definition is_delim (c : byte) : bool := Byte.eqb c x20 || Byte.eqb c x09.

Fixpoint skip_delims (s : list byte) : list byte :=
  match s with
  | [] => []
  | c :: rest => if is_delim c then skip_delims rest else s
  end.

Fixpoint take_token (s : list byte) : list byte * list byte :=
  match s with
  | [] => ([], [])
  | c :: rest =>
      if is_delim c then ([], rest)
      else let (tok, after) := take_token rest in (c :: tok, after)
  end.

(** [strtok (s, " \t")]: the next token and the string that
    [strtok (NULL, " \t")] goes on with. *)
Definition strtok (s : list byte) : option (list byte * list byte) :=
  match skip_delims s with
  | [] => None
  | s' => Some (take_token s')
  end.

(** ** The C library: [sscanf] conversions *)

Inductive conversion (A : Type) :=
| Converted (v : A) (rest : list byte)
| MatchingFailure
| InputFailure.
Arguments Converted {A} v rest.
Arguments MatchingFailure {A}.
Arguments InputFailure {A}.

Definition EOF : Z := -1.

Fixpoint skip_space (s : list byte) : list byte :=
  match s with
  | [] => []
  | c :: rest => if isspace c then skip_space rest else s
  end.

Definition is_sign (c : byte) : bool := Byte.eqb c x2d || Byte.eqb c x2b.

Definition digit_value (c : byte) : option Z :=
  if isdigit c then Some (Z_of_byte c - 48) else None.

Definition hex_value (c : byte) : option Z :=
  if isdigit c then Some (Z_of_byte c - 48)
  else if in_range 65 70 c then Some (Z_of_byte c - 55)
  else if in_range 97 102 c then Some (Z_of_byte c - 87)
  else None.

(** Digits in base [base], at most [width] of them: the value, how many
    were read, and the rest. *)
Fixpoint scan_digits (value_of : byte -> option Z) (base : Z) (width : nat)
    (s : list byte) (acc : Z) (count : nat) : Z * nat * list byte :=
  match width, s with
  | S width', c :: rest =>
      match value_of c with
      | Some d => scan_digits value_of base width' rest (acc * base + d) (S count)
      | None => (acc, count, s)
      end
  | _, _ => (acc, count, s)
  end.

(** [%X] with a field width (glibc): white space is skipped; a sign, the
    digit [0] and an [x] after it count in the width; the value is an
    [unsigned int]. *)
Definition scan_X (width : nat) (s : list byte) : conversion Z :=
  match skip_space s with
  | [] => InputFailure
  | c :: rest =>
      let '(negative, width1, s1) :=
        if is_sign c then (Byte.eqb c x2d, pred width, rest)
        else (false, width, c :: rest) in
      let '(zero, width2, s2) :=
        match width1, s1 with
        | S w, c0 :: r0 =>
            if Byte.eqb c0 x30 then
              match w, r0 with
              | S w', cx :: rx =>
                  if Byte.eqb cx x78 || Byte.eqb cx x58
                  then (true, w', rx) else (true, w, r0)
              | _, _ => (true, w, r0)
              end
            else (false, width1, s1)
        | _, _ => (false, width1, s1)
        end in
      let '(v, count, s3) := scan_digits hex_value 16 width2 s2 0 0%nat in
      if zero || (0 <? count)%nat
      then Converted ((if negative then 0 - v else v) mod UINT_MOD) s3
      else MatchingFailure
  end.

(** [%d] into an [int] (glibc on LP64: the [long] that [strtol] gives,
    converted to [int]); the value is given as the [DWORD] it converts to. *)
Definition scan_d (s : list byte) : conversion Z :=
  match skip_space s with
  | [] => InputFailure
  | c :: rest =>
      let '(negative, s1) :=
        if is_sign c then (Byte.eqb c x2d, rest) else (false, c :: rest) in
      let '(v, count, s2) := scan_digits digit_value 10 (length s1) s1 0 0%nat in
      if (0 <? count)%nat
      then let l := Z.max (- 2 ^ 63) (Z.min (2 ^ 63 - 1) (if negative then - v else v)) in
           Converted (l mod UINT_MOD) s2
      else MatchingFailure
  end.

Definition round_half_even (n d : Z) : Z :=
  let q := n / d in
  let r := n mod d in
  if 2 * r <? d then q
  else if 2 * r >? d then q + 1
  else if Z.even q then q else q + 1.

(** The IEEE-754 binary32 encoding of the rational [num / den] (with
    [0 <= num] and [0 < den]) rounded to nearest, ties to even. *)
Definition binary32_bits (negative : bool) (num den : Z) : Z :=
  let sign := if negative then 2 ^ 31 else 0 in
  if num =? 0 then sign
  else
    let scaled e := if e <? 0 then (num * 2 ^ (- e), den) else (num, den * 2 ^ e) in
    let l0 := Z.log2 num - Z.log2 den in
    let l := let (n, d) := scaled l0 in if d <=? n then l0 else l0 - 1 in
    let e := Z.max (l - 23) (- 149) in
    let m := let (n, d) := scaled e in round_half_even n d in
    let '(m, e) := if m =? 2 ^ 24 then (2 ^ 23, e + 1) else (m, e) in
    if m <? 2 ^ 23 then sign + m
    else if 255 <=? e + 150 then sign + 255 * 2 ^ 23
    else sign + (e + 150) * 2 ^ 23 + (m - 2 ^ 23).

(** [%f] into a [float], for decimal numerals without exponent (the only
    ones [parse_number] collects); the value is given as its 32 bits. *)
Definition scan_f (s : list byte) : conversion Z :=
  match skip_space s with
  | [] => InputFailure
  | c :: rest =>
      let '(negative, s1) :=
        if is_sign c then (Byte.eqb c x2d, rest) else (false, c :: rest) in
      let '(int_part, int_count, s2) :=
        scan_digits digit_value 10 (length s1) s1 0 0%nat in
      let '(num, frac_count, s3) :=
        match s2 with
        | c2 :: r2 =>
            if Byte.eqb c2 x2e
            then scan_digits digit_value 10 (length r2) r2 int_part 0%nat
            else (int_part, 0%nat, s2)
        | [] => (int_part, 0%nat, s2)
        end in
      if (0 <? int_count + frac_count)%nat
      then Converted (binary32_bits negative num (10 ^ Z.of_nat frac_count)) s3
      else MatchingFailure
  end.

(** The return value of [sscanf] with one conversion. *)
Definition sscanf_ret {A} (r : conversion A) : Z :=
  match r with
  | Converted _ _ => 1
  | MatchingFailure => 0
  | InputFailure => EOF
  end.

Inductive directive :=
| Lit (c : byte)
| ConvX (width : nat).

(** [sscanf] with a format of literal characters and [%X] conversions:
    the return value and the values assigned. *)
Fixpoint sscanf_X (fmt : list directive) (s : list byte) (vals : list Z)
  : Z * list Z :=
  let assigned := Z.of_nat (length vals) in
  let input_failure := if assigned =? 0 then EOF else assigned in
  match fmt with
  | [] => (assigned, vals)
  | Lit c :: fmt' =>
      match s with
      | [] => (input_failure, vals)
      | x :: s' =>
          if Byte.eqb x c then sscanf_X fmt' s' vals else (assigned, vals)
      end
  | ConvX width :: fmt' =>
      match scan_X width s with
      | Converted v rest => sscanf_X fmt' rest (vals ++ [v])
      | MatchingFailure => (assigned, vals)
      | InputFailure => (input_failure, vals)
      end
  end.

(** ["<%08X-%04X-%04X-%02X%02X-%02X%02X%02X%02X%02X%02X>"] *)
Definition guidfmt : list directive :=
  [ Lit x3c; ConvX 8; Lit x2d; ConvX 4; Lit x2d; ConvX 4; Lit x2d;
    ConvX 2; ConvX 2; Lit x2d;
    ConvX 2; ConvX 2; ConvX 2; ConvX 2; ConvX 2; ConvX 2; Lit x3e ].

(** ** The encoder *)

Section Encoder.

Variable host : byte_order.

Definition write_byte (value : Z) : M bool := write_bytes (host_bytes host 1 value).
Definition write_word (value : Z) : M bool := write_bytes (host_bytes host 2 value).
Definition write_dword (value : Z) : M bool := write_bytes (host_bytes host 4 value).

Definition compare_names (a b : list byte) : Z := strcasecmp a b.

Definition parse_keyword (name : list byte) : M bool :=
  match bsearch (fun k => compare_names name (word k)) reserved_words with
  | None => ret false
  | Some keyword => write_word (token keyword)
  end.

(** The bytes of a [GUID] built from the eleven values that [sscanf]
    assigned: [Data1], then [tab[0]] to [tab[9]]. *)
Definition guid_bytes (vals : list Z) : list byte :=
  match vals with
  | data1 :: t0 :: t1 :: data4 =>
      host_bytes host 4 data1 ++ host_bytes host 2 t0 ++ host_bytes host 2 t1
        ++ map byte_of_Z data4
  | _ => []
  end.

Definition parse_guid : M bool :=
  '(ok, bytes) <- read_bytes 37 ;;
  if negb ok then fatal_error TruncatedGuid
  else
    let buf := x3c :: bytes in
    let '(r, vals) := sscanf_X guidfmt (c_string buf) [] in
    if negb (r =? 11) then fatal_error InvalidGuid
    else write_word TOKEN_GUID &&& write_bytes (guid_bytes vals).

(** [if (len + 1 < sizeof(buffer)) buffer[len++] = c;] for a buffer of 512
    bytes, given as the [len] bytes stored so far. *)
Definition store (buffer : list byte) (c : byte) : list byte :=
  if Z.of_nat (length buffer) + 1 <? 512 then buffer ++ [c] else buffer.

Definition len (buffer : list byte) : Z := Z.of_nat (length buffer).

Definition parse_name : M bool :=
  '(c, name) <-
     while_read
       (fun name c => (len name <? 512)
                      && (isalnum c || Byte.eqb c x5f || Byte.eqb c x2d))
       store [] ;;
  _ <- unread_byte c ;;
  found <- parse_keyword name ;;
  if found then ret true
  else write_word TOKEN_NAME &&& write_dword (len name) &&& write_bytes name.

Definition parse_number : M bool :=
  '(c, (buffer, dot)) <-
     while_read
       (fun '(buffer, dot) c =>
          ((len buffer =? 0) && Byte.eqb c x2d)
          || (negb dot && Byte.eqb c x2e)
          || isdigit c)
       (fun '(buffer, dot) c =>
          (store buffer c, if Byte.eqb c x2e then true else dot))
       ([], false) ;;
  _ <- unread_byte c ;;
  if dot : bool then
    match scan_f (c_string buffer) with
    | MatchingFailure => fatal_error InvalidFloatToken
    | InputFailure => fun _ => Undefined IndeterminateValue
    | Converted value _ =>
        write_word TOKEN_FLOAT &&& write_bytes (host_bytes host 4 value)
    end
  else
    match scan_d (c_string buffer) with
    | MatchingFailure => fatal_error InvalidIntegerToken
    | InputFailure => fun _ => Undefined IndeterminateValue
    | Converted value _ => write_word TOKEN_INTEGER &&& write_dword value
    end.

(** The words of a [#] line, after the loop that collects it. *)
Definition parse_directive (buffer : list byte) : M bool :=
  match strtok (c_string buffer) with
  | None => ret true
  | Some (tok, s1) =>
  if negb (str_is tok "pragma") then ret true else
  match strtok s1 with
  | None => ret true
  | Some (tok, s2) =>
  if negb (str_is tok "xftmpl") then ret true else
  match strtok s2 with
  | None => ret true
  | Some (tok, s3) =>
      if str_is tok "name" then
        fun s =>
          match strtok s3, option_inc_var_name s with
          | Some (tok, _), None => Ret true (set_inc_var_name s (Some tok))
          | _, _ => Ret true s
          end
      else if str_is tok "size" then
        fun s =>
          match strtok s3, option_inc_size_name s with
          | Some (tok, _), None => Ret true (set_inc_size_name s (Some tok))
          | _, _ => Ret true s
          end
      else ret true
  end end end.

Definition parse_token : M bool :=
  '(ok, c) <- read_byte ;;
  if negb ok then ret false
  else match c with
  | x0a | x0d | x20 | x09 => ret true
  | x7b => write_word TOKEN_OBRACE
  | x7d => write_word TOKEN_CBRACE
  | x5b => write_word TOKEN_OBRACKET
  | x5d => write_word TOKEN_CBRACKET
  | x28 => write_word TOKEN_OPAREN
  | x29 => write_word TOKEN_CPAREN
  | x2c => write_word TOKEN_COMMA
  | x3b => write_word TOKEN_SEMICOLON
  | x2e => write_word TOKEN_DOT
  | x2f =>
      '(ok, c) <- read_byte ;;
      if negb ok || negb (Byte.eqb c x2f) then fatal_error InvalidSlash
      else
        '(c, _) <- while_read (fun _ c => negb (Byte.eqb c newline))
                              (fun (u : unit) _ => u) tt ;;
        ret (Byte.eqb c newline)
  | x23 =>
      '(c, buffer) <- while_read (fun _ c => negb (Byte.eqb c newline)) store [] ;;
      if negb (Byte.eqb c newline) then fatal_error LineTooLong
      else parse_directive buffer
  | x3c => parse_guid
  | x22 =>
      '(c, buffer) <- while_read (fun _ c => negb (Byte.eqb c x22)) store [] ;;
      if negb (Byte.eqb c x22) then fatal_error UnterminatedString
      else write_word TOKEN_STRING &&& write_dword (len buffer)
             &&& write_bytes buffer
  | _ =>
      _ <- unread_byte c ;;
      if isdigit c || Byte.eqb c x2d then parse_number
      else if isalpha c || Byte.eqb c x5f then parse_name
      else fatal_error (InvalidCharacter c)
  end.

(** [while (parse_token (&parser));] -- every call that returns [TRUE] has
    consumed input, so [fuel] above the number of bytes left is never
    used up (see [parse_tokens_fuel]). *)
Fixpoint parse_tokens (fuel : nat) : M (option unit) :=
  match fuel with
  | O => ret None
  | S fuel' =>
      more <- parse_token ;;
      if more then parse_tokens fuel' else ret (Some tt)
  end.

End Encoder.

(** ** Sink writers *)

Definition hex_digit (n : Z) : byte :=
  byte_of_Z (if n <? 10 then 48 + n else 87 + n).

(** [%02x] of a [BYTE]. *)
Definition hex2 (b : byte) : list byte :=
  [hex_digit (Z_of_byte b / 16); hex_digit (Z_of_byte b mod 16)].

(** The body of the loop of [write_c_hex_bytes], from index [i] on. *)
Fixpoint c_hex_bytes_from (i : Z) (data : list byte) : list byte :=
  match data with
  | [] => []
  | b :: rest =>
      (if i mod 12 =? 0 then [newline; x20] else [])
        ++ bytes_of_string " 0x" ++ hex2 b ++ bytes_of_string ","
        ++ c_hex_bytes_from (i + 1) rest
  end.

(** The bytes [output_data[0]] to [output_data[output_pos - 1]]. *)
Definition output_bytes (s : state) : list byte :=
  firstn (Z.to_nat (output_pos s)) (output_data s).

(** What [write_c_hex_bytes] prints to the output file. *)
Definition write_c_hex_bytes (s : state) : list byte :=
  c_hex_bytes_from 0 (output_bytes s).

(** What [write_raw_bytes] writes to the output file. *)
Definition write_raw_bytes (s : state) : list byte := output_bytes s.

(** Reading a C array initialiser back: every [0x] followed by two hex
    digits stands for one byte. *)
Fixpoint decode_hex_values (text : list byte) : list byte :=
  match text with
  | [] => []
  | c :: rest =>
      match c, rest with
      | x30, x78 :: h :: l :: rest' =>
          match hex_value h, hex_value l with
          | Some hv, Some lv => byte_of_Z (16 * hv + lv) :: decode_hex_values rest'
          | _, _ => decode_hex_values rest
          end
      | _, _ => decode_hex_values rest
      end
  end.

(** ** Command line and [main] *)

(** What [getopt (argc, argv, "hHi:o:s:")] returns, option by option. *)
Inductive opt :=
| Opt_h
| Opt_H
| Opt_i (optarg : list byte)
| Opt_o (optarg : list byte)
| Opt_s (optarg : list byte).

(** [None] when the usage was asked for and [exit (0)] called. *)
Fixpoint parse_options (opts : list opt) (s : state) : option state :=
  match opts with
  | [] => Some s
  | Opt_h :: _ => None
  | Opt_H :: opts' => parse_options opts' (set_header s true)
  | Opt_i optarg :: opts' =>
      parse_options opts' (set_inc_var_name (set_header s true) (Some optarg))
  | Opt_o optarg :: opts' => parse_options opts' (set_outfile_name s optarg)
  | Opt_s optarg :: opts' => parse_options opts' (set_inc_size_name s (Some optarg))
  end.

Inductive failure :=
| BadUsage
| HeaderTruncated      (* Failed to read file header *)
| InvalidMagic         (* Invalid magic value *)
| UnsupportedVersion   (* Unsupported version *)
| NotTextEncoded       (* Only support conversion from text encoded X files. *)
| UnsupportedFloatSize (* Only 32-bit or 64-bit float format supported *)
| WriteFailed
| FatalError (e : fatal) (line : Z).

(** How a run ends: [Success] and [Help] are exit status 0, [Failure] is
    exit status 1; [out] is what the output file received. *)
Inductive status :=
| Success (out : list byte)
| Help
| Failure (f : failure)
| Crash (u : undefined)
| OutOfFuel.

Definition field (header : list byte) (offset : nat) : list byte :=
  firstn 4 (skipn offset header).

(** The four [strncmp] tests of [main] on the 16 bytes read. *)
Definition check_header (header : list byte) : option failure :=
  if negb (str_is (field header 0) "xof ") then Some InvalidMagic
  else if negb (str_is (field header 4) "0302")
          && negb (str_is (field header 4) "0303") then Some UnsupportedVersion
  else if negb (str_is (field header 8) "txt ") then Some NotTextEncoded
  else if negb (str_is (field header 12) "0032")
          && negb (str_is (field header 12) "0064") then Some UnsupportedFloatSize
  else None.

Definition output_header : list byte := bytes_of_string "xof 0302bin 0064".

(** [strrchr (name, '/')], one past the slash, or the whole name. *)
Fixpoint after_last_slash (name : list byte) : list byte :=
  match name with
  | [] => []
  | c :: rest =>
      if existsb (Byte.eqb x2f) rest then after_last_slash rest
      else if Byte.eqb c x2f then rest else name
  end.

Definition header_name (outfile_name : list byte) : list byte :=
  map (fun c => if Byte.eqb c x2e then x5f else toupper c)
      (after_last_slash outfile_name).

Fixpoint decimal_digits (fuel : nat) (n : Z) (acc : list byte) : list byte :=
  match fuel with
  | O => acc
  | S fuel' =>
      let acc' := byte_of_Z (48 + n mod 10) :: acc in
      if n <? 10 then acc' else decimal_digits fuel' (n / 10) acc'
  end.

(** [%u] of a [UINT]. *)
Definition decimal (n : Z) : list byte := decimal_digits 10 n [].

(** The text of the C header that [main] prints in header mode. *)
Definition c_header (infile_name : list byte) (s : state) (var_name : list byte)
  : list byte :=
  let guard := header_name (option_outfile_name s) in
  bytes_of_string "/* File generated automatically from " ++ infile_name
    ++ bytes_of_string "; do not edit */" ++ [newline; newline]
    ++ bytes_of_string "#ifndef __WINE_" ++ guard ++ [newline]
    ++ bytes_of_string "#define __WINE_" ++ guard ++ [newline; newline]
    ++ bytes_of_string "unsigned char " ++ var_name ++ bytes_of_string "[] = {"
    ++ write_c_hex_bytes s
    ++ [newline] ++ bytes_of_string "};" ++ [newline; newline]
    ++ match option_inc_size_name s with
       | Some size_name =>
           bytes_of_string "#define " ++ size_name ++ bytes_of_string " "
             ++ decimal (output_pos s) ++ [newline; newline]
       | None => []
       end
    ++ bytes_of_string "#endif /* __WINE_" ++ guard ++ bytes_of_string " */"
    ++ [newline].

Definition initial_state : state :=
  mkState [] 0 [] 0 0 false None None (bytes_of_string "-").

(** The part of [main] after the header check: the output header, the
    token loop and the sink. *)
Definition encode (host : byte_order) (infile_name : list byte) (s : state)
  : status :=
  match write_bytes output_header s with
  | Ret false _ => Failure WriteFailed
  | Fatal e line => Failure (FatalError e line)
  | Undefined u => Crash u
  | Ret true s1 =>
      let s2 := set_reader s1 (infile s1) 1 in
      match parse_tokens host (S (length (infile s2))) s2 with
      | Fatal e line => Failure (FatalError e line)
      | Undefined u => Crash u
      | Ret None _ => OutOfFuel
      | Ret (Some _) s3 =>
          if option_header s3 then
            match option_inc_var_name s3 with
            | None => Failure (FatalError NoVariableName (line_no s3))
            | Some var_name => Success (c_header infile_name s3 var_name)
            end
          else Success (write_raw_bytes s3)
      end
  end.

(** [main], for the options [opts] that [getopt] finds, the other
    arguments [args], and the contents [input] of the file that the one
    argument names ([-] being the standard input). *)
Definition main (host : byte_order) (opts : list opt) (args : list (list byte))
    (input : list byte) : status :=
  match parse_options opts initial_state with
  | None => Help
  | Some s =>
      match args with
      | [name] =>
          let infile_name :=
            if str_is name "-" then bytes_of_string "stdin" else name in
          match read_bytes 16 (set_reader s input (line_no s)) with
          | Ret (true, header) s1 =>
              match check_header header with
              | Some f => Failure f
              | None =>
                  let s2 :=
                    if str_is (option_outfile_name s1) "-"
                    then set_outfile_name s1 (bytes_of_string "stdout")
                    else s1 in
                  encode host infile_name s2
              end
          | _ => Failure HeaderTruncated
          end
      | _ => Failure BadUsage
      end
  end.

(** ** The invariant of the output buffer, and the room an append needs *)

(** [output_pos] is inside the allocation, whose size [output_size] records. *)
Definition buffer_inv (s : state) : Prop :=
  0 <= output_pos s <= output_size s
  /\ output_size s = Z.of_nat (length (output_data s))
  /\ output_size s < UINT_MOD.

(** The value of [output_size] after the test and growth at the head of
    [write_bytes], for an append of [size] bytes. *)
Definition grown_size (pos cap size : Z) : Z :=
  if (pos + size) mod UINT_MOD >? cap
  then Z.max (cap * 2 mod UINT_MOD) size
  else cap.

(** Whether appends of the given sizes, one after the other, all copy
    inside the allocation as [write_bytes] grows it. *)
Fixpoint fits (pos cap : Z) (sizes : list Z) : bool :=
  match sizes with
  | [] => true
  | size :: sizes' =>
      (pos + size <=? grown_size pos cap size)
      && fits (pos + size) (grown_size pos cap size) sizes'
  end.

(** ** What a call may change *)

Definition remaining (s : state) : nat := length (infile s).

(** From [s] to [s']: the buffer invariant is kept, the bytes written so
    far stay in place, the options keep their values, a name that is set
    stays set, and no input comes back. *)
Record extends (s s' : state) : Prop := mkExtends {
  ext_inv : buffer_inv s -> buffer_inv s';
  ext_out : buffer_inv s -> exists w, output_bytes s' = output_bytes s ++ w;
  ext_header : option_header s' = option_header s;
  ext_outfile : option_outfile_name s' = option_outfile_name s;
  ext_var : forall v,
      option_inc_var_name s = Some v -> option_inc_var_name s' = Some v;
  ext_size : forall v,
      option_inc_size_name s = Some v -> option_inc_size_name s' = Some v;
  ext_remaining : (remaining s' <= remaining s)%nat
}.

(** Every normal return of [m] extends the state and gives a value in [Q]. *)
Definition returns {A} (m : M A) (Q : A -> Prop) : Prop :=
  forall s a s', m s = Ret a s' -> extends s s' /\ Q a.

(** ** Vocabulary of the statements *)

(** A valid header of a text file, and the name of an input file. *)
Definition text_header : list byte := bytes_of_string "xof 0302txt 0064".
Definition in_x : list byte := bytes_of_string "in.x".

(** The characters that start a name, and those that go on with it. *)
Definition name_start (c : byte) : bool := isalpha c || Byte.eqb c x5f.
Definition name_char (c : byte) : bool :=
  isalnum c || Byte.eqb c x5f || Byte.eqb c x2d.

(** The input stops being a name at [rest]. *)
Definition name_ends (rest : list byte) : Prop :=
  match rest with
  | [] => True
  | c :: _ => name_char c = false
  end.

(** What is left of the input [rest] once its first character was read
    and given to [unread_byte]. *)
Definition after_unread (rest : list byte) : list byte :=
  match rest with
  | c :: rest' => if Byte.eqb c xff then rest' else rest
  | [] => []
  end.

(** Equality of two words up to the case of their letters. *)
Definition same_word (a b : list byte) : Prop := map tolower a = map tolower b.

(** An identifier: a character that starts a name, then name characters. *)
Definition identifier (ident : list byte) : Prop :=
  match ident with
  | [] => False
  | c :: _ => name_start c = true
  end
  /\ forallb name_char ident = true.

(** A state of the encoder in the middle of a run: 616 bytes written into
    a block of 1024 (as after the header and 300 braces), and [input] still
    to be read. *)
Definition midway (input : list byte) : state :=
  mkState input 1 (repeat x00 1024) 616 1024 false None None
          (bytes_of_string "stdout").

(** A run with both names given by flags, on an input that has a
    directive for each. *)
Definition flag_opts : list opt :=
  [Opt_i (bytes_of_string "Flag"); Opt_s (bytes_of_string "SZ")].

Definition pragma_input : list byte :=
  text_header ++ bytes_of_string "#pragma xftmpl name Foo" ++ [newline]
    ++ bytes_of_string "#pragma xftmpl size Bar" ++ [newline]
    ++ bytes_of_string "{}".

Definition flag_run_output : list byte :=
  match main LittleEndian flag_opts [in_x] pragma_input with
  | Success out => out
  | _ => []
  end.

(** ** Vocabulary of the further properties *)

(** The token code of a punctuation character. *)
Definition punctuation_code (c : byte) : option Z :=
  match c with
  | x7b => Some TOKEN_OBRACE
  | x7d => Some TOKEN_CBRACE
  | x5b => Some TOKEN_OBRACKET
  | x5d => Some TOKEN_CBRACKET
  | x28 => Some TOKEN_OPAREN
  | x29 => Some TOKEN_CPAREN
  | x2c => Some TOKEN_COMMA
  | x3b => Some TOKEN_SEMICOLON
  | x2e => Some TOKEN_DOT
  | _ => None
  end.

(** Newline, carriage return, space and tab. *)
Definition is_blank (c : byte) : bool :=
  Byte.eqb c x0a || Byte.eqb c x0d || Byte.eqb c x20 || Byte.eqb c x09.

(** The characters that can start a token or be skipped between tokens. *)
Definition token_start (c : byte) : bool :=
  is_blank c
  || match punctuation_code c with Some _ => true | None => false end
  || Byte.eqb c x2f || Byte.eqb c x23 || Byte.eqb c x3c || Byte.eqb c x22
  || isdigit c || Byte.eqb c x2d || isalpha c || Byte.eqb c x5f.

(** The number of newline characters in a text. *)
Definition newlines (text : list byte) : Z :=
  Z.of_nat (length (filter (Byte.eqb newline) text)).

(** Hexadecimal digits and the number that a row of them writes. *)
Definition is_hex (c : byte) : bool :=
  match hex_value c with Some _ => true | None => false end.

Definition hex_digit_value (c : byte) : Z :=
  match hex_value c with Some d => d | None => 0 end.

Definition hex_number (digits : list byte) : Z :=
  fold_left (fun acc c => acc * 16 + hex_digit_value c) digits 0.

(** A field of [n] hexadecimal digits. *)
Definition hex_field (n : nat) (digits : list byte) : Prop :=
  length digits = n /\ forallb is_hex digits = true.

(** The bytes that pairs of hexadecimal digits write. *)
Fixpoint hex_pairs (digits : list byte) : list byte :=
  match digits with
  | h :: l :: rest => byte_of_Z (hex_number [h; l]) :: hex_pairs rest
  | _ => []
  end.

(** The text of a GUID: [<], five fields of digits with dashes between
    them, [>]. *)
Definition guid_text (d1 d2 d3 d4 d5 : list byte) : list byte :=
  x3c :: d1 ++ x2d :: d2 ++ x2d :: d3 ++ x2d :: d4 ++ x2d :: d5 ++ [x3e].

(** The number that a row of decimal digits writes. *)
Definition decimal_number (digits : list byte) : Z :=
  fold_left (fun acc c => acc * 10 + (Z_of_byte c - 48)) digits 0.

(** The input stops being a number at [rest]. *)
Definition number_ends (rest : list byte) : Prop :=
  match rest with
  | [] => True
  | c :: _ => isdigit c = false /\ c <> x2e
  end.

(** A decimal integer literal. *)
Definition integer_text (negative : bool) (digits : list byte) : list byte :=
  (if negative then [x2d] else []) ++ digits.

Definition integer_value (negative : bool) (digits : list byte) : Z :=
  if negative then - decimal_number digits else decimal_number digits.

(** A word of a directive line: bytes other than space, tab, NUL and
    newline, at least one. *)
Definition is_word (w : list byte) : Prop :=
  w <> []
  /\ forallb (fun c => negb (is_delim c || Byte.eqb c x00 || Byte.eqb c newline))
             w = true.

(** The word before [tail] ends there: at the end of the line, or at a
    space or a tab. *)
Definition word_ends (tail : list byte) : Prop :=
  match tail with
  | [] => True
  | d :: _ => is_delim d = true
  end.

(** The state after a directive that gives the variable name, and after
    one that gives the name of the size macro: the first name stays. *)
Definition with_var_name (s : state) (name : list byte) : state :=
  match option_inc_var_name s with
  | None => set_inc_var_name s (Some name)
  | Some _ => s
  end.

Definition with_size_name (s : state) (name : list byte) : state :=
  match option_inc_size_name s with
  | None => set_inc_size_name s (Some name)
  | Some _ => s
  end.

(** One value of the C array that [write_c_hex_bytes] prints. *)
Definition hex_item (b : byte) : list byte :=
  bytes_of_string " 0x" ++ hex2 b ++ bytes_of_string ",".

(** The tokens of a text of punctuation and blanks. *)
Definition punctuation_tokens (host : byte_order) (text : list byte) : list byte :=
  flat_map (fun c => match punctuation_code c with
                     | Some code => host_bytes host 2 code
                     | None => []
                     end) text.

Definition is_punctuation (c : byte) : bool :=
  match punctuation_code c with Some _ => true | None => false end.

(** Consecutive words of a table are in strictly increasing order. *)
Fixpoint strictly_sorted (table : list keyword) : bool :=
  match table with
  | a :: (b :: _) as rest =>
      (strcasecmp (word a) (word b) <? 0) && strictly_sorted rest
  | _ => true
  end.

(** Two states with the same reader and the same output buffer (their
    options may differ), and two outcomes that are the same up to that. *)
Definition same_run (s t : state) : Prop :=
  infile s = infile t /\ line_no s = line_no t
  /\ output_data s = output_data t /\ output_pos s = output_pos t
  /\ output_size s = output_size t.

Definition same_outcome {A} (x y : outcome A) : Prop :=
  match x, y with
  | Ret a s, Ret b t => a = b /\ same_run s t
  | Fatal e l, Fatal e' l' => e = e' /\ l = l'
  | Undefined u, Undefined u' => u = u'
  | _, _ => False
  end.

(** A call whose course does not depend on the options. *)
Definition oblivious {A} (m : M A) : Prop :=
  forall s t, same_run s t -> same_outcome (m s) (m t).


(** ** The encoder with a [realloc] that can fail

    [grants n] tells whether [realloc] gives a block of [n] bytes, or
    [NULL].  The functions of this section are those of the encoder with
    the one more case that [write_bytes] then has; when every request is
    granted they are the functions above. *)

(** [output_pos + size > output_size], in [UINT] arithmetic. *)
Definition grows (pos cap size : Z) : bool := (pos + size) mod UINT_MOD >? cap.

(** [memcpy (output_data + output_pos, data, size); output_pos += size;
    return TRUE;] *)
Definition copy_bytes (data : list byte) : M bool := fun s =>
  match memcpy (output_data s) (output_pos s) data with
  | Some block =>
      Ret true (set_output s block
                  ((output_pos s + Z.of_nat (length data)) mod UINT_MOD)
                  (output_size s))
  | None => Undefined BufferOverrun
  end.

Section Allocator.

Variable host : byte_order.
Variable grants : Z -> bool.

(** After a refusal [output_size] is raised and [output_data] is [NULL],
    the empty block. *)
Definition write_bytes_alloc (data : list byte) : M bool := fun s =>
  let size := Z.of_nat (length data) in
  if (output_pos s + size) mod UINT_MOD >? output_size s then
    let n := Z.max (output_size s * 2 mod UINT_MOD) size in
    if grants n
    then copy_bytes data
           (set_output s (realloc (output_data s) n) (output_pos s) n)
    else Ret false (set_output s [] (output_pos s) n)
  else copy_bytes data s.

Definition write_word_alloc (value : Z) : M bool :=
  write_bytes_alloc (host_bytes host 2 value).
Definition write_dword_alloc (value : Z) : M bool :=
  write_bytes_alloc (host_bytes host 4 value).

Definition parse_keyword_alloc (name : list byte) : M bool :=
  match bsearch (fun k => compare_names name (word k)) reserved_words with
  | None => ret false
  | Some keyword => write_word_alloc (token keyword)
  end.

Definition parse_guid_alloc : M bool :=
  '(ok, bytes) <- read_bytes 37 ;;
  if negb ok then fatal_error TruncatedGuid
  else
    let buf := x3c :: bytes in
    let '(r, vals) := sscanf_X guidfmt (c_string buf) [] in
    if negb (r =? 11) then fatal_error InvalidGuid
    else write_word_alloc TOKEN_GUID
           &&& write_bytes_alloc (guid_bytes host vals).

Definition parse_name_alloc : M bool :=
  '(c, name) <-
     while_read
       (fun name c => (len name <? 512)
                      && (isalnum c || Byte.eqb c x5f || Byte.eqb c x2d))
       store [] ;;
  _ <- unread_byte c ;;
  found <- parse_keyword_alloc name ;;
  if found then ret true
  else write_word_alloc TOKEN_NAME &&& write_dword_alloc (len name)
         &&& write_bytes_alloc name.

Definition parse_number_alloc : M bool :=
  '(c, (buffer, dot)) <-
     while_read
       (fun '(buffer, dot) c =>
          ((len buffer =? 0) && Byte.eqb c x2d)
          || (negb dot && Byte.eqb c x2e)
          || isdigit c)
       (fun '(buffer, dot) c =>
          (store buffer c, if Byte.eqb c x2e then true else dot))
       ([], false) ;;
  _ <- unread_byte c ;;
  if dot : bool then
    match scan_f (c_string buffer) with
    | MatchingFailure => fatal_error InvalidFloatToken
    | InputFailure => fun _ => Undefined IndeterminateValue
    | Converted value _ =>
        write_word_alloc TOKEN_FLOAT
          &&& write_bytes_alloc (host_bytes host 4 value)
    end
  else
    match scan_d (c_string buffer) with
    | MatchingFailure => fatal_error InvalidIntegerToken
    | InputFailure => fun _ => Undefined IndeterminateValue
    | Converted value _ =>
        write_word_alloc TOKEN_INTEGER &&& write_dword_alloc value
    end.

Definition parse_token_alloc : M bool :=
  '(ok, c) <- read_byte ;;
  if negb ok then ret false
  else match c with
  | x0a | x0d | x20 | x09 => ret true
  | x7b => write_word_alloc TOKEN_OBRACE
  | x7d => write_word_alloc TOKEN_CBRACE
  | x5b => write_word_alloc TOKEN_OBRACKET
  | x5d => write_word_alloc TOKEN_CBRACKET
  | x28 => write_word_alloc TOKEN_OPAREN
  | x29 => write_word_alloc TOKEN_CPAREN
  | x2c => write_word_alloc TOKEN_COMMA
  | x3b => write_word_alloc TOKEN_SEMICOLON
  | x2e => write_word_alloc TOKEN_DOT
  | x2f =>
      '(ok, c) <- read_byte ;;
      if negb ok || negb (Byte.eqb c x2f) then fatal_error InvalidSlash
      else
        '(c, _) <- while_read (fun _ c => negb (Byte.eqb c newline))
                              (fun (u : unit) _ => u) tt ;;
        ret (Byte.eqb c newline)
  | x23 =>
      '(c, buffer) <- while_read (fun _ c => negb (Byte.eqb c newline)) store [] ;;
      if negb (Byte.eqb c newline) then fatal_error LineTooLong
      else parse_directive buffer
  | x3c => parse_guid_alloc
  | x22 =>
      '(c, buffer) <- while_read (fun _ c => negb (Byte.eqb c x22)) store [] ;;
      if negb (Byte.eqb c x22) then fatal_error UnterminatedString
      else write_word_alloc TOKEN_STRING &&& write_dword_alloc (len buffer)
             &&& write_bytes_alloc buffer
  | _ =>
      _ <- unread_byte c ;;
      if isdigit c || Byte.eqb c x2d then parse_number_alloc
      else if isalpha c || Byte.eqb c x5f then parse_name_alloc
      else fatal_error (InvalidCharacter c)
  end.

(** [while (parse_token (&parser));] *)
Fixpoint parse_tokens_alloc (fuel : nat) : M (option unit) :=
  match fuel with
  | O => ret None
  | S fuel' =>
      more <- parse_token_alloc ;;
      if more then parse_tokens_alloc fuel' else ret (Some tt)
  end.

(** [realloc] refused the last request: [output_data] is [NULL], and
    [output_size] the size that was asked. *)
Definition refused (s : state) : Prop :=
  grants (output_size s) = false /\ output_data s = [].

End Allocator.

(** What every call keeps, whatever the allocator does: the output mode,
    the name of the output file, and no input comes back. *)
Definition keeps (s s' : state) : Prop :=
  option_header s' = option_header s
  /\ option_outfile_name s' = option_outfile_name s
  /\ (remaining s' <= remaining s)%nat.

(** A call that keeps those, and that returns [FALSE] only at the end of
    the input or when [realloc] has refused. *)
Definition alloc_returns (grants : Z -> bool) (m : M bool) : Prop :=
  forall s b s',
    m s = Ret b s' ->
    keeps s s' /\ (b = false -> infile s' = [] \/ refused grants s').

(** * Properties *)

(** ** Bytes *)

Lemma byte_of_Z_of_byte (b : byte) : byte_of_Z (Z_of_byte b) = b.
Proof. destruct b; reflexivity. Qed.

Lemma Z_of_byte_range (b : byte) : 0 <= Z_of_byte b < 256.
Proof. destruct b; vm_compute; split; congruence. Qed.

Lemma byte_eqb_eq (a b : byte) : Byte.eqb a b = true <-> a = b.
Proof.
  split.
  - apply Byte.byte_dec_bl.
  - apply Byte.byte_dec_lb.
Qed.

Lemma byte_eqb_neq (a b : byte) : Byte.eqb a b = false <-> a <> b.
Proof.
  rewrite <- byte_eqb_eq. destruct (Byte.eqb a b); split; congruence.
Qed.

Lemma host_bytes_length (host : byte_order) (n : nat) (v : Z) :
  length (host_bytes host n v) = n.
Proof.
  destruct host; unfold host_bytes, le_bytes;
    rewrite ?length_rev, length_map, length_seq; reflexivity.
Qed.

(** ** Sink writers *)

Lemma decode_hex2 (b : byte) (rest : list byte) :
  decode_hex_values (x30 :: x78 :: hex2 b ++ x2c :: rest)
  = b :: decode_hex_values rest.
Proof. destruct b; reflexivity. Qed.

Lemma c_hex_item (b : byte) (rest : list byte) :
  bytes_of_string " 0x" ++ hex2 b ++ bytes_of_string "," ++ rest
  = x20 :: x30 :: x78 :: hex2 b ++ x2c :: rest.
Proof. reflexivity. Qed.

Lemma decode_space (rest : list byte) :
  decode_hex_values (x20 :: rest) = decode_hex_values rest.
Proof. reflexivity. Qed.

Lemma decode_newline (rest : list byte) :
  decode_hex_values (newline :: rest) = decode_hex_values rest.
Proof. reflexivity. Qed.

Lemma decode_c_hex_bytes_from (data : list byte) :
  forall i, decode_hex_values (c_hex_bytes_from i data) = data.
Proof.
  induction data as [|b data IH]; intro i; [reflexivity|].
  cbn [c_hex_bytes_from]. rewrite c_hex_item.
  destruct (i mod 12 =? 0); cbn [app];
    rewrite ?decode_newline, ?decode_space, decode_hex2, IH; reflexivity.
Qed.

(** C8: the hex values of the C array that the header-mode writer prints,
    read back, are the bytes that the binary-mode writer writes, for
    every state of the output buffer. *)
Theorem c_hex_bytes_decode_to_raw_bytes (s : state) :
  decode_hex_values (write_c_hex_bytes s) = write_raw_bytes s.
Proof.
  unfold write_c_hex_bytes, write_raw_bytes. apply decode_c_hex_bytes_from.
Qed.

(** ** Output buffer *)

Lemma realloc_length (block : list byte) (n : Z) :
  0 <= n -> Z.of_nat (length (realloc block n)) = n.
Proof.
  intro H. unfold realloc. rewrite length_app, length_firstn, repeat_length. lia.
Qed.

Lemma realloc_firstn (block : list byte) (n : Z) (k : nat) :
  (k <= length block)%nat -> (k <= Z.to_nat n)%nat ->
  firstn k (realloc block n) = firstn k block.
Proof.
  intros Hk Hn. unfold realloc.
  rewrite firstn_app, firstn_firstn, length_firstn.
  replace (Nat.min k (Z.to_nat n)) with k by lia.
  replace (k - Nat.min (Z.to_nat n) (length block))%nat with 0%nat by lia.
  cbn. apply app_nil_r.
Qed.

Lemma memcpy_firstn (block data block' : list byte) (pos : Z) :
  0 <= pos ->
  memcpy block pos data = Some block' ->
  length block' = length block
  /\ firstn (Z.to_nat pos + length data) block'
     = firstn (Z.to_nat pos) block ++ data.
Proof.
  intros Hpos. unfold memcpy.
  destruct (Z.leb_spec (pos + Z.of_nat (length data)) (Z.of_nat (length block)));
    [|discriminate].
  intro E. injection E as <-. split.
  - rewrite !length_app, length_firstn, length_skipn. lia.
  - rewrite app_assoc, firstn_app.
    rewrite length_app, length_firstn.
    replace (Nat.min (Z.to_nat pos) (length block)) with (Z.to_nat pos) by lia.
    rewrite Nat.sub_diag, firstn_O, app_nil_r.
    apply firstn_all2. rewrite length_app, length_firstn. lia.
Qed.

Lemma grown_size_bound (pos cap size : Z) :
  0 <= cap < UINT_MOD -> 0 <= size < UINT_MOD ->
  0 <= grown_size pos cap size < UINT_MOD.
Proof.
  intros Hc Hs. unfold grown_size.
  destruct (Z.gtb_spec ((pos + size) mod UINT_MOD) cap) as [G|G]; [|lia].
  assert (0 <= cap * 2 mod UINT_MOD < UINT_MOD)
    by (apply Z.mod_pos_bound; reflexivity).
  lia.
Qed.

(** An append that stays inside the allocation adds its bytes after the
    ones written so far and keeps the invariant. *)
Lemma write_bytes_fits (data : list byte) (s : state) :
  buffer_inv s ->
  Z.of_nat (length data) < UINT_MOD ->
  let size := Z.of_nat (length data) in
  let cap := grown_size (output_pos s) (output_size s) size in
  output_pos s + size <= cap ->
  exists s',
    write_bytes data s = Ret true s'
    /\ buffer_inv s'
    /\ output_bytes s' = output_bytes s ++ data
    /\ output_pos s' = output_pos s + size
    /\ output_size s' = cap
    /\ set_reader s' (infile s) (line_no s)
       = set_output s (output_data s') (output_pos s') (output_size s').
Proof.
  intros (Hpos & Hlen & Hcap) Hdata size cap Hfit.
  assert (Hg : 0 <= cap < UINT_MOD)
    by (apply grown_size_bound; unfold size; lia).
  unfold write_bytes. fold size.
  set (s1 := if (output_pos s + size) mod UINT_MOD >? output_size s then _ else s).
  assert (H1 : output_pos s1 = output_pos s /\ output_size s1 = cap
               /\ Z.of_nat (length (output_data s1)) = cap
               /\ firstn (Z.to_nat (output_pos s)) (output_data s1)
                  = firstn (Z.to_nat (output_pos s)) (output_data s)
               /\ set_reader s1 (infile s) (line_no s)
                  = set_output s (output_data s1) (output_pos s1) (output_size s1)).
  { subst s1 cap. unfold grown_size in *. revert Hfit Hg.
    destruct ((output_pos s + size) mod UINT_MOD >? output_size s); intros.
    - cbn. repeat split; try reflexivity.
      + apply realloc_length. change UINT_MOD with 4294967296 in *. lia.
      + apply realloc_firstn; change UINT_MOD with 4294967296 in *; lia.
    - repeat split; lia. }
  destruct H1 as (P1 & S1 & L1 & F1 & R1).
  destruct (memcpy (output_data s1) (output_pos s1) data) as [block|] eqn:M.
  - apply memcpy_firstn in M; [|lia]. destruct M as (ML & MF).
    rewrite P1 in *. rewrite Z.mod_small by (unfold size in *; lia).
    eexists. split; [reflexivity|]. cbn.
    unfold buffer_inv, output_bytes. cbn.
    repeat split; try lia.
    + change UINT_MOD with 4294967296 in *. lia.
    + rewrite Z2Nat.inj_add by lia. unfold size. rewrite Nat2Z.id, MF, F1.
      reflexivity.
    + unfold set_reader, set_output in *. cbn in *. congruence.
  - exfalso. unfold memcpy in M. rewrite P1, L1 in M.
    destruct (Z.leb_spec (output_pos s + Z.of_nat (length data)) cap);
      [discriminate|]. unfold size in *. lia.
Qed.

Lemma write_bytes_overrun (data : list byte) (s : state) :
  buffer_inv s ->
  Z.of_nat (length data) < UINT_MOD ->
  let size := Z.of_nat (length data) in
  grown_size (output_pos s) (output_size s) size < output_pos s + size ->
  write_bytes data s = Undefined BufferOverrun.
Proof.
  intros (Hpos & Hlen & Hcap) Hdata size Hover.
  unfold write_bytes, grown_size in *. fold size.
  change UINT_MOD with 4294967296 in *.
  destruct ((output_pos s + size) mod 4294967296 >? output_size s).
  - cbn. unfold memcpy. rewrite realloc_length by lia. fold size.
    match goal with |- context [?a <=? ?b] => destruct (Z.leb_spec a b) end;
      [lia|reflexivity].
  - unfold memcpy. fold size. rewrite <- Hlen.
    match goal with |- context [?a <=? ?b] => destruct (Z.leb_spec a b) end;
      [lia|reflexivity].
Qed.

(** ** The monad and the calls that extend the state *)

Lemma extends_refl (s : state) : extends s s.
Proof.
  constructor; auto.
  intros _. exists []. symmetry. apply app_nil_r.
Qed.

Lemma extends_trans (s1 s2 s3 : state) :
  extends s1 s2 -> extends s2 s3 -> extends s1 s3.
Proof.
  intros [I1 O1 H1 F1 V1 Z1 R1] [I2 O2 H2 F2 V2 Z2 R2].
  constructor; auto; try congruence; try lia.
  intro I. destruct (O1 I) as [w1 E1]. destruct (O2 (I1 I)) as [w2 E2].
  exists (w1 ++ w2). rewrite E2, E1. symmetry. apply app_assoc.
Qed.

Lemma extends_set_reader (s : state) (inp : list byte) (line : Z) :
  (length inp <= remaining s)%nat -> extends s (set_reader s inp line).
Proof.
  intro H. constructor; auto.
  intros _. exists []. symmetry. apply app_nil_r.
Qed.

Lemma bind_ret {A B} (m : M A) (k : A -> M B) (s s'' : state) (b : B) :
  bind m k s = Ret b s'' ->
  exists a s', m s = Ret a s' /\ k a s' = Ret b s''.
Proof.
  unfold bind. destruct (m s) as [a s'| |]; try discriminate. eauto.
Qed.

Lemma returns_ret {A} (a : A) (Q : A -> Prop) : Q a -> returns (ret a) Q.
Proof.
  intros H s a' s' E. injection E as <- <-. split; [apply extends_refl|exact H].
Qed.

Lemma returns_bind {A B} (m : M A) (k : A -> M B) (P : A -> Prop)
    (Q : B -> Prop) :
  returns m P -> (forall a, P a -> returns (k a) Q) -> returns (bind m k) Q.
Proof.
  intros Hm Hk s b s'' E.
  apply bind_ret in E. destruct E as (a & s' & E1 & E2).
  destruct (Hm _ _ _ E1) as [X1 Pa]. destruct (Hk a Pa _ _ _ E2) as [X2 Qb].
  split; [eapply extends_trans; eassumption|exact Qb].
Qed.

Lemma returns_and_then (a b : M bool) :
  returns a (fun _ => True) -> returns b (fun _ => True) ->
  returns (a &&& b) (fun _ => True).
Proof.
  intros Ha Hb. unfold and_then. eapply returns_bind; [exact Ha|].
  intros [] _; [exact Hb|]. apply returns_ret. exact I.
Qed.

Lemma returns_fatal_error {A} (e : fatal) (Q : A -> Prop) :
  returns (fatal_error e) Q.
Proof. intros s a s' E. discriminate. Qed.

Lemma returns_read_byte : returns read_byte (fun _ => True).
Proof.
  intros s [ok c] s' E. unfold read_byte in E.
  destruct (infile s) as [|c0 rest] eqn:Hin; injection E as <- <- <-.
  - split; [apply extends_refl|exact I].
  - split; [|exact I]. apply extends_set_reader. unfold remaining.
    rewrite Hin. cbn. lia.
Qed.

Lemma returns_read_bytes (size : nat) :
  returns (read_bytes size) (fun '(_, data) => (length data <= size)%nat).
Proof.
  intros s [ok data] s' E. unfold read_bytes in E. injection E as <- <- <-.
  split.
  - apply extends_set_reader. unfold remaining. rewrite length_skipn. lia.
  - rewrite length_firstn. lia.
Qed.

Lemma while_read_from_length {A} (cond : A -> byte -> bool)
    (body : A -> byte -> A) (inp : list byte) :
  forall line a c a' inp' line',
    while_read_from cond body inp line a = (c, a', inp', line') ->
    (length inp' <= length inp)%nat.
Proof.
  induction inp as [|c0 rest IH]; intros line a c a' inp' line' E; cbn in E.
  - injection E as <- <- <- <-. cbn. lia.
  - destruct (cond a c0).
    + apply IH in E. cbn. lia.
    + injection E as <- <- <- <-. cbn. lia.
Qed.

(** What the loop leaves in the locals has every property that the start
    value has and the body keeps for the characters that pass the test. *)
Lemma while_read_from_kept {A} (cond : A -> byte -> bool)
    (body : A -> byte -> A) (P : A -> Prop) (inp : list byte) :
  (forall a c, P a -> cond a c = true -> P (body a c)) ->
  forall line a c a' inp' line',
    P a ->
    while_read_from cond body inp line a = (c, a', inp', line') ->
    P a'.
Proof.
  intro Hbody.
  induction inp as [|c0 rest IH]; intros line a c a' inp' line' Pa E; cbn in E.
  - injection E as <- <- <- <-. exact Pa.
  - destruct (cond a c0) eqn:C.
    + eapply IH; [|exact E]. apply Hbody; assumption.
    + injection E as <- <- <- <-. exact Pa.
Qed.

Lemma returns_while_read {A} (cond : A -> byte -> bool) (body : A -> byte -> A)
    (P : A -> Prop) (a : A) :
  (forall a c, P a -> P (body a c)) -> P a ->
  returns (while_read cond body a) (fun '(_, a') => P a').
Proof.
  intros Hbody Pa s [c a'] s' E. unfold while_read in E.
  destruct (while_read_from cond body (infile s) (line_no s) a)
    as [[[c1 a1] inp1] line1] eqn:W.
  injection E as <- <- <-. split.
  - apply extends_set_reader. eapply while_read_from_length. exact W.
  - eapply while_read_from_kept; [|exact Pa|exact W]. auto.
Qed.

Lemma store_length (buffer : list byte) (c : byte) :
  (length buffer <= 511)%nat -> (length (store buffer c) <= 511)%nat.
Proof.
  intro H. unfold store.
  destruct (Z.ltb_spec (Z.of_nat (length buffer) + 1) 512); [|exact H].
  rewrite length_app. cbn. lia.
Qed.

Lemma returns_write_bytes (data : list byte) :
  Z.of_nat (length data) < UINT_MOD ->
  returns (write_bytes data) (fun _ => True).
Proof.
  intros Hdata s b s' E. split; [|exact I].
  assert (O : option_header s' = option_header s
              /\ option_outfile_name s' = option_outfile_name s
              /\ option_inc_var_name s' = option_inc_var_name s
              /\ option_inc_size_name s' = option_inc_size_name s
              /\ infile s' = infile s).
  { unfold write_bytes in E.
    destruct (memcpy _ _ data); [|discriminate]. injection E as <- <-.
    destruct (_ >? _); cbn; auto. }
  destruct O as (O1 & O2 & O3 & O4 & O5).
  assert (B : buffer_inv s ->
              buffer_inv s' /\ output_bytes s' = output_bytes s ++ data).
  { intro Inv.
    destruct (Z.le_gt_cases
                (output_pos s + Z.of_nat (length data))
                (grown_size (output_pos s) (output_size s)
                            (Z.of_nat (length data)))) as [Fit|Over].
    - destruct (write_bytes_fits data s Inv Hdata Fit)
        as (s1 & E1 & I1 & B1 & _).
      rewrite E1 in E. injection E as <- <-. auto.
    - rewrite (write_bytes_overrun data s Inv Hdata) in E by lia.
      discriminate. }
  constructor; try congruence.
  - intro Inv. apply B, Inv.
  - intro Inv. exists data. apply B, Inv.
  - unfold remaining. rewrite O5. lia.
Qed.

Lemma uint_small (n : nat) : (n <= 1024)%nat -> Z.of_nat n < UINT_MOD.
Proof. intro H. change UINT_MOD with 4294967296. lia. Qed.

Lemma returns_write_host (host : byte_order) (n : nat) (v : Z) :
  (n <= 1024)%nat ->
  returns (write_bytes (host_bytes host n v)) (fun _ => True).
Proof.
  intro H. apply returns_write_bytes. rewrite host_bytes_length.
  apply uint_small, H.
Qed.

Lemma returns_write_word (host : byte_order) (v : Z) :
  returns (write_word host v) (fun _ => True).
Proof. apply returns_write_host. lia. Qed.

Lemma returns_write_dword (host : byte_order) (v : Z) :
  returns (write_dword host v) (fun _ => True).
Proof. apply returns_write_host. lia. Qed.

(** ** The token rules extend the state *)

Lemma returns_parse_keyword (host : byte_order) (name : list byte) :
  returns (parse_keyword host name) (fun _ => True).
Proof.
  unfold parse_keyword. destruct (bsearch _ reserved_words).
  - apply returns_write_word.
  - apply returns_ret. exact I.
Qed.

Lemma sscanf_X_length (fmt : list directive) :
  forall s vals r vals',
    sscanf_X fmt s vals = (r, vals') ->
    (length vals' <= length vals + length fmt)%nat.
Proof.
  induction fmt as [|d fmt IH]; intros s vals r vals' E; cbn in E.
  - injection E as _ <-. lia.
  - destruct d as [c|width].
    + destruct s as [|x s'].
      * injection E as _ <-. cbn. lia.
      * destruct (Byte.eqb x c).
        -- apply IH in E. cbn. lia.
        -- injection E as _ <-. cbn. lia.
    + destruct (scan_X width s) as [v rest| |].
      * apply IH in E. rewrite length_app in E. cbn in *. lia.
      * injection E as _ <-. cbn. lia.
      * injection E as _ <-. cbn. lia.
Qed.

Lemma guid_bytes_length (host : byte_order) (vals : list Z) :
  (length (guid_bytes host vals) <= 8 + length vals)%nat.
Proof.
  unfold guid_bytes. destruct vals as [|d1 [|t0 [|t1 data4]]]; cbn [length]; try lia.
  rewrite !length_app, !host_bytes_length, length_map. lia.
Qed.

Lemma returns_parse_guid (host : byte_order) :
  returns (parse_guid host) (fun _ => True).
Proof.
  unfold parse_guid. eapply returns_bind; [apply (returns_read_bytes 37)|].
  intros [ok bytes] _. destruct (negb ok); [apply returns_fatal_error|].
  destruct (sscanf_X guidfmt _ []) as [r vals] eqn:S.
  destruct (negb (r =? 11)); [apply returns_fatal_error|].
  apply returns_and_then; [apply returns_write_word|].
  apply returns_write_bytes, uint_small.
  apply sscanf_X_length in S. pose proof (guid_bytes_length host vals).
  cbn in S. lia.
Qed.

Lemma extends_set_inc_var_name (s : state) (name : list byte) :
  option_inc_var_name s = None -> extends s (set_inc_var_name s (Some name)).
Proof.
  intro H. constructor; auto.
  - intros _. exists []. symmetry. apply app_nil_r.
  - intros v E. congruence.
Qed.

Lemma extends_set_inc_size_name (s : state) (name : list byte) :
  option_inc_size_name s = None -> extends s (set_inc_size_name s (Some name)).
Proof.
  intro H. constructor; auto.
  - intros _. exists []. symmetry. apply app_nil_r.
  - intros v E. congruence.
Qed.

Lemma returns_parse_directive (buffer : list byte) :
  returns (parse_directive buffer) (fun _ => True).
Proof.
  unfold parse_directive.
  repeat match goal with
         | |- returns (ret _) _ => apply returns_ret; exact I
         | |- returns (match strtok ?x with _ => _ end) _ =>
             destruct (strtok x) as [[? ?]|]
         | |- returns (if ?x then _ else _) _ => destruct x
         end.
  - intros s a s' E. split; [|exact I].
    destruct (strtok _) as [[tok ?]|];
      [destruct (option_inc_var_name s) eqn:V|]; injection E as <- <-;
      try apply extends_refl.
    apply extends_set_inc_var_name, V.
  - intros s a s' E. split; [|exact I].
    destruct (strtok _) as [[tok ?]|];
      [destruct (option_inc_size_name s) eqn:V|]; injection E as <- <-;
      try apply extends_refl.
    apply extends_set_inc_size_name, V.
Qed.

(** How the loop ends: at the end of the input, or after reading a
    character that fails its test. *)
Lemma while_read_from_exit {A} (cond : A -> byte -> bool)
    (body : A -> byte -> A) (inp : list byte) :
  forall line a c a' inp' line',
    while_read_from cond body inp line a = (c, a', inp', line') ->
    (c = xff /\ inp' = []) \/ (length inp' < length inp)%nat.
Proof.
  induction inp as [|c0 rest IH]; intros line a c a' inp' line' E; cbn in E.
  - injection E as <- <- <- <-. left. split; reflexivity.
  - destruct (cond a c0).
    + apply IH in E. destruct E as [E|E]; [left; exact E|right; cbn; lia].
    + injection E as <- <- <- <-. right. cbn. lia.
Qed.

Lemma unread_byte_ret (c : byte) (s s' : state) (b : bool) :
  unread_byte c s = Ret b s' ->
  exists line,
    s' = set_reader s (if Byte.eqb c xff then infile s else c :: infile s) line.
Proof.
  unfold unread_byte. destruct (Byte.eqb c xff); intro E; injection E as <- <-;
    eexists; reflexivity.
Qed.

(** A loop of [read_byte] followed by [unread_byte] of the last character
    gives no input back, and takes some when the first character passes
    the test of the loop. *)
Lemma while_read_unread {A} (cond : A -> byte -> bool) (body : A -> byte -> A)
    (P : A -> Prop) (a : A) :
  (forall a c, P a -> P (body a c)) -> P a ->
  forall s c a' s1 b s2,
    while_read cond body a s = Ret (c, a') s1 ->
    unread_byte c s1 = Ret b s2 ->
    extends s s2 /\ P a'
    /\ (forall c0 r, infile s = c0 :: r -> cond a c0 = true ->
                     (remaining s2 < remaining s)%nat).
Proof.
  intros Hbody Pa s c a' s1 b s2 W U. unfold while_read in W.
  destruct (while_read_from cond body (infile s) (line_no s) a)
    as [[[c1 a1] inp1] line1] eqn:E.
  injection W as <- <- <-.
  apply unread_byte_ret in U. destruct U as [line ->]. cbn [infile set_reader].
  assert (Pa' : P a1)
    by (eapply while_read_from_kept; [|exact Pa|exact E]; auto).
  assert (X : forall inp, (length inp <= remaining s)%nat ->
                extends s (set_reader (set_reader s inp1 line1) inp line)).
  { intros inp L. apply (extends_set_reader s inp line L). }
  split; [|split; [exact Pa'|]].
  - apply X. pose proof (while_read_from_exit _ _ _ _ _ _ _ _ _ E) as [[-> ->]|L].
    + cbn. lia.
    + unfold remaining. destruct (Byte.eqb c1 xff); cbn; lia.
  - intros c0 r I0 C0. unfold remaining. cbn [infile set_reader].
    rewrite I0 in E |- *. cbn in E. rewrite C0 in E.
    pose proof (while_read_from_exit _ _ _ _ _ _ _ _ _ E) as [[-> ->]|L].
    + cbn. lia.
    + destruct (Byte.eqb c1 xff); cbn; lia.
Qed.

Lemma parse_number_extends (host : byte_order) (s s' : state) (b : bool) :
  parse_number host s = Ret b s' ->
  extends s s'
  /\ (forall c0 r, infile s = c0 :: r -> isdigit c0 || Byte.eqb c0 x2d = true ->
                   (remaining s' < remaining s)%nat).
Proof.
  intro E. unfold parse_number in E.
  apply bind_ret in E. destruct E as ([c [buffer dot]] & s1 & W & E).
  apply bind_ret in E. destruct E as (u & s2 & U & E).
  destruct (while_read_unread _ _ (fun _ => True) _ (fun _ _ _ => I) I
              _ _ _ _ _ _ W U) as (X & _ & L).
  assert (T : extends s2 s').
  { destruct dot.
    - destruct (scan_f _) as [v rest| |]; try discriminate.
      eapply (returns_and_then _ _ (returns_write_word host _)
                (returns_write_host host 4 v ltac:(lia))).
      exact E.
    - destruct (scan_d _) as [v rest| |]; try discriminate.
      eapply (returns_and_then _ _ (returns_write_word host _)
                (returns_write_dword host v)).
      exact E. }
  split; [eapply extends_trans; eassumption|].
  intros c0 r I0 C0. pose proof (ext_remaining _ _ T).
  enough (remaining s2 < remaining s)%nat by lia.
  apply (L c0 r I0). cbn.
  destruct (isdigit c0), (Byte.eqb c0 x2d), (Byte.eqb c0 x2e);
    try reflexivity; discriminate.
Qed.

Lemma parse_name_extends (host : byte_order) (s s' : state) (b : bool) :
  parse_name host s = Ret b s' ->
  extends s s'
  /\ (forall c0 r, infile s = c0 :: r -> isalpha c0 || Byte.eqb c0 x5f = true ->
                   (remaining s' < remaining s)%nat).
Proof.
  intro E. unfold parse_name in E.
  apply bind_ret in E. destruct E as ([c name] & s1 & W & E).
  apply bind_ret in E. destruct E as (u & s2 & U & E).
  destruct (while_read_unread _ _ (fun name => (length name <= 511)%nat) []
              store_length ltac:(cbn; lia) _ _ _ _ _ _ W U) as (X & N & L).
  assert (T : extends s2 s').
  { refine (proj1 ((_ : returns _ (fun _ => True)) _ _ _ E)).
    eapply returns_bind; [apply returns_parse_keyword|].
    intros [] _; [apply returns_ret; exact I|].
    repeat apply returns_and_then.
    - apply returns_write_word.
    - apply returns_write_dword.
    - apply returns_write_bytes, uint_small. lia. }
  split; [eapply extends_trans; eassumption|].
  intros c0 r I0 C0. pose proof (ext_remaining _ _ T).
  enough (remaining s2 < remaining s)%nat by lia.
  apply (L c0 r I0).
  change ((isalpha c0 || isdigit c0 || Byte.eqb c0 x5f || Byte.eqb c0 x2d)
          = true).
  destruct (isalpha c0), (isdigit c0), (Byte.eqb c0 x5f), (Byte.eqb c0 x2d);
    try reflexivity; discriminate.
Qed.

(** ** One token, and the token loop *)

Lemma default_extends (host : byte_order) (c : byte) (s : state)
    (rest : list byte) (line : Z) (b : bool) (s' : state) :
  infile s = c :: rest ->
  (_ <- unread_byte c ;;
   if isdigit c || Byte.eqb c x2d then parse_number host
   else if isalpha c || Byte.eqb c x5f then parse_name host
   else fatal_error (InvalidCharacter c)) (set_reader s rest line)
  = Ret b s' ->
  extends s s' /\ (remaining s' < remaining s)%nat.
Proof.
  intros Hin E. apply bind_ret in E. destruct E as (u & s2 & U & E).
  apply unread_byte_ret in U. destruct U as [line2 U]. cbn in U.
  assert (C : (isdigit c || Byte.eqb c x2d) || (isalpha c || Byte.eqb c x5f)
              = true).
  { destruct (isdigit c || Byte.eqb c x2d); [reflexivity|].
    destruct (isalpha c || Byte.eqb c x5f); [reflexivity|discriminate]. }
  assert (F : Byte.eqb c xff = false).
  { destruct (Byte.eqb c xff) eqn:F; [|reflexivity].
    apply byte_eqb_eq in F. subst c. discriminate. }
  rewrite F in U.
  assert (I2 : infile s2 = c :: rest) by (subst s2; reflexivity).
  assert (X : extends s s2).
  { subst s2. apply (extends_set_reader s (c :: rest) line2).
    unfold remaining. rewrite Hin. lia. }
  assert (R2 : remaining s2 = remaining s)
    by (unfold remaining; rewrite I2, Hin; reflexivity).
  destruct (isdigit c || Byte.eqb c x2d) eqn:D.
  - apply parse_number_extends in E. destruct E as [T L].
    split; [eapply extends_trans; eassumption|].
    rewrite <- R2. apply (L c rest I2 D).
  - cbn in C. rewrite C in E.
    apply parse_name_extends in E. destruct E as [T L].
    split; [eapply extends_trans; eassumption|].
    rewrite <- R2. apply (L c rest I2 C).
Qed.

Ltac returns_auto :=
  repeat first
    [ apply returns_ret; exact I
    | apply returns_fatal_error
    | apply returns_write_word
    | apply returns_write_dword
    | apply returns_parse_guid
    | apply returns_parse_directive
    | apply returns_and_then
    | apply returns_write_bytes, uint_small; lia
    | eapply returns_bind; [apply returns_read_byte|intros [? ?] _]
    | eapply returns_bind;
      [apply (returns_while_read _ _ (fun _ : unit => True)); auto
      |intros [? ?] _]
    | eapply returns_bind;
      [apply (returns_while_read _ _ (fun b => (length b <= 511)%nat));
       [apply store_length|cbn; lia]
      |intros [? ?] ?]
    | match goal with
      | |- returns (if ?x then _ else _) _ => destruct x
      end ].

Lemma parse_token_extends (host : byte_order) (s s' : state) (b : bool) :
  parse_token host s = Ret b s' ->
  extends s s' /\ (b = true -> (remaining s' < remaining s)%nat).
Proof.
  intro E. unfold parse_token in E.
  apply bind_ret in E. destruct E as ([ok c] & s1 & R & E).
  unfold read_byte in R. destruct (infile s) as [|c0 rest] eqn:Hin;
    injection R as <- <- <-.
  - injection E as <- <-. split; [apply extends_refl|discriminate].
  - set (line := if Byte.eqb c0 newline then _ else _) in E.
    assert (X : extends s (set_reader s rest line)).
    { apply extends_set_reader. unfold remaining. rewrite Hin. cbn. lia. }
    assert (L : (remaining (set_reader s rest line) < remaining s)%nat).
    { unfold remaining. rewrite Hin. cbn. lia. }
    enough (T : (extends s s' /\ (remaining s' < remaining s)%nat)
                \/ extends (set_reader s rest line) s').
    { destruct T as [[T1 T2]|T]; [split; [exact T1|intros _; exact T2]|].
      pose proof (ext_remaining _ _ T).
      split; [eapply extends_trans; eassumption|intros _; lia]. }
    clearbody line. clear X L.
    destruct c0; cbv beta iota delta [negb] in E;
      first
        [ left; exact (default_extends host _ s rest line b s' Hin E)
        | right;
          refine (proj1 ((_ : returns _ (fun _ => True)) _ _ _ E));
          returns_auto ].
Qed.

Lemma parse_tokens_extends (host : byte_order) (fuel : nat) :
  forall s r s', parse_tokens host fuel s = Ret r s' -> extends s s'.
Proof.
  induction fuel as [|fuel IH]; intros s r s' E; cbn in E.
  - injection E as <- <-. apply extends_refl.
  - apply bind_ret in E. destruct E as (more & s1 & T & E).
    apply parse_token_extends in T. destruct T as [T _].
    destruct more.
    + eapply extends_trans; [exact T|]. eapply IH. exact E.
    + injection E as <- <-. exact T.
Qed.

(** The loop ends before its fuel does, when it starts with more fuel than
    there are bytes to read. *)
Lemma parse_tokens_fuel (host : byte_order) (fuel : nat) :
  forall s r s',
    (remaining s < fuel)%nat ->
    parse_tokens host fuel s = Ret r s' -> r = Some tt.
Proof.
  induction fuel as [|fuel IH]; intros s r s' F E; [lia|]. cbn in E.
  apply bind_ret in E. destruct E as (more & s1 & T & E).
  apply parse_token_extends in T. destruct T as [_ T].
  destruct more.
  - eapply IH; [|exact E]. specialize (T eq_refl). lia.
  - injection E as <- <-. reflexivity.
Qed.

Lemma encode_total (host : byte_order) (name : list byte) (s : state) :
  encode host name s <> OutOfFuel.
Proof.
  unfold encode. destruct (write_bytes output_header s) as [[] s1| |];
    try discriminate.
  destruct (parse_tokens host _ _) as [[u|] s3| |] eqn:E; try discriminate.
  - destruct (option_header s3); [|discriminate].
    destruct (option_inc_var_name s3); discriminate.
  - apply parse_tokens_fuel in E; [discriminate|]. unfold remaining. cbn. lia.
Qed.

(** [main] always ends: the fuel of the token loop is never used up. *)
Lemma main_total (host : byte_order) (opts : list opt) (args : list (list byte))
    (input : list byte) :
  main host opts args input <> OutOfFuel.
Proof.
  unfold main. destruct (parse_options opts initial_state); [|discriminate].
  destruct args as [|name [|]]; try discriminate.
  destruct (read_bytes 16 _) as [[[] header] s1| |]; try discriminate.
  destruct (check_header header); [discriminate|]. apply encode_total.
Qed.

(** ** Runs of the program on given inputs *)

(** C6: [-42] becomes the integer token and the four bytes of the two's
    complement of -42; [3.5] becomes the float token and the four bytes of
    the binary32 number with sign 0, exponent field 128 and fraction
    0.75 * 2^23, which is 3.5; in [3.5.1] the second dot ends the number
    and is lexed as a dot token, followed by the integer token of 1. *)
Theorem number_literals (host : byte_order) :
  main host [] [in_x] (text_header ++ bytes_of_string "-42")
  = Success (output_header ++ host_bytes host 2 TOKEN_INTEGER
               ++ host_bytes host 4 (2 ^ 32 - 42))
  /\ main host [] [in_x] (text_header ++ bytes_of_string "3.5")
     = Success (output_header ++ host_bytes host 2 TOKEN_FLOAT
                  ++ host_bytes host 4 (0 * 2 ^ 31 + 128 * 2 ^ 23 + 6291456))
  /\ main host [] [in_x] (text_header ++ bytes_of_string "3.5.1")
     = Success (output_header ++ host_bytes host 2 TOKEN_FLOAT
                  ++ host_bytes host 4 (0 * 2 ^ 31 + 128 * 2 ^ 23 + 6291456)
                  ++ host_bytes host 2 TOKEN_DOT
                  ++ host_bytes host 2 TOKEN_INTEGER ++ host_bytes host 4 1).
Proof. destruct host; vm_compute; repeat split. Qed.

(** C1, at the failing input: 37 bytes after [<] whose last one is [!]
    and not [>] are taken for a GUID, and the GUID token is written; a
    literal cut short by the end of the input, and one that starts with a
    letter that is no hex digit, are the fatal errors that the claim says. *)
Theorem guid_without_closing_bracket (host : byte_order) :
  main host [] [in_x]
       (text_header ++ bytes_of_string "<01234567-89ab-cdef-0123-456789abcdef!")
  = Success (output_header ++ host_bytes host 2 TOKEN_GUID
               ++ host_bytes host 4 0x01234567
               ++ host_bytes host 2 0x89ab ++ host_bytes host 2 0xcdef
               ++ [x01; x23; x45; x67; x89; xab; xcd; xef])
  /\ main host [] [in_x]
          (text_header ++ bytes_of_string "<01234567-89ab-cdef-0123-456789abcde>")
     = Failure (FatalError TruncatedGuid 1)
  /\ main host [] [in_x]
          (text_header ++ bytes_of_string "<g1234567-89ab-cdef-0123-456789abcdef>")
     = Failure (FatalError InvalidGuid 1).
Proof. destruct host; vm_compute; repeat split. Qed.

(** C2, at the failing input: a [#] line of 600 characters that ends in a
    newline raises no error (and no token), while the error [line too
    long] is what a line of three characters gets when the input ends
    before a newline. *)
Theorem long_directive_line_accepted (host : byte_order) :
  main host [] [in_x] (text_header ++ x23 :: repeat x61 600 ++ [newline])
  = Success output_header
  /\ main host [] [in_x] (text_header ++ bytes_of_string "#abc")
     = Failure (FatalError LineTooLong 1).
Proof. destruct host; vm_compute; split; reflexivity. Qed.

(** C4, at the failing input: after the header, the code and the length
    of a string token the buffer holds 22 bytes of 32; for the 43 bytes of
    the string [write_bytes] grows it to 64, and copies up to byte 65. *)
Theorem string_after_header_overruns (host : byte_order) :
  main host [] [in_x] (text_header ++ x22 :: repeat x61 43 ++ [x22])
  = Crash BufferOverrun
  /\ grown_size 22 32 43 = 64
  /\ fits 16 16 [2; 4; 43] = false.
Proof. destruct host; vm_compute; repeat split. Qed.

(** ** The loops of the string and name rules, and chains of appends *)

Lemma fold_store (text : list byte) :
  forall acc, (length acc <= 511)%nat ->
              fold_left store text acc = firstn 511 (acc ++ text).
Proof.
  induction text as [|c text IH]; intros acc H; cbn [fold_left].
  - rewrite app_nil_r. symmetry. apply firstn_all2. exact H.
  - unfold store at 2.
    destruct (Z.ltb_spec (Z.of_nat (length acc) + 1) 512) as [L|L].
    + rewrite IH by (rewrite length_app; cbn; lia).
      rewrite <- app_assoc. reflexivity.
    + rewrite IH by exact H.
      assert (E : length acc = 511%nat) by lia.
      rewrite !firstn_app, E, Nat.sub_diag. reflexivity.
Qed.

Lemma while_read_from_until (stop : byte) (text rest : list byte) :
  ~ In stop text ->
  forall line acc, exists line',
    while_read_from (fun _ c => negb (Byte.eqb c stop)) store
                    (text ++ stop :: rest) line acc
    = (stop, fold_left store text acc, rest, line').
Proof.
  induction text as [|c text IH]; intros N line acc; cbn.
  - rewrite (proj2 (byte_eqb_eq stop stop) eq_refl). cbn. eexists. reflexivity.
  - rewrite (proj2 (byte_eqb_neq c stop)) by (intro; apply N; left; congruence).
    cbn. apply IH. intro. apply N. right. assumption.
Qed.

Lemma while_read_from_name (ident rest : list byte) :
  forallb name_char ident = true -> name_ends rest ->
  forall line acc, (length acc <= 511)%nat -> exists line',
    while_read_from
      (fun name c => (len name <? 512)
                     && (isalnum c || Byte.eqb c x5f || Byte.eqb c x2d))
      store (ident ++ rest) line acc
    = (match rest with [] => xff | c :: _ => c end,
       fold_left store ident acc, tl rest, line').
Proof.
  induction ident as [|c ident IH]; intros F E line acc L.
  - cbn [app fold_left]. destruct rest as [|c rest]; cbn.
    + eexists. reflexivity.
    + unfold name_ends, name_char in E. rewrite E, andb_false_r.
      eexists. reflexivity.
  - cbn in F. apply andb_true_iff in F. destruct F as [C F].
    cbn [app while_read_from fold_left]. unfold name_char in C. rewrite C.
    replace (len acc <? 512) with true
      by (symmetry; apply Z.ltb_lt; unfold len; lia).
    cbn [andb]. apply IH; [exact F|exact E|]. apply store_length, L.
Qed.

Lemma set_reader_same (s : state) : set_reader s (infile s) (line_no s) = s.
Proof. destruct s; reflexivity. Qed.

(** A name starts: [parse_token] reads its first character, gives it back
    and calls [parse_name]. *)
Lemma parse_token_name (host : byte_order) (s : state) (c : byte)
    (rest : list byte) :
  infile s = c :: rest -> name_start c = true ->
  parse_token host s = parse_name host s.
Proof.
  intros Hin Hc. destruct s. cbn in Hin. subst.
  destruct c; try discriminate Hc; reflexivity.
Qed.

(** A string starts: what [parse_token] does after the opening quote. *)
Lemma parse_token_string (host : byte_order) (s : state) (rest : list byte) :
  infile s = x22 :: rest ->
  parse_token host s
  = ('(c, buffer) <- while_read (fun _ c => negb (Byte.eqb c x22)) store [] ;;
     if negb (Byte.eqb c x22) then fatal_error UnterminatedString
     else write_word host TOKEN_STRING &&& write_dword host (len buffer)
            &&& write_bytes buffer) (set_reader s rest (line_no s)).
Proof.
  intros Hin. unfold parse_token, bind at 1, read_byte. rewrite Hin. reflexivity.
Qed.

Lemma write_bytes_frame (data : list byte) (s s' : state) (b : bool) :
  write_bytes data s = Ret b s' ->
  b = true
  /\ s' = set_output s (output_data s') (output_pos s') (output_size s').
Proof.
  unfold write_bytes. destruct (memcpy _ _ data); [|discriminate].
  intro E. injection E as <- <-. destruct (_ >? _); split; reflexivity.
Qed.

Lemma write_bytes_ret (data : list byte) (s s' : state) (b : bool) :
  buffer_inv s -> Z.of_nat (length data) < UINT_MOD ->
  write_bytes data s = Ret b s' ->
  buffer_inv s' /\ output_bytes s' = output_bytes s ++ data.
Proof.
  intros Inv Hdata E.
  destruct (Z.le_gt_cases
              (output_pos s + Z.of_nat (length data))
              (grown_size (output_pos s) (output_size s)
                          (Z.of_nat (length data)))) as [Fit|Over].
  - destruct (write_bytes_fits data s Inv Hdata Fit) as (s1 & E1 & I1 & B1 & _).
    rewrite E1 in E. injection E as <- <-. auto.
  - rewrite (write_bytes_overrun data s Inv Hdata) in E by lia. discriminate.
Qed.

(** The first of a chain of appends that all fit. *)
Lemma write_bytes_first (data : list byte) (sizes : list Z) (s : state) :
  buffer_inv s -> Z.of_nat (length data) < UINT_MOD ->
  fits (output_pos s) (output_size s) (Z.of_nat (length data) :: sizes) = true ->
  exists s',
    write_bytes data s = Ret true s'
    /\ buffer_inv s'
    /\ output_bytes s' = output_bytes s ++ data
    /\ fits (output_pos s') (output_size s') sizes = true
    /\ s' = set_output s (output_data s') (output_pos s') (output_size s').
Proof.
  intros Inv Hdata F. cbn [fits] in F. apply andb_true_iff in F.
  destruct F as [F1 F2]. apply Z.leb_le in F1.
  destruct (write_bytes_fits data s Inv Hdata F1)
    as (s' & E & I' & B & P & C & _).
  pose proof (proj2 (write_bytes_frame _ _ _ _ E)) as Fr.
  exists s'. repeat (split; [assumption|]). split; [|exact Fr].
  rewrite P, C. exact F2.
Qed.

(** Three appends that fit, as the rules for names and strings chain
    them: the token code, the length and the bytes. *)
Lemma write_three (d1 d2 d3 : list byte) (s : state) :
  buffer_inv s ->
  Z.of_nat (length d1) < UINT_MOD -> Z.of_nat (length d2) < UINT_MOD ->
  Z.of_nat (length d3) < UINT_MOD ->
  fits (output_pos s) (output_size s)
       [Z.of_nat (length d1); Z.of_nat (length d2); Z.of_nat (length d3)] = true ->
  exists s',
    (write_bytes d1 &&& write_bytes d2 &&& write_bytes d3) s = Ret true s'
    /\ buffer_inv s'
    /\ output_bytes s' = output_bytes s ++ d1 ++ d2 ++ d3
    /\ s' = set_output s (output_data s') (output_pos s') (output_size s').
Proof.
  intros Inv L1 L2 L3 F.
  destruct (write_bytes_first d1 _ s Inv L1 F) as (s1 & E1 & I1 & B1 & F1 & S1).
  destruct (write_bytes_first d2 _ s1 I1 L2 F1) as (s2 & E2 & I2 & B2 & F2 & S2).
  destruct (write_bytes_first d3 _ s2 I2 L3 F2) as (s3 & E3 & I3 & B3 & _ & S3).
  exists s3. unfold and_then, bind. rewrite E1, E2, E3.
  split; [reflexivity|]. split; [exact I3|]. split.
  - rewrite B3, B2, B1, <- !app_assoc. reflexivity.
  - rewrite S3, S2, S1. reflexivity.
Qed.

Lemma and_then_ret (a b : M bool) (s s'' : state) (r : bool) :
  (a &&& b) s = Ret r s'' ->
  exists x s', a s = Ret x s'
               /\ (if x then b s' = Ret r s'' else r = false /\ s'' = s').
Proof.
  unfold and_then. intro E. apply bind_ret in E.
  destruct E as (x & s' & E1 & E2). exists x, s'. split; [exact E1|].
  destruct x; [exact E2|]. injection E2 as <- <-. auto.
Qed.

(** ** The keyword table *)

Lemma tolower_zero (c : byte) : tolower c = 0 -> c = x00.
Proof. destruct c; vm_compute; congruence. Qed.

Lemma strcasecmp_same_word (a : list byte) :
  forall b, same_word a b -> strcasecmp a b = 0.
Proof.
  unfold same_word.
  induction a as [|x a IH]; intros [|y b] E; try discriminate; [reflexivity|].
  cbn in E. injection E as E1 E2. cbn. rewrite E1, Z.eqb_refl. apply IH, E2.
Qed.

Lemma strcasecmp_zero (a : list byte) :
  forall b, ~ In x00 a -> ~ In x00 b -> strcasecmp a b = 0 -> same_word a b.
Proof.
  unfold same_word.
  induction a as [|x a IH]; intros [|y b] Na Nb E; cbn in E.
  - reflexivity.
  - exfalso. apply Nb. left. apply tolower_zero. lia.
  - exfalso. apply Na. left. apply tolower_zero. lia.
  - destruct (Z.eqb_spec (tolower x) (tolower y)) as [T|T]; [|lia].
    cbn. rewrite T. f_equal.
    apply IH; [intro; apply Na; right; assumption
              |intro; apply Nb; right; assumption|exact E].
Qed.

(** Comparing with [a] or with a word that equals [a] up to case gives the
    same result. *)
Lemma strcasecmp_same_left (a : list byte) :
  forall a' b, same_word a a' -> strcasecmp a b = strcasecmp a' b.
Proof.
  unfold same_word.
  induction a as [|x a IH]; intros [|x' a'] b E; try discriminate;
    [reflexivity|].
  cbn in E. injection E as E1 E2.
  destruct b as [|y b]; cbn; rewrite E1; [reflexivity|].
  destruct (tolower x' =? tolower y); [apply IH, E2|reflexivity].
Qed.

Lemma bsearch_between_ext {A} (f g : A -> Z) (base : list A) :
  (forall p, f p = g p) ->
  forall fuel l u,
    bsearch_between fuel f base l u = bsearch_between fuel g base l u.
Proof.
  intros E. induction fuel as [|fuel IH]; intros l u; [reflexivity|].
  cbn [bsearch_between].
  destruct (l <? u)%nat; [|reflexivity].
  destruct (nth_error base ((l + u) / 2)) as [p|]; [|reflexivity].
  rewrite E, !IH. reflexivity.
Qed.

Lemma bsearch_between_sound {A} (f : A -> Z) (base : list A) :
  forall fuel l u p,
    bsearch_between fuel f base l u = Some p -> f p = 0 /\ In p base.
Proof.
  induction fuel as [|fuel IH]; intros l u p E; [discriminate|].
  cbn [bsearch_between] in E.
  destruct (l <? u)%nat; [|discriminate].
  destruct (nth_error base ((l + u) / 2)) as [q|] eqn:N; [|discriminate].
  destruct (Z.ltb_spec (f q) 0); [eapply IH; exact E|].
  destruct (Z.gtb_spec (f q) 0); [eapply IH; exact E|].
  injection E as <-. split; [lia|]. eapply nth_error_In. exact N.
Qed.

(** Bisection finds each of the fourteen words of the table. *)
Lemma bsearch_reserved_word (k : keyword) :
  In k reserved_words ->
  bsearch (fun k' => compare_names (word k) (word k')) reserved_words = Some k.
Proof.
  intro H. cbn in H.
  repeat (destruct H as [<-|H]; [reflexivity|]). contradiction.
Qed.

Lemma reserved_words_shape (k : keyword) :
  In k reserved_words -> ~ In x00 (word k) /\ (length (word k) <= 8)%nat.
Proof.
  intro H. cbn in H.
  repeat (destruct H as [<-|H];
          [split; [cbn; intuition discriminate|cbn; lia]|]).
  contradiction.
Qed.

Lemma name_char_not_nul (ident : list byte) :
  forallb name_char ident = true -> ~ In x00 ident.
Proof.
  intros F N. rewrite forallb_forall in F. apply F in N. discriminate.
Qed.

(** The word that equals the name up to case is found. *)
Lemma parse_keyword_found (host : byte_order) (name : list byte) (k : keyword) :
  In k reserved_words -> same_word name (word k) ->
  parse_keyword host name = write_word host (token k).
Proof.
  intros H E. unfold parse_keyword, bsearch.
  rewrite (bsearch_between_ext _ (fun k' => compare_names (word k) (word k')))
    by (intro p; apply strcasecmp_same_left, E).
  fold (bsearch (fun k' => compare_names (word k) (word k')) reserved_words).
  rewrite (bsearch_reserved_word k H). reflexivity.
Qed.

(** A name that equals no word of the table up to case is not found. *)
Lemma parse_keyword_not_found (host : byte_order) (name : list byte) :
  ~ In x00 name ->
  (forall k, In k reserved_words -> ~ same_word name (word k)) ->
  parse_keyword host name = ret false.
Proof.
  intros N H. unfold parse_keyword, bsearch.
  destruct (bsearch_between _ _ reserved_words _ _) as [k|] eqn:B;
    [|reflexivity].
  apply bsearch_between_sound in B. destruct B as [Z K].
  exfalso. apply (H k K).
  apply strcasecmp_zero; [exact N|apply reserved_words_shape, K|exact Z].
Qed.

Lemma same_word_length (a b : list byte) : same_word a b -> length a = length b.
Proof.
  unfold same_word. intro E. apply (f_equal (@length Z)) in E.
  rewrite !length_map in E. exact E.
Qed.

(** ** Names and keywords *)

Lemma parse_name_run (host : byte_order) (s : state) (ident rest : list byte) :
  infile s = ident ++ rest -> forallb name_char ident = true ->
  name_ends rest ->
  exists line,
    parse_name host s
    = (found <- parse_keyword host (firstn 511 ident) ;;
       if found then ret true
       else write_word host TOKEN_NAME
              &&& write_dword host (len (firstn 511 ident))
              &&& write_bytes (firstn 511 ident))
        (set_reader s (after_unread rest) line).
Proof.
  intros Hin F E.
  destruct (while_read_from_name ident rest F E (line_no s) [])
    as [line W]; [cbn; lia|].
  unfold parse_name, bind at 1, while_read. rewrite Hin, W.
  rewrite fold_store by (cbn; lia). cbn [app].
  unfold bind at 1, unread_byte. cbn [infile line_no set_reader].
  destruct rest as [|c rest]; cbn [tl after_unread].
  - cbn. eexists. reflexivity.
  - destruct (Byte.eqb c xff); eexists; reflexivity.
Qed.

(** C5, amended: for an identifier of at most 511 bytes, when the appends
    stay inside the allocation: an identifier that equals a reserved word
    up to the case of its letters yields the code of that word and
    nothing else; an identifier that equals none yields the name token,
    the 32-bit length and the bytes of the identifier.  The table has the
    fourteen words, [STRING] with the code of [LPSTR]. *)
Theorem names_and_keywords (host : byte_order) (s : state)
    (ident rest : list byte) :
  identifier ident -> name_ends rest -> (length ident <= 511)%nat ->
  infile s = ident ++ rest -> buffer_inv s ->
  (forall k,
      In k reserved_words -> same_word ident (word k) ->
      fits (output_pos s) (output_size s) [2] = true ->
      exists s',
        parse_token host s = Ret true s'
        /\ output_bytes s' = output_bytes s ++ host_bytes host 2 (token k)
        /\ infile s' = after_unread rest)
  /\ ((forall k, In k reserved_words -> ~ same_word ident (word k)) ->
      fits (output_pos s) (output_size s) [2; 4; len ident] = true ->
      exists s',
        parse_token host s = Ret true s'
        /\ output_bytes s'
           = output_bytes s ++ host_bytes host 2 TOKEN_NAME
               ++ host_bytes host 4 (len ident) ++ ident
        /\ infile s' = after_unread rest)
  /\ map (fun k => (word k, token k)) reserved_words
     = map (fun p => (bytes_of_string (fst p), snd p))
         [ ("ARRAY", TOKEN_ARRAY); ("CHAR", TOKEN_CHAR);
           ("CSTRING", TOKEN_CSTRING); ("DOUBLE", TOKEN_DOUBLE);
           ("DWORD", TOKEN_DWORD); ("FLOAT", TOKEN_FLOAT);
           ("SDWORD", TOKEN_SDWORD); ("STRING", TOKEN_LPSTR);
           ("SWORD", TOKEN_SWORD); ("TEMPLATE", TOKEN_TEMPLATE);
           ("UCHAR", TOKEN_UCHAR); ("UNICODE", TOKEN_UNICODE);
           ("VOID", TOKEN_VOID); ("WORD", TOKEN_WORD) ]%string.
Proof.
  intros [Hstart Hchars] Hend Hlen Hin Inv.
  destruct ident as [|c0 ident0] eqn:Hid; [contradiction|]. rewrite <- Hid in *.
  assert (T : parse_token host s = parse_name host s).
  { apply (parse_token_name host s c0 (ident0 ++ rest)); [|exact Hstart].
    rewrite Hin, Hid. reflexivity. }
  destruct (parse_name_run host s ident rest Hin Hchars Hend) as [line R].
  rewrite firstn_all2 in R by exact Hlen.
  rewrite T, R. clear T R.
  set (s1 := set_reader s (after_unread rest) line).
  assert (Inv1 : buffer_inv s1) by exact Inv.
  split; [|split; [|reflexivity]].
  - intros k K W F. rewrite (parse_keyword_found host ident k K W).
    unfold bind, write_word.
    destruct (write_bytes_first (host_bytes host 2 (token k)) [] s1 Inv1)
      as (s' & E & _ & B & _ & Fr).
    + rewrite host_bytes_length. apply uint_small. lia.
    + rewrite host_bytes_length. exact F.
    + exists s'. rewrite E. split; [reflexivity|]. split; [exact B|].
      rewrite Fr. reflexivity.
  - intros NK F.
    rewrite (parse_keyword_not_found host ident
               (name_char_not_nul ident Hchars) NK).
    unfold bind at 1, ret.
    destruct (write_three (host_bytes host 2 TOKEN_NAME)
                (host_bytes host 4 (len ident)) ident s1 Inv1)
      as (s' & E & _ & B & Fr).
    + rewrite host_bytes_length. apply uint_small. lia.
    + rewrite host_bytes_length. apply uint_small. lia.
    + apply uint_small. lia.
    + rewrite !host_bytes_length. exact F.
    + exists s'. split; [exact E|]. split; [exact B|].
      rewrite Fr. reflexivity.
Qed.

Lemma names_and_keywords_witness :
  (exists s',
      parse_token LittleEndian (midway (bytes_of_string "Template {"))
      = Ret true s'
      /\ output_bytes s'
         = output_bytes (midway (bytes_of_string "Template {"))
             ++ host_bytes LittleEndian 2 TOKEN_TEMPLATE
      /\ infile s' = bytes_of_string " {")
  /\ (exists s',
         parse_token LittleEndian (midway (bytes_of_string "MyMesh-1 {"))
         = Ret true s'
         /\ output_bytes s'
            = output_bytes (midway (bytes_of_string "MyMesh-1 {"))
                ++ host_bytes LittleEndian 2 TOKEN_NAME
                ++ host_bytes LittleEndian 4 8 ++ bytes_of_string "MyMesh-1"
         /\ infile s' = bytes_of_string " {").
Proof.
  split.
  - refine (proj1 (names_and_keywords LittleEndian
                     (midway (bytes_of_string "Template {"))
                     (bytes_of_string "Template") (bytes_of_string " {")
                     _ _ _ _ _)
                  (mkKeyword (bytes_of_string "TEMPLATE") TOKEN_TEMPLATE)
                  _ _ _).
    + split; reflexivity.
    + reflexivity.
    + cbn. lia.
    + reflexivity.
    + unfold buffer_inv. cbn. lia.
    + cbn. tauto.
    + reflexivity.
    + reflexivity.
  - refine (proj1 (proj2 (names_and_keywords LittleEndian
                     (midway (bytes_of_string "MyMesh-1 {"))
                     (bytes_of_string "MyMesh-1") (bytes_of_string " {")
                     _ _ _ _ _)) _ _).
    + split; reflexivity.
    + reflexivity.
    + cbn. lia.
    + reflexivity.
    + unfold buffer_inv. cbn. lia.
    + intros k K. cbn in K.
      repeat (destruct K as [<-|K]; [discriminate|]). contradiction.
    + reflexivity.
Defined.

(** C5, as stated, fails for an identifier of 512 bytes: the name token
    carries its first 511 bytes, not the identifier. *)
Lemma names_and_keywords_counterexample :
  identifier (repeat x61 512)
  /\ (forall k, In k reserved_words -> ~ same_word (repeat x61 512) (word k))
  /\ main LittleEndian [] [in_x]
          (text_header ++ repeat x7b 300 ++ repeat x61 512)
     = Success (output_header
                  ++ concat (repeat (host_bytes LittleEndian 2 TOKEN_OBRACE) 300)
                  ++ host_bytes LittleEndian 2 TOKEN_NAME
                  ++ host_bytes LittleEndian 4 511 ++ repeat x61 511)
  /\ main LittleEndian [] [in_x]
          (text_header ++ repeat x7b 300 ++ repeat x61 512)
     <> Success (output_header
                   ++ concat (repeat (host_bytes LittleEndian 2 TOKEN_OBRACE) 300)
                   ++ host_bytes LittleEndian 2 TOKEN_NAME
                   ++ host_bytes LittleEndian 4 512 ++ repeat x61 512).
Proof.
  split; [split; reflexivity|]. split.
  - intros k K W. apply same_word_length in W.
    apply reserved_words_shape in K. rewrite <- W, repeat_length in K. lia.
  - assert (R : main LittleEndian [] [in_x]
                     (text_header ++ repeat x7b 300 ++ repeat x61 512)
                = Success (output_header
                             ++ concat (repeat (host_bytes LittleEndian 2
                                                           TOKEN_OBRACE) 300)
                             ++ host_bytes LittleEndian 2 TOKEN_NAME
                             ++ host_bytes LittleEndian 4 511
                             ++ repeat x61 511))
      by (vm_compute; reflexivity).
    split; [exact R|]. rewrite R. intro E.
    apply (f_equal (fun r => match r with
                             | Success out => length out
                             | _ => 0%nat
                             end)) in E.
    vm_compute in E. discriminate.
Qed.

(** ** Strings and long names *)

Lemma in_firstn {A} (x : A) (n : nat) (l : list A) :
  In x (firstn n l) -> In x l.
Proof.
  intro H. rewrite <- (firstn_skipn n l). apply in_or_app. left. exact H.
Qed.

Lemma parse_string_run (host : byte_order) (s : state) (text rest : list byte) :
  ~ In x22 text -> infile s = x22 :: text ++ x22 :: rest ->
  exists line,
    parse_token host s
    = (write_word host TOKEN_STRING
         &&& write_dword host (len (firstn 511 text))
         &&& write_bytes (firstn 511 text)) (set_reader s rest line).
Proof.
  intros N Hin. rewrite (parse_token_string host s _ Hin).
  unfold bind at 1, while_read. cbn [infile line_no set_reader].
  destruct (while_read_from_until x22 text rest N (line_no s) []) as [line W].
  rewrite W, fold_store by (cbn; lia). cbn [app negb Byte.eqb].
  eexists. reflexivity.
Qed.

Lemma firstn_511_length (text : list byte) :
  (511 < length text)%nat -> length (firstn 511 text) = 511%nat.
Proof. intro H. rewrite length_firstn. lia. Qed.

(** C3, amended: for a string literal or a name of more than 511 bytes,
    when the appends stay inside the allocation, the token carries the
    first 511 bytes of the text and the 32-bit length 511; no error is
    raised. *)
Theorem long_text_truncated (host : byte_order) (s : state)
    (text rest : list byte) :
  buffer_inv s -> (511 < length text)%nat ->
  fits (output_pos s) (output_size s) [2; 4; 511] = true ->
  (~ In x22 text -> infile s = x22 :: text ++ x22 :: rest ->
   exists s',
     parse_token host s = Ret true s'
     /\ output_bytes s'
        = output_bytes s ++ host_bytes host 2 TOKEN_STRING
            ++ host_bytes host 4 511 ++ firstn 511 text
     /\ infile s' = rest)
  /\ (identifier text -> name_ends rest -> infile s = text ++ rest ->
      exists s',
        parse_token host s = Ret true s'
        /\ output_bytes s'
           = output_bytes s ++ host_bytes host 2 TOKEN_NAME
               ++ host_bytes host 4 511 ++ firstn 511 text
        /\ infile s' = after_unread rest).
Proof.
  intros Inv Hlen F.
  pose proof (firstn_511_length text Hlen) as L.
  assert (W : forall code s1,
             buffer_inv s1 ->
             output_pos s1 = output_pos s -> output_size s1 = output_size s ->
             exists s',
               (write_word host code &&& write_dword host (len (firstn 511 text))
                  &&& write_bytes (firstn 511 text)) s1 = Ret true s'
               /\ output_bytes s'
                  = output_bytes s1 ++ host_bytes host 2 code
                      ++ host_bytes host 4 511 ++ firstn 511 text
               /\ infile s' = infile s1).
  { intros code s1 Inv1 P1 C1. unfold len. rewrite L.
    destruct (write_three (host_bytes host 2 code)
                (host_bytes host 4 (Z.of_nat 511)) (firstn 511 text) s1 Inv1)
      as (s' & E & _ & B & Fr).
    - rewrite host_bytes_length. apply uint_small. lia.
    - rewrite host_bytes_length. apply uint_small. lia.
    - rewrite L. apply uint_small. lia.
    - rewrite !host_bytes_length, L, P1, C1. exact F.
    - exists s'. split; [exact E|]. split; [exact B|]. rewrite Fr. reflexivity. }
  split.
  - intros N Hin. destruct (parse_string_run host s text rest N Hin) as [line R].
    rewrite R. apply (W TOKEN_STRING (set_reader s rest line) Inv); reflexivity.
  - intros [Hstart Hchars] Hend Hin.
    destruct text as [|c0 text0] eqn:Htext; [contradiction|].
    rewrite <- Htext in *.
    assert (T : parse_token host s = parse_name host s).
    { apply (parse_token_name host s c0 (text0 ++ rest)); [|exact Hstart].
      rewrite Hin, Htext. reflexivity. }
    destruct (parse_name_run host s text rest Hin Hchars Hend) as [line R].
    rewrite T, R. clear T R.
    rewrite parse_keyword_not_found.
    + unfold bind at 1, ret.
      apply (W TOKEN_NAME (set_reader s (after_unread rest) line) Inv);
        reflexivity.
    + intro H. apply in_firstn in H.
      exact (name_char_not_nul text Hchars H).
    + intros k K Wd. apply same_word_length in Wd.
      apply reserved_words_shape in K. rewrite <- Wd, L in K. lia.
Qed.

Lemma long_text_truncated_witness :
  (exists s',
      parse_token LittleEndian
        (midway (x22 :: repeat x61 600 ++ x22 :: bytes_of_string " ;"))
      = Ret true s'
      /\ output_bytes s'
         = output_bytes (midway [])
             ++ host_bytes LittleEndian 2 TOKEN_STRING
             ++ host_bytes LittleEndian 4 511 ++ firstn 511 (repeat x61 600)
      /\ infile s' = bytes_of_string " ;")
  /\ (exists s',
         parse_token LittleEndian (midway (repeat x61 600 ++ bytes_of_string " ;"))
         = Ret true s'
         /\ output_bytes s'
            = output_bytes (midway [])
                ++ host_bytes LittleEndian 2 TOKEN_NAME
                ++ host_bytes LittleEndian 4 511 ++ firstn 511 (repeat x61 600)
         /\ infile s' = after_unread (bytes_of_string " ;")).
Proof.
  assert (I : forall input, buffer_inv (midway input))
    by (intro input; unfold buffer_inv; cbn; lia).
  assert (L : (511 < length (repeat x61 600))%nat)
    by (rewrite repeat_length; lia).
  split.
  - refine (proj1 (long_text_truncated LittleEndian
                     (midway (x22 :: repeat x61 600 ++ x22 :: bytes_of_string " ;"))
                     (repeat x61 600) (bytes_of_string " ;")
                     (I _) L eq_refl) _ eq_refl).
    intro H. apply repeat_spec in H. discriminate.
  - refine (proj2 (long_text_truncated LittleEndian
                     (midway (repeat x61 600 ++ bytes_of_string " ;"))
                     (repeat x61 600) (bytes_of_string " ;")
                     (I _) L eq_refl) _ _ eq_refl).
    + split; reflexivity.
    + reflexivity.
Defined.

(** C3, as stated, fails for a string of 513 bytes: the token carries 511
    bytes and the length 511, not 512. *)
Lemma long_text_truncated_counterexample :
  main LittleEndian [] [in_x]
       (text_header ++ repeat x7b 300 ++ x22 :: repeat x61 513 ++ [x22])
  = Success (output_header
               ++ concat (repeat (host_bytes LittleEndian 2 TOKEN_OBRACE) 300)
               ++ host_bytes LittleEndian 2 TOKEN_STRING
               ++ host_bytes LittleEndian 4 511 ++ repeat x61 511)
  /\ main LittleEndian [] [in_x]
          (text_header ++ repeat x7b 300 ++ x22 :: repeat x61 513 ++ [x22])
     <> Success (output_header
                   ++ concat (repeat (host_bytes LittleEndian 2 TOKEN_OBRACE) 300)
                   ++ host_bytes LittleEndian 2 TOKEN_STRING
                   ++ host_bytes LittleEndian 4 512 ++ repeat x61 512).
Proof.
  assert (R : main LittleEndian [] [in_x]
                 (text_header ++ repeat x7b 300
                    ++ x22 :: repeat x61 513 ++ [x22])
              = Success (output_header
                           ++ concat (repeat (host_bytes LittleEndian 2
                                                         TOKEN_OBRACE) 300)
                           ++ host_bytes LittleEndian 2 TOKEN_STRING
                           ++ host_bytes LittleEndian 4 511
                           ++ repeat x61 511))
    by (vm_compute; reflexivity).
  split; [exact R|]. rewrite R. intro E.
  apply (f_equal (fun r => match r with
                           | Success out => length out
                           | _ => 0%nat
                           end)) in E.
  vm_compute in E. discriminate.
Qed.

Lemma store_keeps (stop : byte) (buffer : list byte) (c : byte) :
  (~ In stop buffer /\ (length buffer <= 511)%nat) ->
  negb (Byte.eqb c stop) = true ->
  ~ In stop (store buffer c) /\ (length (store buffer c) <= 511)%nat.
Proof.
  intros [N L] C. split; [|apply store_length, L].
  unfold store. destruct (_ <? 512); [|exact N].
  intro H. apply in_app_or in H. destruct H as [H|[H|[]]]; [exact (N H)|].
  subst c. rewrite (proj2 (byte_eqb_eq stop stop) eq_refl) in C. discriminate.
Qed.

(** C9: after the opening quote, the first double quote ends the literal
    whatever the bytes before it are: the input goes on after it, and the
    bytes before it, a backslash like any other, are the payload (its
    first 511 bytes) of the string token; when the appends stay inside the
    allocation the token is written; and no run of the string rule writes
    a token whose payload has a double quote in it. *)
Theorem quote_always_ends_string (host : byte_order) (s : state) :
  (forall text rest,
      ~ In x22 text -> infile s = x22 :: text ++ x22 :: rest ->
      exists line,
        parse_token host s
        = (write_word host TOKEN_STRING
             &&& write_dword host (len (firstn 511 text))
             &&& write_bytes (firstn 511 text)) (set_reader s rest line))
  /\ (buffer_inv s ->
      (forall text rest,
          ~ In x22 text -> infile s = x22 :: text ++ x22 :: rest ->
          fits (output_pos s) (output_size s) [2; 4; len (firstn 511 text)]
          = true ->
          exists s',
            parse_token host s = Ret true s'
            /\ infile s' = rest
            /\ output_bytes s'
               = output_bytes s ++ host_bytes host 2 TOKEN_STRING
                   ++ host_bytes host 4 (len (firstn 511 text))
                   ++ firstn 511 text)
      /\ (forall input b s',
             infile s = x22 :: input -> parse_token host s = Ret b s' ->
             exists payload,
               output_bytes s'
               = output_bytes s ++ host_bytes host 2 TOKEN_STRING
                   ++ host_bytes host 4 (len payload) ++ payload
               /\ ~ In x22 payload)).
Proof.
  split; [intros text rest N Hin; exact (parse_string_run host s text rest N Hin)|].
  intro Inv. split.
  - intros text rest N Hin F.
    destruct (parse_string_run host s text rest N Hin) as [line R]. rewrite R.
    assert (L : (length (firstn 511 text) <= 511)%nat)
      by (rewrite length_firstn; lia).
    destruct (write_three (host_bytes host 2 TOKEN_STRING)
                (host_bytes host 4 (len (firstn 511 text))) (firstn 511 text)
                (set_reader s rest line) Inv)
      as (s' & E & _ & B & Fr).
    + rewrite host_bytes_length. apply uint_small. lia.
    + rewrite host_bytes_length. apply uint_small. lia.
    + apply uint_small. lia.
    + rewrite !host_bytes_length. exact F.
    + exists s'. split; [exact E|]. split; [rewrite Fr; reflexivity|exact B].
  - intros input b s' Hin E. rewrite (parse_token_string host s _ Hin) in E.
    apply bind_ret in E. destruct E as ([c buffer] & s1 & W & E).
    unfold while_read in W. cbn [infile line_no set_reader] in W.
    destruct (while_read_from _ store input (line_no s) [])
      as [[[c1 buffer1] inp1] line1] eqn:Loop.
    injection W as <- <- <-.
    assert (P0 : ~ In x22 [] /\ (length (@nil byte) <= 511)%nat)
      by (split; [intros []|cbn; lia]).
    destruct (while_read_from_kept _ store
                (fun buffer => ~ In x22 buffer /\ (length buffer <= 511)%nat)
                input (fun a c => store_keeps x22 a c)
                _ _ _ _ _ _ P0 Loop)
      as [N L].
    destruct (negb (Byte.eqb c1 x22)); [discriminate|].
    apply and_then_ret in E. destruct E as (x2 & s3 & E & E3).
    apply and_then_ret in E. destruct E as (x1 & s2 & E1 & E2).
    unfold write_word in E1. unfold write_dword in E2.
    pose proof (proj1 (write_bytes_frame _ _ _ _ E1)) as ->.
    pose proof (proj1 (write_bytes_frame _ _ _ _ E2)) as ->.
    apply write_bytes_ret in E1;
      [|exact Inv|rewrite host_bytes_length; apply uint_small; lia].
    destruct E1 as [I2 B2].
    apply write_bytes_ret in E2;
      [|exact I2|rewrite host_bytes_length; apply uint_small; lia].
    destruct E2 as [I3 B3].
    apply write_bytes_ret in E3; [|exact I3|apply uint_small; lia].
    destruct E3 as [_ B4].
    exists buffer1. split; [|exact N].
    rewrite B4, B3, B2, <- !app_assoc. reflexivity.
Qed.

Lemma quote_always_ends_string_witness :
  exists s',
    parse_token LittleEndian
      (midway (x22 :: [x61; x5c] ++ x22 :: bytes_of_string "b"))
    = Ret true s'
    /\ infile s' = bytes_of_string "b"
    /\ output_bytes s'
       = output_bytes (midway []) ++ host_bytes LittleEndian 2 TOKEN_STRING
           ++ host_bytes LittleEndian 4 2 ++ [x61; x5c].
Proof.
  refine (proj1 (proj2 (quote_always_ends_string LittleEndian
                          (midway (x22 :: [x61; x5c] ++ x22
                                     :: bytes_of_string "b"))) _)
                ([x61; x5c]) (bytes_of_string "b") _ eq_refl eq_refl).
  - unfold buffer_inv. cbn. lia.
  - cbn. intuition discriminate.
Defined.

(** C9, as stated, fails for a backslash that is the 512th byte of a
    string: the quote after it ends the literal, but the payload is the
    first 511 bytes, and the backslash is not stored. *)
Lemma quote_always_ends_string_counterexample :
  main LittleEndian [] [in_x]
       (text_header ++ repeat x7b 300
          ++ x22 :: repeat x61 511 ++ [x5c; x22])
  = Success (output_header
               ++ concat (repeat (host_bytes LittleEndian 2 TOKEN_OBRACE) 300)
               ++ host_bytes LittleEndian 2 TOKEN_STRING
               ++ host_bytes LittleEndian 4 511 ++ repeat x61 511)
  /\ ~ In x5c (repeat x61 511)
  /\ main LittleEndian [] [in_x]
          (text_header ++ repeat x7b 300
             ++ x22 :: repeat x61 511 ++ [x5c; x22])
     <> Success (output_header
                   ++ concat (repeat (host_bytes LittleEndian 2 TOKEN_OBRACE) 300)
                   ++ host_bytes LittleEndian 2 TOKEN_STRING
                   ++ host_bytes LittleEndian 4 512
                   ++ repeat x61 511 ++ [x5c]).
Proof.
  assert (R : main LittleEndian [] [in_x]
                 (text_header ++ repeat x7b 300
                    ++ x22 :: repeat x61 511 ++ [x5c; x22])
              = Success (output_header
                           ++ concat (repeat (host_bytes LittleEndian 2
                                                         TOKEN_OBRACE) 300)
                           ++ host_bytes LittleEndian 2 TOKEN_STRING
                           ++ host_bytes LittleEndian 4 511
                           ++ repeat x61 511))
    by (vm_compute; reflexivity).
  split; [exact R|]. split.
  - intro H. apply repeat_spec in H. discriminate.
  - rewrite R. intro E.
    apply (f_equal (fun r => match r with
                             | Success out => length out
                             | _ => 0%nat
                             end)) in E.
    vm_compute in E. discriminate.
Qed.

(** ** The whole run *)

Lemma parse_options_output (opts : list opt) :
  forall s s',
    parse_options opts s = Some s' ->
    output_data s' = output_data s /\ output_pos s' = output_pos s
    /\ output_size s' = output_size s.
Proof.
  induction opts as [|o opts IH]; intros s s' E; cbn in E.
  - injection E as <-. auto.
  - destruct o; try discriminate; apply IH in E; exact E.
Qed.

(** A successful run: how the final state [s] of the encoder relates to
    the state [s0] that the options gave, and what the output file is. *)
Lemma main_success (host : byte_order) (opts : list opt) (name input : list byte)
    (out : list byte) :
  main host opts [name] input = Success out ->
  exists s0 s,
    parse_options opts initial_state = Some s0
    /\ option_header s = option_header s0
    /\ (forall v, option_inc_var_name s0 = Some v ->
                  option_inc_var_name s = Some v)
    /\ (forall z, option_inc_size_name s0 = Some z ->
                  option_inc_size_name s = Some z)
    /\ firstn 16 (output_bytes s) = output_header
    /\ (if option_header s
        then exists v,
            option_inc_var_name s = Some v
            /\ out = c_header (if str_is name "-"
                               then bytes_of_string "stdin" else name) s v
        else out = write_raw_bytes s).
Proof.
  unfold main. destruct (parse_options opts initial_state) as [s0|] eqn:O;
    [|discriminate].
  unfold read_bytes.
  destruct (Nat.leb 16 _); [|discriminate].
  destruct (check_header _); [discriminate|].
  set (s2 := if str_is (option_outfile_name _) "-" then _ else _).
  assert (P2 : output_data s2 = [] /\ output_pos s2 = 0 /\ output_size s2 = 0
               /\ option_header s2 = option_header s0
               /\ option_inc_var_name s2 = option_inc_var_name s0
               /\ option_inc_size_name s2 = option_inc_size_name s0).
  { apply parse_options_output in O. cbn in O.
    subst s2. destruct (str_is _ "-"); cbn; intuition. }
  destruct P2 as (D2 & Q2 & C2 & H2 & V2 & Z2). clearbody s2.
  unfold encode.
  destruct (write_bytes output_header s2) as [[] s3| |] eqn:W; try discriminate.
  destruct (parse_tokens host _ _) as [[u|] s5| |] eqn:T; try discriminate.
  assert (I2 : buffer_inv s2).
  { unfold buffer_inv. rewrite D2, Q2, C2. change UINT_MOD with 4294967296.
    cbn. lia. }
  pose proof (proj2 (write_bytes_frame _ _ _ _ W)) as Fr.
  apply write_bytes_ret in W; [|exact I2|apply uint_small; cbn; lia].
  destruct W as [I3 B3].
  assert (B2 : output_bytes s2 = []).
  { unfold output_bytes. rewrite D2. apply firstn_nil. }
  rewrite B2 in B3. cbn [app] in B3.
  apply parse_tokens_extends in T.
  destruct T as [_ Tout Thdr _ Tvar Tsize _].
  destruct (Tout I3) as [w Bw].
  change (output_bytes (set_reader s3 (infile s3) 1)) with (output_bytes s3) in Bw.
  cbn [option_header option_inc_var_name option_inc_size_name set_reader]
    in Thdr, Tvar, Tsize.
  assert (H3 : option_header s3 = option_header s0
               /\ option_inc_var_name s3 = option_inc_var_name s0
               /\ option_inc_size_name s3 = option_inc_size_name s0).
  { rewrite Fr. cbn. auto. }
  destruct H3 as (H3 & V3 & Z3).
  intro E. exists s0, s5.
  split; [reflexivity|]. split; [congruence|].
  split; [intros v Hv; apply Tvar; congruence|].
  split; [intros z Hz; apply Tsize; congruence|].
  split; [rewrite Bw, B3; reflexivity|].
  destruct (option_header s5).
  - destruct (option_inc_var_name s5) as [v|]; [|discriminate].
    injection E as <-. exists v. split; reflexivity.
  - injection E as <-. reflexivity.
Qed.



(** The flag that gives the variable name also asks for a header. *)
Lemma parse_options_var_header (opts : list opt) :
  forall s s',
    (forall v, option_inc_var_name s = Some v -> option_header s = true) ->
    parse_options opts s = Some s' ->
    forall v, option_inc_var_name s' = Some v -> option_header s' = true.
Proof.
  induction opts as [|o opts IH]; intros s s' J E; cbn in E.
  - injection E as <-. exact J.
  - destruct o; try discriminate; (eapply IH; [|exact E]); cbn; auto.
Qed.

(** C10: a variable name given by a flag is the name of the array in the
    header that a successful run prints, whatever directives the input
    has, and likewise the name of the size macro given by its flag; for a
    single token: a name that is set stays as it is. *)
Theorem flag_names_take_precedence (host : byte_order) (opts : list opt)
    (name input : list byte) (s0 : state) (out : list byte) :
  parse_options opts initial_state = Some s0 ->
  main host opts [name] input = Success out ->
  (forall v,
      option_inc_var_name s0 = Some v ->
      exists s,
        out = c_header (if str_is name "-" then bytes_of_string "stdin"
                        else name) s v)
  /\ (forall z,
         option_inc_size_name s0 = Some z -> option_header s0 = true ->
         exists s v,
           out = c_header (if str_is name "-" then bytes_of_string "stdin"
                           else name) s v
           /\ option_inc_size_name s = Some z)
  /\ (forall s b s',
         parse_token host s = Ret b s' ->
         (forall v, option_inc_var_name s = Some v ->
                    option_inc_var_name s' = Some v)
         /\ (forall z, option_inc_size_name s = Some z ->
                       option_inc_size_name s' = Some z)).
Proof.
  intros O E. apply main_success in E.
  destruct E as (s0' & s & O' & H & V & Z & _ & E).
  rewrite O in O'. injection O' as <-.
  split; [|split].
  - intros v Hv.
    assert (Hh : option_header s0 = true).
    { apply (parse_options_var_header opts initial_state s0) with (v := v);
        [discriminate|exact O|exact Hv]. }
    rewrite H, Hh in E. destruct E as (v' & Hv' & E).
    rewrite (V v Hv) in Hv'. injection Hv' as <-. exists s. exact E.
  - intros z Hz Hh. rewrite H, Hh in E. destruct E as (v & _ & E).
    exists s, v. split; [exact E|]. apply Z, Hz.
  - intros s1 b s1' T. apply parse_token_extends in T. destruct T as [T _].
    split; [apply (ext_var _ _ T)|apply (ext_size _ _ T)].
Qed.

Lemma flag_names_take_precedence_witness :
  (exists s, flag_run_output = c_header in_x s (bytes_of_string "Flag"))
  /\ (exists s v,
         flag_run_output = c_header in_x s v
         /\ option_inc_size_name s = Some (bytes_of_string "SZ")).
Proof.
  assert (R : main LittleEndian flag_opts [in_x] pragma_input
              = Success flag_run_output) by (vm_compute; reflexivity).
  pose proof (flag_names_take_precedence LittleEndian flag_opts in_x
                pragma_input _ flag_run_output eq_refl R) as (A & B & _).
  split.
  - exact (A (bytes_of_string "Flag") eq_refl).
  - exact (B (bytes_of_string "SZ") eq_refl eq_refl).
Defined.

(** ** Further properties: reader and output buffer *)

(** X1: reading a byte and giving it back with [unread_byte] restores the
    reader, input and line number, for every byte but [xff]; the byte
    [xff] (which as a [char] is [EOF]) is not given back: it is lost, and
    the line number stays. *)
Theorem read_unread_round_trip (s : state) (c : byte) (rest : list byte) :
  infile s = c :: rest ->
  exists s1,
    read_byte s = Ret (true, c) s1
    /\ infile s1 = rest
    /\ (c <> xff -> unread_byte c s1 = Ret true s)
    /\ (c = xff ->
        exists s2, unread_byte c s1 = Ret false s2
                   /\ infile s2 = rest /\ line_no s2 = line_no s
                   /\ output_bytes s2 = output_bytes s).
Proof.
  intro Hin. unfold read_byte. rewrite Hin. eexists. split; [reflexivity|].
  split; [reflexivity|]. split.
  - intro N. unfold unread_byte. cbn [infile line_no set_reader].
    rewrite (proj2 (byte_eqb_neq c xff) N).
    destruct s. cbn in *. subst. unfold set_reader. cbn.
    destruct (Byte.eqb c newline); do 2 f_equal; lia.
  - intros ->. eexists. split; [reflexivity|]. cbn. auto.
Qed.

Lemma read_unread_round_trip_witness :
  exists s1,
    read_byte (midway (bytes_of_string "ab")) = Ret (true, x61) s1
    /\ infile s1 = bytes_of_string "b"
    /\ unread_byte x61 s1 = Ret true (midway (bytes_of_string "ab")).
Proof.
  destruct (read_unread_round_trip (midway (bytes_of_string "ab")) x61
              (bytes_of_string "b") eq_refl) as (s1 & R & I1 & U & _).
  exists s1. split; [exact R|]. split; [exact I1|].
  apply U. discriminate.
Defined.

Lemma write_bytes_alloc_granted (grants : Z -> bool) (data : list byte)
    (s : state) :
  grows (output_pos s) (output_size s) (Z.of_nat (length data))
  && negb (grants (grown_size (output_pos s) (output_size s)
                              (Z.of_nat (length data)))) = false ->
  write_bytes_alloc grants data s = write_bytes data s.
Proof.
  unfold write_bytes_alloc, write_bytes, copy_bytes, grows, grown_size.
  destruct (_ >? _); [|reflexivity].
  destruct (grants _); [reflexivity|discriminate].
Qed.

Lemma write_bytes_alloc_refused (grants : Z -> bool) (data : list byte)
    (s : state) :
  grows (output_pos s) (output_size s) (Z.of_nat (length data))
  && negb (grants (grown_size (output_pos s) (output_size s)
                              (Z.of_nat (length data)))) = true ->
  write_bytes_alloc grants data s
  = Ret false (set_output s [] (output_pos s)
                 (grown_size (output_pos s) (output_size s)
                             (Z.of_nat (length data)))).
Proof.
  unfold write_bytes_alloc, grows, grown_size.
  destruct (_ >? _); [|discriminate].
  destruct (grants _); [discriminate|reflexivity].
Qed.

(** X2: [write_bytes] returns [FALSE] exactly when the block has to grow
    and [realloc] refuses, and then leaves [output_size] raised and
    [output_data] [NULL].  Otherwise, with the invariant of the buffer, it
    appends the data after the bytes written so far, and keeps the
    invariant, exactly when the end of the copy is within the size it
    grows the block to; if not, it copies past the block.  An append that
    is no longer than the block (whose doubled size does not wrap around)
    is always within it. *)
Theorem write_bytes_in_bounds (grants : Z -> bool) (data : list byte)
    (s : state) :
  buffer_inv s -> Z.of_nat (length data) < UINT_MOD ->
  let size := Z.of_nat (length data) in
  let cap := grown_size (output_pos s) (output_size s) size in
  let refuses := grows (output_pos s) (output_size s) size && negb (grants cap) in
  (refuses = true ->
   write_bytes_alloc grants data s
   = Ret false (set_output s [] (output_pos s) cap))
  /\ (refuses = false -> output_pos s + size <= cap ->
      exists s',
        write_bytes_alloc grants data s = Ret true s'
        /\ buffer_inv s'
        /\ output_bytes s' = output_bytes s ++ data
        /\ output_size s' = cap
        /\ infile s' = infile s /\ line_no s' = line_no s)
  /\ (refuses = false -> cap < output_pos s + size ->
      write_bytes_alloc grants data s = Undefined BufferOverrun)
  /\ (size <= output_size s -> output_size s * 2 < UINT_MOD ->
      output_pos s + size <= cap).
Proof.
  intros Inv Hdata size cap refuses. split; [|split; [|split]].
  - apply write_bytes_alloc_refused.
  - intros G Fit. rewrite (write_bytes_alloc_granted grants data s G).
    destruct (write_bytes_fits data s Inv Hdata Fit)
      as (s' & E & I' & B & _ & C & _).
    exists s'. pose proof (proj2 (write_bytes_frame _ _ _ _ E)) as Fr.
    repeat (split; [assumption|]). rewrite Fr. split; reflexivity.
  - intros G Over. rewrite (write_bytes_alloc_granted grants data s G).
    apply write_bytes_overrun; assumption.
  - intros Small Double. destruct Inv as (P & _ & _).
    subst cap. unfold grown_size. fold size.
    change UINT_MOD with 4294967296 in *.
    assert (0 <= size) by (unfold size; lia).
    rewrite (Z.mod_small (output_pos s + size)) by lia.
    rewrite (Z.mod_small (output_size s * 2)) by lia.
    destruct (Z.gtb_spec (output_pos s + size) (output_size s)); lia.
Qed.

Lemma write_bytes_in_bounds_witness :
  (exists s',
      write_bytes_alloc (fun n => n <? 2048) (bytes_of_string "abcd") (midway [])
      = Ret true s'
      /\ buffer_inv s'
      /\ output_bytes s' = output_bytes (midway []) ++ bytes_of_string "abcd")
  /\ write_bytes_alloc (fun n => n <? 2048) (repeat x61 500) (midway [])
     = Ret false (set_output (midway []) [] 616 2048).
Proof.
  assert (Inv : buffer_inv (midway [])) by (unfold buffer_inv; cbn; lia).
  split.
  - assert (L : Z.of_nat (length (bytes_of_string "abcd")) < UINT_MOD)
      by (change UINT_MOD with 4294967296; cbn; lia).
    destruct (write_bytes_in_bounds (fun n => n <? 2048)
                (bytes_of_string "abcd") (midway []) Inv L)
      as (_ & Fit & _ & Small).
    destruct (Fit eq_refl
                  (Small ltac:(cbn; lia)
                         ltac:(change UINT_MOD with 4294967296; cbn; lia)))
      as (s' & E & I' & B & _).
    exists s'. auto.
  - assert (L : Z.of_nat (length (repeat x61 500)) < UINT_MOD)
      by (change UINT_MOD with 4294967296; rewrite repeat_length; lia).
    exact (proj1 (write_bytes_in_bounds (fun n => n <? 2048)
                    (repeat x61 500) (midway []) Inv L) eq_refl).
Defined.

(** ** Further properties: the token loop, with a [realloc] that can fail *)

Lemma keeps_refl (s : state) : keeps s s.
Proof. repeat split; reflexivity. Qed.

Lemma keeps_trans (s1 s2 s3 : state) : keeps s1 s2 -> keeps s2 s3 -> keeps s1 s3.
Proof.
  intros (H1 & F1 & R1) (H2 & F2 & R2).
  split; [congruence|]. split; [congruence|lia].
Qed.

Lemma extends_keeps (s s' : state) : extends s s' -> keeps s s'.
Proof. intros [_ _ H F _ _ R]. split; [exact H|]. split; [exact F|exact R]. Qed.

Lemma returns_keeps {A} (m : M A) (P : A -> Prop) :
  returns m P -> forall s a s', m s = Ret a s' -> keeps s s'.
Proof. intros R s a s' E. apply extends_keeps, (R s a s' E). Qed.

Lemma keeps_set_output (s : state) (block : list byte) (pos size : Z) :
  keeps s (set_output s block pos size).
Proof. repeat split; reflexivity. Qed.

Lemma write_bytes_alloc_ret (grants : Z -> bool) (data : list byte)
    (s s' : state) (b : bool) :
  write_bytes_alloc grants data s = Ret b s' ->
  keeps s s' /\ (b = false -> refused grants s').
Proof.
  unfold write_bytes_alloc, copy_bytes. intro E.
  destruct (_ >? _).
  - destruct (grants _) eqn:G.
    + destruct (memcpy _ _ data); [|discriminate]. injection E as <- <-.
      split; [|discriminate].
      eapply keeps_trans; apply keeps_set_output.
    + injection E as <- <-. split; [apply keeps_set_output|].
      intros _. split; [exact G|reflexivity].
  - destruct (memcpy _ _ data); [|discriminate]. injection E as <- <-.
    split; [apply keeps_set_output|discriminate].
Qed.

Lemma alloc_ret_true (grants : Z -> bool) : alloc_returns grants (ret true).
Proof.
  intros s b s' E. injection E as <- <-. split; [apply keeps_refl|discriminate].
Qed.

Lemma alloc_fatal_error (grants : Z -> bool) (e : fatal) :
  alloc_returns grants (fatal_error e).
Proof. intros s b s' E. discriminate. Qed.

Lemma alloc_write_bytes (grants : Z -> bool) (data : list byte) :
  alloc_returns grants (write_bytes_alloc grants data).
Proof.
  intros s b s' E. apply write_bytes_alloc_ret in E. destruct E as [K F].
  split; [exact K|]. intro B. right. exact (F B).
Qed.

Lemma alloc_and_then (grants : Z -> bool) (a b : M bool) :
  alloc_returns grants a -> alloc_returns grants b ->
  alloc_returns grants (a &&& b).
Proof.
  intros Ha Hb s r s'' E. apply and_then_ret in E.
  destruct E as (x & s' & E1 & E2). destruct (Ha _ _ _ E1) as [K1 F1].
  destruct x.
  - destruct (Hb _ _ _ E2) as [K2 F2].
    split; [exact (keeps_trans _ _ _ K1 K2)|exact F2].
  - destruct E2 as [-> ->]. split; [exact K1|exact F1].
Qed.

Lemma alloc_bind {A} (grants : Z -> bool) (m : M A) (k : A -> M bool) :
  (forall s a s', m s = Ret a s' -> keeps s s') ->
  (forall a, alloc_returns grants (k a)) ->
  alloc_returns grants (bind m k).
Proof.
  intros Hm Hk s b s'' E. apply bind_ret in E.
  destruct E as (a & s' & E1 & E2). destruct (Hk a _ _ _ E2) as [K F].
  split; [exact (keeps_trans _ _ _ (Hm _ _ _ E1) K)|exact F].
Qed.

(** The rule of a name once it is read: the keyword, or the name token. *)
Lemma alloc_parse_keyword (host : byte_order) (grants : Z -> bool)
    (name : list byte) :
  alloc_returns grants
    (bind (parse_keyword_alloc host grants name)
          (fun found =>
             if found then ret true
             else write_word_alloc host grants TOKEN_NAME
                    &&& write_dword_alloc host grants (len name)
                    &&& write_bytes_alloc grants name)).
Proof.
  apply alloc_bind.
  - intros s a s' E. unfold parse_keyword_alloc in E.
    destruct (bsearch _ reserved_words).
    + apply write_bytes_alloc_ret in E. apply E.
    + injection E as <- <-. apply keeps_refl.
  - intros [|]; [apply alloc_ret_true|].
    repeat apply alloc_and_then; apply alloc_write_bytes.
Qed.

Lemma parse_directive_true (buffer : list byte) (s s' : state) (b : bool) :
  parse_directive buffer s = Ret b s' -> b = true.
Proof.
  intro E. unfold parse_directive in E.
  repeat match type of E with
         | ret _ _ = _ => injection E as <- <-; reflexivity
         | (match strtok ?x with _ => _ end) _ = _ =>
             destruct (strtok x) as [[? ?]|]
         | (if ?x then _ else _) _ = _ => destruct x
         end.
  - destruct (strtok _) as [[? ?]|]; [destruct (option_inc_var_name s)|];
      injection E as <- <-; reflexivity.
  - destruct (strtok _) as [[? ?]|]; [destruct (option_inc_size_name s)|];
      injection E as <- <-; reflexivity.
Qed.

Lemma alloc_parse_directive (grants : Z -> bool) (buffer : list byte) :
  alloc_returns grants (parse_directive buffer).
Proof.
  intros s b s' E. split.
  - exact (returns_keeps _ _ (returns_parse_directive buffer) _ _ _ E).
  - intros ->. apply parse_directive_true in E. discriminate.
Qed.

Lemma while_read_from_stop {A} (stop : byte) (body : A -> byte -> A)
    (inp : list byte) :
  forall line a c a' inp' line',
    while_read_from (fun _ c => negb (Byte.eqb c stop)) body inp line a
    = (c, a', inp', line') ->
    c = stop \/ inp' = [].
Proof.
  induction inp as [|c0 rest IH]; intros line a c a' inp' line' E; cbn in E.
  - injection E as <- <- <- <-. right. reflexivity.
  - destruct (Byte.eqb c0 stop) eqn:S; cbn in E.
    + injection E as <- <- <- <-. left. apply byte_eqb_eq, S.
    + eapply IH. exact E.
Qed.

(** A comment returns [FALSE] when the end of the input cuts it. *)
Lemma alloc_comment (grants : Z -> bool) :
  alloc_returns grants
    ('(c, _) <- while_read (fun _ c => negb (Byte.eqb c newline))
                           (fun (u : unit) _ => u) tt ;;
     ret (Byte.eqb c newline)).
Proof.
  intros s b s'' E. apply bind_ret in E.
  destruct E as ([c u] & s' & W & E). injection E as <- <-.
  split.
  - exact (returns_keeps _ _
             (returns_while_read _ _ (fun _ : unit => True) tt
                                 (fun _ _ _ => I) I) _ _ _ W).
  - intro B. left. unfold while_read in W.
    destruct (while_read_from _ _ (infile s) (line_no s) tt)
      as [[[c1 u1] inp1] line1] eqn:L.
    injection W as <- <- <-.
    apply while_read_from_stop in L. destruct L as [-> | ->].
    + rewrite (proj2 (byte_eqb_eq newline newline) eq_refl) in B. discriminate.
    + reflexivity.
Qed.

Ltac alloc_auto :=
  repeat first
    [ apply alloc_ret_true
    | apply alloc_fatal_error
    | apply alloc_write_bytes
    | apply alloc_parse_directive
    | apply alloc_comment
    | apply alloc_parse_keyword
    | apply alloc_and_then
    | apply alloc_bind;
      [first
         [ exact (returns_keeps _ _ returns_read_byte)
         | exact (returns_keeps _ _ (returns_read_bytes _))
         | exact (returns_keeps _ _
                    (returns_while_read _ _ (fun _ => True) _
                                        (fun _ _ _ => I) I)) ]
      |intros]
    | match goal with
      | |- alloc_returns _ (match ?x with (_, _) => _ end) => destruct x
      | |- alloc_returns _ (if ?x then _ else _) => destruct x
      | |- alloc_returns _ (match ?x with
                            | Converted _ _ => _
                            | MatchingFailure => _
                            | InputFailure => _
                            end) => destruct x
      | |- alloc_returns _ (fun _ => Undefined _) =>
          let E := fresh in intros ? ? ? E; discriminate E
      end ].

Lemma alloc_parse_guid (host : byte_order) (grants : Z -> bool) :
  alloc_returns grants (parse_guid_alloc host grants).
Proof. unfold parse_guid_alloc, write_word_alloc. alloc_auto. Qed.

Lemma parse_number_alloc_returns (host : byte_order) (grants : Z -> bool)
    (s s' : state) (b : bool) :
  parse_number_alloc host grants s = Ret b s' ->
  keeps s s' /\ (b = false -> infile s' = [] \/ refused grants s')
  /\ (forall c0 r, infile s = c0 :: r -> isdigit c0 || Byte.eqb c0 x2d = true ->
                   (remaining s' < remaining s)%nat).
Proof.
  intro E. unfold parse_number_alloc in E.
  apply bind_ret in E. destruct E as ([c [buffer dot]] & s1 & W & E).
  apply bind_ret in E. destruct E as (u & s2 & U & E).
  destruct (while_read_unread _ _ (fun _ => True) _ (fun _ _ _ => I) I
              _ _ _ _ _ _ W U) as (X & _ & L).
  apply extends_keeps in X.
  assert (T : keeps s2 s' /\ (b = false -> infile s' = [] \/ refused grants s')).
  { refine ((_ : alloc_returns grants _) _ _ _ E).
    unfold write_word_alloc, write_dword_alloc. alloc_auto. }
  destruct T as [T F].
  split; [exact (keeps_trans _ _ _ X T)|]. split; [exact F|].
  intros c0 r I0 C0. destruct T as (_ & _ & T).
  enough (remaining s2 < remaining s)%nat by lia.
  apply (L c0 r I0). cbn.
  destruct (isdigit c0), (Byte.eqb c0 x2d), (Byte.eqb c0 x2e);
    try reflexivity; discriminate.
Qed.

Lemma parse_name_alloc_returns (host : byte_order) (grants : Z -> bool)
    (s s' : state) (b : bool) :
  parse_name_alloc host grants s = Ret b s' ->
  keeps s s' /\ (b = false -> infile s' = [] \/ refused grants s')
  /\ (forall c0 r, infile s = c0 :: r -> isalpha c0 || Byte.eqb c0 x5f = true ->
                   (remaining s' < remaining s)%nat).
Proof.
  intro E. unfold parse_name_alloc in E.
  apply bind_ret in E. destruct E as ([c name] & s1 & W & E).
  apply bind_ret in E. destruct E as (u & s2 & U & E).
  destruct (while_read_unread _ _ (fun _ => True) [] (fun _ _ _ => I) I
              _ _ _ _ _ _ W U) as (X & _ & L).
  apply extends_keeps in X.
  destruct (alloc_parse_keyword host grants name _ _ _ E) as [T F].
  split; [exact (keeps_trans _ _ _ X T)|]. split; [exact F|].
  intros c0 r I0 C0. destruct T as (_ & _ & T).
  enough (remaining s2 < remaining s)%nat by lia.
  apply (L c0 r I0).
  change ((isalpha c0 || isdigit c0 || Byte.eqb c0 x5f || Byte.eqb c0 x2d)
          = true).
  destruct (isalpha c0), (isdigit c0), (Byte.eqb c0 x5f), (Byte.eqb c0 x2d);
    try reflexivity; discriminate.
Qed.

Lemma default_alloc (host : byte_order) (grants : Z -> bool) (c : byte)
    (s : state) (rest : list byte) (line : Z) (b : bool) (s' : state) :
  infile s = c :: rest ->
  (_ <- unread_byte c ;;
   if isdigit c || Byte.eqb c x2d then parse_number_alloc host grants
   else if isalpha c || Byte.eqb c x5f then parse_name_alloc host grants
   else fatal_error (InvalidCharacter c)) (set_reader s rest line)
  = Ret b s' ->
  keeps s s' /\ (remaining s' < remaining s)%nat
  /\ (b = false -> infile s' = [] \/ refused grants s').
Proof.
  intros Hin E. apply bind_ret in E. destruct E as (u & s2 & U & E).
  apply unread_byte_ret in U. destruct U as [line2 U]. cbn in U.
  assert (C : (isdigit c || Byte.eqb c x2d) || (isalpha c || Byte.eqb c x5f)
              = true).
  { destruct (isdigit c || Byte.eqb c x2d); [reflexivity|].
    destruct (isalpha c || Byte.eqb c x5f); [reflexivity|discriminate]. }
  assert (F : Byte.eqb c xff = false).
  { destruct (Byte.eqb c xff) eqn:F; [|reflexivity].
    apply byte_eqb_eq in F. subst c. discriminate. }
  rewrite F in U.
  assert (I2 : infile s2 = c :: rest) by (subst s2; reflexivity).
  assert (X : keeps s s2).
  { subst s2. split; [reflexivity|]. split; [reflexivity|].
    unfold remaining. cbn. rewrite Hin. cbn. lia. }
  assert (R2 : remaining s2 = remaining s)
    by (unfold remaining; rewrite I2, Hin; reflexivity).
  destruct (isdigit c || Byte.eqb c x2d) eqn:D.
  - apply parse_number_alloc_returns in E. destruct E as (T & Fa & L).
    split; [exact (keeps_trans _ _ _ X T)|]. split; [|exact Fa].
    rewrite <- R2. apply (L c rest I2 D).
  - cbn in C. rewrite C in E.
    apply parse_name_alloc_returns in E. destruct E as (T & Fa & L).
    split; [exact (keeps_trans _ _ _ X T)|]. split; [|exact Fa].
    rewrite <- R2. apply (L c rest I2 C).
Qed.

Lemma parse_token_alloc_returns (host : byte_order) (grants : Z -> bool)
    (s s' : state) (b : bool) :
  parse_token_alloc host grants s = Ret b s' ->
  keeps s s'
  /\ (b = true -> (remaining s' < remaining s)%nat)
  /\ (b = false -> infile s' = [] \/ refused grants s').
Proof.
  intro E. unfold parse_token_alloc in E.
  apply bind_ret in E. destruct E as ([ok c] & s1 & R & E).
  unfold read_byte in R. destruct (infile s) as [|c0 rest] eqn:Hin;
    injection R as <- <- <-.
  - injection E as <- <-. split; [apply keeps_refl|].
    split; [discriminate|]. intros _. left. exact Hin.
  - set (line := if Byte.eqb c0 newline then _ else _) in E.
    assert (X : keeps s (set_reader s rest line)).
    { split; [reflexivity|]. split; [reflexivity|].
      unfold remaining. cbn. rewrite Hin. cbn. lia. }
    assert (L : (remaining (set_reader s rest line) < remaining s)%nat).
    { unfold remaining. cbn. rewrite Hin. cbn. lia. }
    enough (T : (keeps s s' /\ (remaining s' < remaining s)%nat
                 /\ (b = false -> infile s' = [] \/ refused grants s'))
                \/ (keeps (set_reader s rest line) s'
                    /\ (b = false -> infile s' = [] \/ refused grants s'))).
    { destruct T as [(T1 & T2 & T3)|[T1 T3]].
      - split; [exact T1|]. split; [intros _; exact T2|exact T3].
      - split; [exact (keeps_trans _ _ _ X T1)|]. split; [|exact T3].
        intros _. destruct T1 as (_ & _ & T1). lia. }
    clearbody line. clear X L.
    destruct c0; cbv beta iota delta [negb] in E;
      first
        [ left; exact (default_alloc host grants _ s rest line b s' Hin E)
        | right;
          refine ((_ : alloc_returns grants _) _ _ _ E);
          unfold write_word_alloc, write_dword_alloc;
          repeat first [ apply alloc_parse_guid | progress alloc_auto ] ].
Qed.


(** *** With every request granted, the encoder is the one without failure *)




Section Granted.

Variable host : byte_order.
Variable grants : Z -> bool.
Hypothesis granted : forall n, grants n = true.









End Granted.

(** X3: whatever [realloc] does, a call of [parse_token] that returns
    [TRUE] has taken at least one byte of input, and one that returns
    [FALSE] has reached the end of the input or has had a request
    refused, which leaves [output_data] [NULL]; so the token loop, started
    with more fuel than there are bytes, ends by itself, and when it ends
    without an error, either the whole input has been read or [realloc]
    has refused. *)
Theorem token_loop_progress (host : byte_order) (grants : Z -> bool) :
  (forall s b s',
      parse_token_alloc host grants s = Ret b s' ->
      (b = true -> (remaining s' < remaining s)%nat)
      /\ (b = false -> infile s' = [] \/ refused grants s'))
  /\ (forall fuel s r s',
         (remaining s < fuel)%nat ->
         parse_tokens_alloc host grants fuel s = Ret r s' ->
         r = Some tt /\ (infile s' = [] \/ refused grants s')).
Proof.
  assert (T : forall s b s',
             parse_token_alloc host grants s = Ret b s' ->
             (b = true -> (remaining s' < remaining s)%nat)
             /\ (b = false -> infile s' = [] \/ refused grants s')).
  { intros s b s' E. apply (parse_token_alloc_returns host grants s s' b E). }
  split; [exact T|].
  induction fuel as [|fuel IH]; intros s r s' F E; [lia|]. cbn in E.
  apply bind_ret in E. destruct E as (more & s1 & P & E).
  apply T in P. destruct P as [P1 P2]. destruct more.
  - eapply IH; [|exact E]. specialize (P1 eq_refl). lia.
  - injection E as <- <-. split; [reflexivity|apply P2; reflexivity].
Qed.

Lemma token_loop_progress_witness :
  exists s',
    parse_tokens_alloc LittleEndian (fun n => n <? 2048) 400
                       (midway (repeat x7b 300))
    = Ret (Some tt) s'
    /\ (infile s' = [] \/ refused (fun n => n <? 2048) s')
    /\ length (infile s') = 95%nat.
Proof.
  destruct (parse_tokens_alloc LittleEndian (fun n => n <? 2048) 400
                               (midway (repeat x7b 300)))
    as [r s'| |] eqn:E; [|vm_compute in E; discriminate..].
  destruct (proj2 (token_loop_progress LittleEndian (fun n => n <? 2048))
                  400%nat (midway (repeat x7b 300)) r s'
                  ltac:(unfold remaining; cbn; lia) E) as [-> R].
  exists s'. split; [reflexivity|]. split; [exact R|].
  vm_compute in E. injection E as <-. reflexivity.
Defined.



(** ** Further properties: punctuation, comments and lexical errors *)

Lemma newlines_cons (c : byte) (text : list byte) :
  newlines (c :: text)
  = (if Byte.eqb c newline then 1 else 0) + newlines text.
Proof.
  unfold newlines. cbn [filter].
  destruct (Byte.eqb c newline) eqn:E.
  - apply byte_eqb_eq in E. subst c.
    rewrite (proj2 (byte_eqb_eq newline newline) eq_refl). cbn [length]. lia.
  - replace (Byte.eqb newline c) with false
      by (symmetry; apply byte_eqb_neq; apply byte_eqb_neq in E; congruence).
    lia.
Qed.

Lemma newlines_nil : newlines [] = 0.
Proof. reflexivity. Qed.

Lemma newlines_app (a b : list byte) : newlines (a ++ b) = newlines a + newlines b.
Proof.
  unfold newlines. rewrite filter_app, length_app. lia.
Qed.

(** The loop that reads up to a character [stop], with the line count. *)
Lemma while_read_from_until_line {A} (stop : byte) (body : A -> byte -> A)
    (text : list byte) :
  ~ In stop text ->
  forall line acc,
    (forall rest,
        while_read_from (fun _ c => negb (Byte.eqb c stop)) body
                        (text ++ stop :: rest) line acc
        = (stop, fold_left body text acc, rest,
           line + newlines (text ++ [stop])))
    /\ while_read_from (fun _ c => negb (Byte.eqb c stop)) body text line acc
       = (xff, fold_left body text acc, [], line + newlines text).
Proof.
  induction text as [|c text IH]; intros N line acc.
  - split.
    + intro rest. cbn [app while_read_from fold_left].
      rewrite (proj2 (byte_eqb_eq stop stop) eq_refl). cbn [negb].
      rewrite newlines_cons, newlines_nil.
      destruct (Byte.eqb stop newline); (apply f_equal2; [reflexivity|lia]).
    + cbn [while_read_from fold_left]. rewrite newlines_nil, Z.add_0_r.
      reflexivity.
  - assert (C : Byte.eqb c stop = false)
      by (apply byte_eqb_neq; intro; apply N; left; congruence).
    assert (N' : ~ In stop text) by (intro; apply N; right; assumption).
    split.
    + intro rest. cbn [app while_read_from fold_left]. rewrite C. cbn [negb].
      rewrite (proj1 (IH N' _ _)), newlines_cons.
      destruct (Byte.eqb c newline); (apply f_equal2; [reflexivity|lia]).
    + cbn [while_read_from fold_left]. rewrite C. cbn [negb].
      rewrite (proj2 (IH N' _ _)), newlines_cons.
      destruct (Byte.eqb c newline); (apply f_equal2; [reflexivity|lia]).
Qed.

Lemma fold_left_unit (text : list byte) :
  fold_left (fun (u : unit) (_ : byte) => u) text tt = tt.
Proof. induction text; [reflexivity|assumption]. Qed.

(** X5: each of the nine punctuation characters yields its own token code
    and nothing else, and takes one byte of input; different characters
    have different codes. *)
Theorem punctuation_token (host : byte_order) (s : state) (c : byte) (code : Z)
    (rest : list byte) :
  punctuation_code c = Some code ->
  (forall c', punctuation_code c' = Some code -> c' = c)
  /\ (infile s = c :: rest -> buffer_inv s ->
      fits (output_pos s) (output_size s) [2] = true ->
      exists s',
        parse_token host s = Ret true s'
        /\ output_bytes s' = output_bytes s ++ host_bytes host 2 code
        /\ infile s' = rest /\ line_no s' = line_no s).
Proof.
  intro P. split.
  - intros c' P'.
    destruct c; try discriminate P; injection P as <-;
      destruct c'; try discriminate P'; reflexivity.
  - intros Hin Inv F.
    assert (E : parse_token host s
                = write_word host code (set_reader s rest (line_no s))).
    { unfold parse_token, bind at 1, read_byte. rewrite Hin.
      destruct c; try discriminate P; injection P as <-; reflexivity. }
    rewrite E. unfold write_word.
    destruct (write_bytes_first (host_bytes host 2 code) []
                (set_reader s rest (line_no s)) Inv)
      as (s' & W & _ & B & _ & Fr).
    + rewrite host_bytes_length. apply uint_small. lia.
    + rewrite host_bytes_length. exact F.
    + exists s'. split; [exact W|]. split; [exact B|].
      rewrite Fr. split; reflexivity.
Qed.

Lemma punctuation_token_witness :
  exists s',
    parse_token LittleEndian (midway (bytes_of_string ";}")) = Ret true s'
    /\ output_bytes s'
       = output_bytes (midway []) ++ host_bytes LittleEndian 2 TOKEN_SEMICOLON
    /\ infile s' = bytes_of_string "}" /\ line_no s' = 1.
Proof.
  refine (proj2 (punctuation_token LittleEndian
                   (midway (bytes_of_string ";}")) x3b TOKEN_SEMICOLON
                   (bytes_of_string "}") eq_refl) eq_refl _ eq_refl).
  unfold buffer_inv. cbn. lia.
Defined.

Lemma parse_token_comment (host : byte_order) (s : state) (rest : list byte) :
  infile s = x2f :: x2f :: rest ->
  parse_token host s
  = ('(c, _) <- while_read (fun _ c => negb (Byte.eqb c newline))
                           (fun (u : unit) _ => u) tt ;;
     ret (Byte.eqb c newline)) (set_reader s rest (line_no s)).
Proof.
  intros Hin. unfold parse_token, bind at 1, read_byte. rewrite Hin. reflexivity.
Qed.

Lemma parse_token_slash (host : byte_order) (s : state) (c : byte)
    (rest : list byte) :
  infile s = x2f :: c :: rest -> c <> x2f ->
  parse_token host s
  = Fatal InvalidSlash (if Byte.eqb c newline then line_no s + 1 else line_no s).
Proof.
  intros Hin C. unfold parse_token, bind at 1, read_byte. rewrite Hin.
  cbv beta iota delta [negb]. unfold bind at 1, read_byte.
  cbn [infile line_no set_reader].
  rewrite (proj2 (byte_eqb_neq c x2f) C). reflexivity.
Qed.

(** X6: a comment is dropped up to and with the newline that ends it,
    writing nothing; a comment that the end of the input cuts makes
    [parse_token] return [FALSE] with no error, which ends the run; a
    slash that no second slash follows is a fatal error. *)
Theorem comment_dropped (host : byte_order) (s : state) (text : list byte) :
  ~ In newline text ->
  (forall rest,
      infile s = x2f :: x2f :: text ++ newline :: rest ->
      parse_token host s = Ret true (set_reader s rest (line_no s + 1)))
  /\ (infile s = x2f :: x2f :: text ->
      parse_token host s = Ret false (set_reader s [] (line_no s)))
  /\ (forall c rest,
         infile s = x2f :: c :: rest -> c <> x2f ->
         parse_token host s
         = Fatal InvalidSlash (line_no s + newlines [c]))
  /\ (infile s = [x2f] -> parse_token host s = Fatal InvalidSlash (line_no s)).
Proof.
  intro N.
  assert (Z0 : newlines text = 0).
  { unfold newlines. induction text as [|c text IH]; [reflexivity|].
    cbn [filter].
    replace (Byte.eqb newline c) with false
      by (symmetry; apply byte_eqb_neq; intro; apply N; left; congruence).
    apply IH. intro. apply N. right. assumption. }
  split; [|split; [|split]].
  - intros rest Hin. rewrite (parse_token_comment host s _ Hin).
    unfold bind, while_read. cbn [infile line_no set_reader].
    rewrite (proj1 (while_read_from_until_line newline _ text N _ _)).
    rewrite newlines_app, Z0. reflexivity.
  - intros Hin. rewrite (parse_token_comment host s _ Hin).
    unfold bind, while_read. cbn [infile line_no set_reader].
    rewrite (proj2 (while_read_from_until_line newline _ text N _ _)).
    rewrite Z0, Z.add_0_r. reflexivity.
  - intros c rest Hin C. rewrite (parse_token_slash host s c rest Hin C).
    rewrite newlines_cons, newlines_nil.
    destruct (Byte.eqb c newline); f_equal; lia.
  - intros Hin.
    unfold parse_token, bind at 1, read_byte. rewrite Hin. reflexivity.
Qed.

Lemma comment_dropped_witness :
  parse_token LittleEndian
    (midway (bytes_of_string "// note" ++ newline :: bytes_of_string "{"))
  = Ret true (set_reader (midway []) (bytes_of_string "{") 2).
Proof.
  refine (proj1 (comment_dropped LittleEndian
                   (midway (bytes_of_string "// note" ++ newline
                              :: bytes_of_string "{"))
                   (bytes_of_string " note") _)
                (bytes_of_string "{") eq_refl).
  cbn. intuition discriminate.
Defined.

(** X7: a string that no double quote closes before the end of the input
    is a fatal error, whatever the state and the text; the line of the
    error counts the newlines of the text. *)
Theorem unterminated_string (host : byte_order) (s : state) (text : list byte) :
  ~ In x22 text -> infile s = x22 :: text ->
  parse_token host s = Fatal UnterminatedString (line_no s + newlines text).
Proof.
  intros N Hin. rewrite (parse_token_string host s _ Hin).
  unfold bind, while_read. cbn [infile line_no set_reader].
  rewrite (proj2 (while_read_from_until_line x22 store text N _ _)).
  reflexivity.
Qed.

Lemma unterminated_string_witness :
  parse_token LittleEndian
    (midway (x22 :: bytes_of_string "abc" ++ [newline]))
  = Fatal UnterminatedString 2.
Proof.
  refine (unterminated_string LittleEndian
            (midway (x22 :: bytes_of_string "abc" ++ [newline]))
            (bytes_of_string "abc" ++ [newline]) _ eq_refl).
  cbn. intuition discriminate.
Defined.

(** X8: a byte that is no blank, no punctuation, no slash, hash, opening
    angle bracket or double quote, no digit, no minus sign, no letter and
    no underscore cannot start a token: it is a fatal error that names the
    byte, at the current line. *)
Theorem invalid_start_character (host : byte_order) (s : state) (c : byte)
    (rest : list byte) :
  infile s = c :: rest -> token_start c = false ->
  parse_token host s = Fatal (InvalidCharacter c) (line_no s).
Proof.
  intros Hin T. destruct s. cbn in Hin. subst.
  destruct c; try discriminate T; reflexivity.
Qed.

Lemma invalid_start_character_witness :
  parse_token LittleEndian (midway (bytes_of_string ">x"))
  = Fatal (InvalidCharacter x3e) 1.
Proof.
  exact (invalid_start_character LittleEndian (midway (bytes_of_string ">x"))
           x3e (bytes_of_string "x") eq_refl eq_refl).
Defined.

(** X9: after [<], fewer than 37 bytes of input are a fatal error,
    whatever they are. *)
Theorem truncated_guid (host : byte_order) (s : state) (input : list byte) :
  infile s = x3c :: input -> (length input < 37)%nat ->
  parse_token host s = Fatal TruncatedGuid (line_no s).
Proof.
  intros Hin L. unfold parse_token, bind at 1, read_byte. rewrite Hin.
  cbv beta iota delta [negb]. unfold parse_guid, bind, read_bytes.
  cbn [infile line_no set_reader Byte.eqb].
  replace (Nat.leb 37 (length input)) with false
    by (symmetry; apply Nat.leb_gt; exact L).
  reflexivity.
Qed.

Lemma truncated_guid_witness :
  parse_token LittleEndian (midway (bytes_of_string "<0123-"))
  = Fatal TruncatedGuid 1.
Proof.
  refine (truncated_guid LittleEndian (midway (bytes_of_string "<0123-"))
            (bytes_of_string "0123-") eq_refl _).
  cbn. lia.
Defined.

(** ** Further properties: GUID literals *)

Lemma is_hex_class (c : byte) :
  is_hex c = true ->
  isspace c = false /\ is_sign c = false
  /\ Byte.eqb c x78 || Byte.eqb c x58 = false
  /\ hex_value c = Some (hex_digit_value c)
  /\ 0 <= hex_digit_value c <= 15 /\ c <> x00.
Proof.
  destruct c; try discriminate; intros _; vm_compute;
    repeat split; congruence.
Qed.

Lemma scan_digits_hex (digits : list byte) :
  forallb is_hex digits = true ->
  forall rest acc count,
    scan_digits hex_value 16 (length digits) (digits ++ rest) acc count
    = (fold_left (fun a c => a * 16 + hex_digit_value c) digits acc,
       (count + length digits)%nat, rest).
Proof.
  induction digits as [|c digits IH]; intros F rest acc count.
  - cbn. rewrite Nat.add_0_r. destruct rest; reflexivity.
  - cbn in F. apply andb_true_iff in F. destruct F as [C F].
    destruct (is_hex_class c C) as (_ & _ & _ & V & _).
    cbn [length app scan_digits fold_left]. rewrite V, (IH F).
    f_equal. f_equal. lia.
Qed.

Lemma hex_fold_bound (digits : list byte) :
  forallb is_hex digits = true ->
  forall acc, 0 <= acc ->
    0 <= fold_left (fun a c => a * 16 + hex_digit_value c) digits acc
      < (acc + 1) * 16 ^ Z.of_nat (length digits).
Proof.
  induction digits as [|c digits IH]; intros F acc A.
  - cbn. lia.
  - cbn in F. apply andb_true_iff in F. destruct F as [C F].
    destruct (is_hex_class c C) as (_ & _ & _ & _ & R & _).
    cbn [fold_left length]. specialize (IH F (acc * 16 + hex_digit_value c)).
    rewrite Nat2Z.inj_succ, Z.pow_succ_r by lia.
    assert (0 < 16 ^ Z.of_nat (length digits)) by (apply Z.pow_pos_nonneg; lia).
    nia.
Qed.

Lemma hex_fold_leading_zero (digits : list byte) :
  fold_left (fun a c => a * 16 + hex_digit_value c) (x30 :: digits) 0
  = fold_left (fun a c => a * 16 + hex_digit_value c) digits 0.
Proof. reflexivity. Qed.

(** [%X] with the width of a field of hexadecimal digits reads the field
    and gives its number. *)
Lemma scan_X_field (width : nat) (digits rest : list byte) :
  (2 <= width <= 8)%nat -> hex_field width digits ->
  scan_X width (digits ++ rest) = Converted (hex_number digits) rest.
Proof.
  intros W [L F].
  pose proof (hex_fold_bound digits F 0 (Z.le_refl 0)) as B.
  assert (P : 16 ^ Z.of_nat (length digits) <= UINT_MOD).
  { change UINT_MOD with (16 ^ 8). apply Z.pow_le_mono_r; lia. }
  assert (M : hex_number digits mod UINT_MOD = hex_number digits).
  { apply Z.mod_small. unfold hex_number. lia. }
  destruct digits as [|c [|c1 digits]]; cbn in L; try lia.
  pose proof F as F0. cbn in F. apply andb_true_iff in F. destruct F as [C F].
  apply andb_true_iff in F. destruct F as [C1 F].
  destruct (is_hex_class c C) as (Sp & Sg & _ & V & _).
  destruct (is_hex_class c1 C1) as (_ & _ & X1 & _).
  unfold scan_X. cbn [app skip_space]. rewrite Sp, Sg.
  destruct width as [|[|width]]; try lia.
  destruct (Byte.eqb c x30) eqn:Z0.
  - apply byte_eqb_eq in Z0. subst c. rewrite X1.
    assert (L' : S (length digits) = S width) by lia.
    assert (F' : forallb is_hex (c1 :: digits) = true)
      by (cbn; rewrite C1, F; reflexivity).
    pose proof (scan_digits_hex (c1 :: digits) F' rest 0 0%nat) as D.
    cbn [length app] in D. rewrite L' in D. rewrite D. cbn [orb].
    rewrite <- M. unfold hex_number. rewrite hex_fold_leading_zero.
    reflexivity.
  - pose proof (scan_digits_hex (c :: c1 :: digits) F0 rest 0 0%nat) as D.
    cbn [length app] in D. rewrite L in D. rewrite D. cbn [orb Nat.add Nat.ltb Nat.leb]. rewrite <- M. reflexivity.
Qed.

Lemma c_string_no_nul (l : list byte) : ~ In x00 l -> c_string l = l.
Proof.
  induction l as [|c l IH]; intro N; [reflexivity|]. cbn.
  rewrite (proj2 (byte_eqb_neq c x00)) by (intro; apply N; left; congruence).
  rewrite IH; [reflexivity|]. intro. apply N. right. assumption.
Qed.

Lemma hex_field_no_nul (n : nat) (digits : list byte) :
  hex_field n digits -> ~ In x00 digits.
Proof.
  intros [_ F] N. rewrite forallb_forall in F. apply F in N. discriminate.
Qed.

Lemma read_exact (a b : list byte) (n : nat) :
  length a = n ->
  firstn n (a ++ b) = a /\ skipn n (a ++ b) = b
  /\ Nat.leb n (length (a ++ b)) = true.
Proof.
  intros <-. split; [|split].
  - rewrite firstn_app, Nat.sub_diag, firstn_all. cbn. apply app_nil_r.
  - rewrite skipn_app, Nat.sub_diag, skipn_all. reflexivity.
  - apply Nat.leb_le. rewrite length_app. lia.
Qed.

Lemma sscanf_X_lit (c : byte) (fmt : list directive) (s : list byte)
    (vals : list Z) :
  sscanf_X (Lit c :: fmt) (c :: s) vals = sscanf_X fmt s vals.
Proof.
  cbn [sscanf_X]. rewrite (proj2 (byte_eqb_eq c c) eq_refl). reflexivity.
Qed.

Lemma sscanf_X_field (width : nat) (fmt : list directive)
    (digits rest : list byte) (vals : list Z) :
  (2 <= width <= 8)%nat -> hex_field width digits ->
  sscanf_X (ConvX width :: fmt) (digits ++ rest) vals
  = sscanf_X fmt rest (vals ++ [hex_number digits]).
Proof.
  intros W H. cbn [sscanf_X]. rewrite (scan_X_field width digits rest W H).
  reflexivity.
Qed.

Lemma hex_field_pair (h l : byte) :
  is_hex h = true -> is_hex l = true -> hex_field 2 [h; l].
Proof. intros H L. split; [reflexivity|]. cbn. rewrite H, L. reflexivity. Qed.

(** [sscanf] on the text of a GUID assigns the eleven numbers. *)
Lemma sscanf_guid_text (d1 d2 d3 d4 d5 : list byte) :
  hex_field 8 d1 -> hex_field 4 d2 -> hex_field 4 d3 ->
  hex_field 4 d4 -> hex_field 12 d5 ->
  exists vals,
    sscanf_X guidfmt (guid_text d1 d2 d3 d4 d5) [] = (11, vals)
    /\ forall host,
        guid_bytes host vals
        = host_bytes host 4 (hex_number d1) ++ host_bytes host 2 (hex_number d2)
            ++ host_bytes host 2 (hex_number d3)
            ++ hex_pairs d4 ++ hex_pairs d5.
Proof.
  intros H1 H2 H3 [L4 F4] [L5 F5].
  destruct d4 as [|a0 [|a1 [|a2 [|a3 [|]]]]]; try discriminate L4.
  destruct d5 as [|b0 [|b1 [|b2 [|b3 [|b4 [|b5 [|b6 [|b7 [|b8 [|b9 [|b10
                 [|b11 [|]]]]]]]]]]]]]; try discriminate L5.
  cbn in F4, F5.
  repeat match goal with
         | H : _ && _ = true |- _ =>
             apply andb_true_iff in H; destruct H as [? H]
         end.
  eexists. split.
  - unfold guidfmt, guid_text.
    rewrite sscanf_X_lit.
    rewrite (sscanf_X_field 8 _ d1) by (lia || assumption).
    rewrite sscanf_X_lit.
    rewrite (sscanf_X_field 4 _ d2) by (lia || assumption).
    rewrite sscanf_X_lit.
    rewrite (sscanf_X_field 4 _ d3) by (lia || assumption).
    rewrite sscanf_X_lit.
    change ([a0; a1; a2; a3] ++ ?r) with ([a0; a1] ++ [a2; a3] ++ r).
    rewrite !(sscanf_X_field 2) by (lia || (apply hex_field_pair; assumption)).
    rewrite sscanf_X_lit.
    change ([b0; b1; b2; b3; b4; b5; b6; b7; b8; b9; b10; b11] ++ ?r)
      with ([b0; b1] ++ [b2; b3] ++ [b4; b5] ++ [b6; b7] ++ [b8; b9]
              ++ [b10; b11] ++ r).
    rewrite !(sscanf_X_field 2) by (lia || (apply hex_field_pair; assumption)).
    rewrite sscanf_X_lit. reflexivity.
  - intro host. reflexivity.
Qed.

Lemma guid_text_shape (d1 d2 d3 d4 d5 : list byte) :
  hex_field 8 d1 -> hex_field 4 d2 -> hex_field 4 d3 ->
  hex_field 4 d4 -> hex_field 12 d5 ->
  exists body,
    guid_text d1 d2 d3 d4 d5 = x3c :: body
    /\ length body = 37%nat /\ ~ In x00 (x3c :: body).
Proof.
  intros H1 H2 H3 H4 H5. eexists. split; [reflexivity|]. split.
  - destruct H1 as [L1 _], H2 as [L2 _], H3 as [L3 _], H4 as [L4 _],
      H5 as [L5 _].
    repeat (rewrite length_app || cbn [length]). lia.
  - intro N. destruct N as [N|N]; [discriminate|].
    repeat (apply in_app_or in N; destruct N as [N|N];
            [match goal with
             | H : hex_field _ ?d, N : In x00 ?d |- _ =>
                 exact (hex_field_no_nul _ d H N)
             end
            |destruct N as [N|N]; [discriminate|]]).
    exact N.
Qed.

(** X10: a GUID written as [<], eight hexadecimal digits, three groups of
    four and one of twelve, with dashes between them, and [>], yields the
    GUID token and 16 bytes: the number of the first group as a 32-bit
    integer, those of the second and third as 16-bit integers, then one
    byte for each pair of digits of the last two groups; the input goes
    on after the [>]. *)
Theorem guid_token (host : byte_order) (s : state)
    (d1 d2 d3 d4 d5 rest : list byte) :
  hex_field 8 d1 -> hex_field 4 d2 -> hex_field 4 d3 ->
  hex_field 4 d4 -> hex_field 12 d5 ->
  infile s = guid_text d1 d2 d3 d4 d5 ++ rest ->
  buffer_inv s -> fits (output_pos s) (output_size s) [2; 16] = true ->
  exists s',
    parse_token host s = Ret true s'
    /\ output_bytes s'
       = output_bytes s ++ host_bytes host 2 TOKEN_GUID
           ++ host_bytes host 4 (hex_number d1)
           ++ host_bytes host 2 (hex_number d2)
           ++ host_bytes host 2 (hex_number d3)
           ++ hex_pairs d4 ++ hex_pairs d5
    /\ infile s' = rest /\ line_no s' = line_no s.
Proof.
  intros H1 H2 H3 H4 H5 Hin Inv F.
  destruct (sscanf_guid_text d1 d2 d3 d4 d5 H1 H2 H3 H4 H5) as (vals & S & G).
  destruct (guid_text_shape d1 d2 d3 d4 d5 H1 H2 H3 H4 H5)
    as (body & T & L & N).
  rewrite T in Hin, S. cbn [app] in Hin.
  destruct (read_exact body rest 37 L) as (R1 & R2 & R3).
  assert (LG : length (guid_bytes host vals) = 16%nat).
  { rewrite G. destruct H4 as [L4 _], H5 as [L5 _].
    destruct d4 as [|a0 [|a1 [|a2 [|a3 [|]]]]]; try discriminate L4.
    destruct d5 as [|b0 [|b1 [|b2 [|b3 [|b4 [|b5 [|b6 [|b7 [|b8 [|b9 [|b10
                   [|b11 [|]]]]]]]]]]]]]; try discriminate L5.
    rewrite !length_app, !host_bytes_length. reflexivity. }
  assert (E : parse_token host s
              = (write_word host TOKEN_GUID &&& write_bytes (guid_bytes host vals))
                  (set_reader s rest (line_no s))).
  { unfold parse_token, bind at 1, read_byte. rewrite Hin.
    cbv beta iota delta [negb]. unfold parse_guid, bind at 1, read_bytes.
    cbn [infile line_no set_reader]. rewrite R1, R2, R3.
    cbv beta iota delta [negb]. rewrite (c_string_no_nul _ N), S.
    reflexivity. }
  rewrite E. unfold and_then, bind, write_word.
  set (s1 := set_reader s rest (line_no s)).
  destruct (write_bytes_first (host_bytes host 2 TOKEN_GUID) [16] s1 Inv)
    as (s2 & W2 & I2 & B2 & F2 & Fr2).
  { rewrite host_bytes_length. apply uint_small. lia. }
  { rewrite host_bytes_length. exact F. }
  rewrite W2.
  destruct (write_bytes_first (guid_bytes host vals) [] s2 I2)
    as (s3 & W3 & _ & B3 & _ & Fr3).
  { rewrite LG. apply uint_small. lia. }
  { rewrite LG. exact F2. }
  rewrite W3. exists s3. split; [reflexivity|]. split.
  - rewrite B3, B2, G, <- !app_assoc. reflexivity.
  - rewrite Fr3, Fr2. split; reflexivity.
Qed.

Lemma guid_token_witness :
  exists s',
    parse_token LittleEndian
      (midway (bytes_of_string "<3D82AB43-62DA-11cf-AB39-0020AF71E433> x"))
    = Ret true s'
    /\ output_bytes s'
       = output_bytes (midway []) ++ host_bytes LittleEndian 2 TOKEN_GUID
           ++ [x43; xab; x82; x3d; xda; x62; xcf; x11;
               xab; x39; x00; x20; xaf; x71; xe4; x33]
    /\ infile s' = bytes_of_string " x" /\ line_no s' = 1.
Proof.
  refine (guid_token LittleEndian
            (midway (bytes_of_string "<3D82AB43-62DA-11cf-AB39-0020AF71E433> x"))
            (bytes_of_string "3D82AB43") (bytes_of_string "62DA")
            (bytes_of_string "11cf") (bytes_of_string "AB39")
            (bytes_of_string "0020AF71E433") (bytes_of_string " x")
            _ _ _ _ _ eq_refl _ eq_refl);
    try (split; reflexivity).
  unfold buffer_inv. cbn. lia.
Defined.

(** ** Further properties: integer literals *)

Lemma parse_token_number (host : byte_order) (s : state) (c : byte)
    (rest : list byte) :
  infile s = c :: rest -> isdigit c || Byte.eqb c x2d = true ->
  parse_token host s = parse_number host s.
Proof.
  intros Hin Hc. destruct s. cbn in Hin. subst.
  destruct c; try discriminate Hc; reflexivity.
Qed.

Lemma isdigit_class (c : byte) :
  isdigit c = true ->
  Byte.eqb c x2e = false /\ Byte.eqb c x2d = false /\ isspace c = false
  /\ is_sign c = false /\ digit_value c = Some (Z_of_byte c - 48)
  /\ c <> x00.
Proof.
  destruct c; try discriminate; intros _; vm_compute; repeat split; congruence.
Qed.

(** The loop of [parse_number] over a row of digits, after an optional
    minus sign, up to a character that ends the number. *)
Lemma while_read_from_digits (digits rest : list byte) :
  forallb isdigit digits = true -> number_ends rest ->
  forall line buffer,
    (length buffer + length digits <= 511)%nat ->
    (0 < length buffer + length digits)%nat ->
    exists line',
      while_read_from
        (fun '(buffer, dot) c =>
           ((len buffer =? 0) && Byte.eqb c x2d)
           || (negb dot && Byte.eqb c x2e)
           || isdigit c)
        (fun '(buffer, dot) c =>
           (store buffer c, if Byte.eqb c x2e then true else dot))
        (digits ++ rest) line (buffer, false)
      = (match rest with [] => xff | c :: _ => c end,
         (buffer ++ digits, false), tl rest, line').
Proof.
  induction digits as [|c digits IH]; intros F E line buffer L P.
  - cbn [app]. rewrite app_nil_r. cbn in P.
    destruct rest as [|c rest]; cbn [while_read_from tl].
    + eexists. reflexivity.
    + destruct E as [D N]. rewrite D.
      rewrite (proj2 (byte_eqb_neq c x2e) N).
      replace (len buffer =? 0) with false
        by (symmetry; apply Z.eqb_neq; unfold len; lia).
      cbn. eexists. reflexivity.
  - cbn in F. apply andb_true_iff in F. destruct F as [C F].
    destruct (isdigit_class c C) as (Dot & _).
    cbn [app while_read_from]. rewrite C, Dot, orb_true_r.
    cbn [length] in L, P.
    assert (S : store buffer c = buffer ++ [c]).
    { unfold store.
      destruct (Z.ltb_spec (Z.of_nat (length buffer) + 1) 512); [reflexivity|lia]. }
    rewrite S.
    destruct (IH F E (if Byte.eqb c newline then line + 1 else line)
                 (buffer ++ [c])) as [line' W].
    + rewrite length_app. cbn. lia.
    + rewrite length_app. cbn. lia.
    + rewrite W, <- app_assoc. eexists. reflexivity.
Qed.

Lemma scan_digits_decimal (digits : list byte) :
  forallb isdigit digits = true ->
  forall acc count,
    scan_digits digit_value 10 (length digits) digits acc count
    = (fold_left (fun a c => a * 10 + (Z_of_byte c - 48)) digits acc,
       (count + length digits)%nat, []).
Proof.
  induction digits as [|c digits IH]; intros F acc count.
  - cbn. rewrite Nat.add_0_r. reflexivity.
  - cbn in F. apply andb_true_iff in F. destruct F as [C F].
    destruct (isdigit_class c C) as (_ & _ & _ & _ & V & _).
    cbn [length scan_digits fold_left]. rewrite V, (IH F).
    f_equal. f_equal. lia.
Qed.

Lemma scan_d_minus (digits : list byte) :
  scan_d (x2d :: digits)
  = let '(v, count, s2) :=
      scan_digits digit_value 10 (length digits) digits 0 0%nat in
    if (0 <? count)%nat
    then Converted (Z.max (- 2 ^ 63) (Z.min (2 ^ 63 - 1) (- v)) mod UINT_MOD) s2
    else MatchingFailure.
Proof. reflexivity. Qed.

(** [%d] on a decimal integer literal in the range of [int]. *)
Lemma scan_d_integer (negative : bool) (digits : list byte) :
  digits <> [] -> forallb isdigit digits = true ->
  - 2 ^ 31 <= integer_value negative digits < 2 ^ 31 ->
  scan_d (integer_text negative digits)
  = Converted (integer_value negative digits mod UINT_MOD) [].
Proof.
  intros NE F R.
  pose proof (scan_digits_decimal digits F 0 0%nat) as D.
  destruct digits as [|c digits]; [contradiction|].
  pose proof F as F0. cbn in F. apply andb_true_iff in F. destruct F as [C _].
  destruct (isdigit_class c C) as (_ & _ & Sp & Sg & _).
  unfold integer_text, integer_value in *.
  destruct negative; cbn [app].
  - rewrite scan_d_minus, D. cbn [Nat.add Nat.ltb Nat.leb length].
    unfold decimal_number in R.
    rewrite Z.min_r, Z.max_r by lia. reflexivity.
  - unfold scan_d. cbn [skip_space].
    rewrite Sp, Sg. rewrite D. cbn [Nat.add Nat.ltb Nat.leb length].
    unfold decimal_number in R.
    rewrite Z.min_r, Z.max_r by lia. reflexivity.
Qed.

Lemma forallb_isdigit_no_nul (digits : list byte) :
  forallb isdigit digits = true -> ~ In x00 digits.
Proof.
  intros F N. rewrite forallb_forall in F. apply F in N. discriminate.
Qed.

(** X11: a decimal integer literal, with or without a minus sign, of at
    most 510 digits and with a value in the range of a 32-bit [int],
    yields the integer token and the four bytes of the value in two's
    complement, when the appends stay inside the allocation; the
    character that ends the literal is given back to the input. *)
Theorem integer_token (host : byte_order) (s : state) (negative : bool)
    (digits rest : list byte) :
  digits <> [] -> forallb isdigit digits = true ->
  (length digits <= 510)%nat -> number_ends rest ->
  - 2 ^ 31 <= integer_value negative digits < 2 ^ 31 ->
  infile s = integer_text negative digits ++ rest ->
  buffer_inv s -> fits (output_pos s) (output_size s) [2; 4] = true ->
  exists s',
    parse_token host s = Ret true s'
    /\ output_bytes s'
       = output_bytes s ++ host_bytes host 2 TOKEN_INTEGER
           ++ host_bytes host 4 (integer_value negative digits mod 2 ^ 32)
    /\ infile s' = after_unread rest.
Proof.
  intros NE F L E R Hin Inv Fit.
  assert (Hd : exists c0 r0,
             infile s = c0 :: r0 /\ isdigit c0 || Byte.eqb c0 x2d = true).
  { rewrite Hin. unfold integer_text. destruct negative; cbn [app].
    - eexists _, _. split; reflexivity.
    - destruct digits as [|c digits]; [contradiction|].
      cbn in F. apply andb_true_iff in F. destruct F as [C _].
      exists c, (digits ++ rest). rewrite C. split; reflexivity. }
  destruct Hd as (c0 & r0 & H0 & C0).
  rewrite (parse_token_number host s c0 r0 H0 C0). clear c0 r0 H0 C0.
  assert (W : exists line,
             while_read_from
               (fun '(buffer, dot) c =>
                  ((len buffer =? 0) && Byte.eqb c x2d)
                  || (negb dot && Byte.eqb c x2e)
                  || isdigit c)
               (fun '(buffer, dot) c =>
                  (store buffer c, if Byte.eqb c x2e then true else dot))
               (infile s) (line_no s) ([], false)
             = (match rest with [] => xff | c :: _ => c end,
                (integer_text negative digits, false), tl rest, line)).
  { rewrite Hin. unfold integer_text.
    assert (P : (0 < length digits)%nat)
      by (destruct digits; [contradiction|cbn; lia]).
    destruct negative; cbn [app while_read_from].
    - change (store [] x2d) with [x2d].
      destruct (while_read_from_digits digits rest F E (line_no s) [x2d])
        as [line W]; cbn [length]; try lia.
      exists line. exact W.
    - destruct (while_read_from_digits digits rest F E (line_no s) [])
        as [line W]; cbn [length]; try lia.
      exists line. exact W. }
  destruct W as [line W].
  unfold parse_number, bind at 1, while_read. rewrite W.
  unfold bind at 1, unread_byte. cbn [infile line_no set_reader].
  assert (N : ~ In x00 (integer_text negative digits)).
  { unfold integer_text. intro H. apply in_app_or in H. destruct H as [H|H].
    - destruct negative; [destruct H as [H|[]]; discriminate|destruct H].
    - exact (forallb_isdigit_no_nul digits F H). }
  rewrite (c_string_no_nul _ N), (scan_d_integer negative digits NE F R).
  set (s1 := set_reader s (after_unread rest)
               (if Byte.eqb match rest with [] => xff | c :: _ => c end newline
                then line - 1 else line)).
  assert (S1 : (if Byte.eqb match rest with [] => xff | c :: _ => c end xff
                then Ret false
                       (set_reader (set_reader s (tl rest) line) (tl rest)
                          (if Byte.eqb match rest with [] => xff | c :: _ => c end
                                       newline
                           then line - 1 else line))
                else Ret true
                       (set_reader (set_reader s (tl rest) line)
                          (match rest with [] => xff | c :: _ => c end :: tl rest)
                          (if Byte.eqb match rest with [] => xff | c :: _ => c end
                                       newline
                           then line - 1 else line)))
               = Ret (negb (Byte.eqb match rest with [] => xff | c :: _ => c end
                                     xff)) s1).
  { subst s1. destruct rest as [|c rest]; [reflexivity|]. cbn [tl after_unread].
    destruct (Byte.eqb c xff); reflexivity. }
  rewrite S1. clear S1.
  unfold and_then, bind, write_word, write_dword.
  assert (Inv1 : buffer_inv s1) by exact Inv.
  destruct (write_bytes_first (host_bytes host 2 TOKEN_INTEGER) [4] s1 Inv1)
    as (s2 & W2 & I2 & B2 & F2 & Fr2).
  { rewrite host_bytes_length. apply uint_small. lia. }
  { rewrite host_bytes_length. exact Fit. }
  rewrite W2.
  destruct (write_bytes_first
              (host_bytes host 4 (integer_value negative digits mod UINT_MOD))
              [] s2 I2)
    as (s3 & W3 & _ & B3 & _ & Fr3).
  { rewrite host_bytes_length. apply uint_small. lia. }
  { rewrite host_bytes_length. exact F2. }
  rewrite W3. exists s3. split; [reflexivity|]. split.
  - rewrite B3, B2, <- !app_assoc. reflexivity.
  - rewrite Fr3, Fr2. reflexivity.
Qed.

Lemma integer_token_witness :
  exists s',
    parse_token LittleEndian (midway (bytes_of_string "-2147483648;")) = Ret true s'
    /\ output_bytes s'
       = output_bytes (midway []) ++ host_bytes LittleEndian 2 TOKEN_INTEGER
           ++ [x00; x00; x00; x80]
    /\ infile s' = bytes_of_string ";".
Proof.
  refine (integer_token LittleEndian
            (midway (bytes_of_string "-2147483648;")) true
            (bytes_of_string "2147483648") (bytes_of_string ";")
            _ eq_refl _ _ _ eq_refl _ eq_refl).
  - discriminate.
  - cbn. lia.
  - split; [reflexivity|discriminate].
  - vm_compute. split; [discriminate|reflexivity].
  - unfold buffer_inv. cbn. lia.
Defined.

(** X12: a minus sign that no digit and no dot follows is a fatal error,
    at the line of the minus sign. *)
Theorem lone_minus_sign (host : byte_order) (s : state) (rest : list byte) :
  number_ends rest -> infile s = x2d :: rest ->
  parse_token host s = Fatal InvalidIntegerToken (line_no s).
Proof.
  intros E Hin. rewrite (parse_token_number host s x2d rest Hin eq_refl).
  unfold parse_number, bind at 1, while_read. rewrite Hin.
  cbn [while_read_from]. change (Byte.eqb x2d newline) with false.
  cbv beta iota. change (store [] x2d) with [x2d].
  change ((len [] =? 0) && Byte.eqb x2d x2d
          || negb false && Byte.eqb x2d x2e || isdigit x2d) with true.
  cbv beta iota.
  destruct rest as [|c rest]; cbn [while_read_from].
  - reflexivity.
  - destruct E as [D N]. rewrite D, (proj2 (byte_eqb_neq c x2e) N).
    change (len [x2d] =? 0) with false. cbn [andb orb negb].
    unfold bind, unread_byte, fatal_error. cbn [infile line_no set_reader].
    destruct (Byte.eqb c newline) eqn:Y; destruct (Byte.eqb c xff) eqn:X;
      cbn; rewrite ?X, ?Y; cbn; f_equal; lia.
Qed.

Lemma lone_minus_sign_witness :
  parse_token LittleEndian (midway (bytes_of_string "- 5"))
  = Fatal InvalidIntegerToken 1.
Proof.
  refine (lone_minus_sign LittleEndian (midway (bytes_of_string "- 5"))
            (bytes_of_string " 5") _ eq_refl).
  split; [reflexivity|discriminate].
Defined.

(** ** Further properties: directive lines *)

Lemma parse_token_directive (host : byte_order) (s : state) (rest : list byte) :
  infile s = x23 :: rest ->
  parse_token host s
  = ('(c, buffer) <- while_read (fun _ c => negb (Byte.eqb c newline)) store [] ;;
     if negb (Byte.eqb c newline) then fatal_error LineTooLong
     else parse_directive buffer) (set_reader s rest (line_no s)).
Proof.
  intros Hin. unfold parse_token, bind at 1, read_byte. rewrite Hin. reflexivity.
Qed.

Lemma is_word_class (c : byte) :
  negb (is_delim c || Byte.eqb c x00 || Byte.eqb c newline) = true ->
  is_delim c = false /\ c <> x00 /\ c <> newline.
Proof.
  destruct (is_delim c); [discriminate|].
  destruct (Byte.eqb c x00) eqn:Z; [discriminate|].
  destruct (Byte.eqb c newline) eqn:N; [discriminate|].
  intros _. split; [reflexivity|]. split; apply byte_eqb_neq; assumption.
Qed.

Lemma is_word_free (w : list byte) :
  is_word w -> ~ In x00 w /\ ~ In newline w.
Proof.
  intros [_ F]. rewrite forallb_forall in F.
  split; intro H; apply F, is_word_class in H; destruct H as (_ & Z & N);
    congruence.
Qed.

Lemma take_token_word (w : list byte) :
  forallb (fun c => negb (is_delim c || Byte.eqb c x00 || Byte.eqb c newline))
          w = true ->
  take_token w = (w, []).
Proof.
  induction w as [|c w IH]; intro F; [reflexivity|].
  cbn in F. apply andb_true_iff in F. destruct F as [C F].
  apply is_word_class in C. destruct C as (D & _).
  cbn. rewrite D, (IH F). reflexivity.
Qed.

(** [strtok] on a last word gives the word. *)
Lemma strtok_word (w : list byte) : is_word w -> strtok w = Some (w, []).
Proof.
  intros [NE F]. unfold strtok.
  destruct w as [|c w]; [contradiction|].
  pose proof F as F0. cbn in F. apply andb_true_iff in F. destruct F as [C _].
  apply is_word_class in C. destruct C as (D & _).
  cbn [skip_delims]. rewrite D. rewrite (take_token_word _ F0). reflexivity.
Qed.

(** The loop of the [#] rule: the buffer holds the first 511 bytes of the
    line. *)
Lemma directive_line (host : byte_order) (s : state) (line rest : list byte) :
  ~ In newline line ->
  infile s = x23 :: line ++ newline :: rest ->
  parse_token host s
  = parse_directive (firstn 511 line) (set_reader s rest (line_no s + 1)).
Proof.
  intros N Hin. rewrite (parse_token_directive host s _ Hin).
  unfold bind, while_read. cbn [infile line_no set_reader].
  rewrite (proj1 (while_read_from_until_line newline store line N _ _)).
  rewrite fold_store by (cbn; lia). cbn [app].
  rewrite (proj2 (byte_eqb_eq newline newline) eq_refl). cbn [negb].
  assert (Z0 : newlines (line ++ [newline]) = 1).
  { rewrite newlines_app. unfold newlines at 2. cbn.
    enough (newlines line = 0) by lia.
    unfold newlines. clear Hin. induction line as [|c line IH]; [reflexivity|].
    cbn [filter].
    replace (Byte.eqb newline c) with false
      by (symmetry; apply byte_eqb_neq; intro; apply N; left; congruence).
    apply IH. intro. apply N. right. assumption. }
  rewrite Z0. reflexivity.
Qed.

Lemma bytes_eqb_eq (a : list byte) : forall b, bytes_eqb a b = true <-> a = b.
Proof.
  induction a as [|x a IH]; intros [|y b]; cbn; split; intro H;
    try discriminate; try reflexivity.
  - apply andb_true_iff in H. destruct H as [X Y].
    apply byte_eqb_eq in X. apply IH in Y. congruence.
  - injection H as -> ->. apply andb_true_iff. split.
    + apply byte_eqb_eq. reflexivity.
    + apply IH. reflexivity.
Qed.

Lemma c_string_app (a b : list byte) :
  ~ In x00 a -> c_string (a ++ b) = a ++ c_string b.
Proof.
  induction a as [|c a IH]; intro N; [reflexivity|]. cbn.
  rewrite (proj2 (byte_eqb_neq c x00)) by (intro; apply N; left; congruence).
  rewrite IH; [reflexivity|]. intro. apply N. right. assumption.
Qed.

Lemma take_token_app (w : list byte) (d : byte) (tail : list byte) :
  forallb (fun c => negb (is_delim c || Byte.eqb c x00 || Byte.eqb c newline))
          w = true ->
  is_delim d = true ->
  take_token (w ++ d :: tail) = (w, tail).
Proof.
  induction w as [|c w IH]; intros F D.
  - cbn. rewrite D. reflexivity.
  - cbn in F. apply andb_true_iff in F. destruct F as [C F].
    apply is_word_class in C. destruct C as (Dc & _).
    cbn. rewrite Dc, (IH F D). reflexivity.
Qed.

Lemma is_word_firstn (n : nat) (w : list byte) :
  is_word w -> is_word (firstn (S n) w).
Proof.
  intros [NE F]. split.
  - destruct w; [contradiction|discriminate].
  - rewrite forallb_forall in *. intros c H. apply F.
    exact (in_firstn _ _ _ H).
Qed.

(** [strtok] gives the word that the buffer starts with. *)
Lemma strtok_first_word (w tail : list byte) :
  is_word w -> word_ends tail ->
  exists after, strtok (c_string (w ++ tail)) = Some (w, after).
Proof.
  intros W T. destruct (is_word_free w W) as [NZ _].
  rewrite (c_string_app w _ NZ). destruct tail as [|d tail].
  - exists []. cbn [c_string]. rewrite app_nil_r. apply strtok_word, W.
  - cbn in T.
    assert (Dz : Byte.eqb d x00 = false)
      by (destruct d; try discriminate T; reflexivity).
    cbn [c_string]. rewrite Dz. exists (c_string tail).
    destruct W as [NE F]. unfold strtok.
    destruct w as [|c w]; [contradiction|].
    pose proof F as F0. cbn in F. apply andb_true_iff in F.
    destruct F as [C _]. apply is_word_class in C. destruct C as (Dc & _).
    cbn [app skip_delims]. rewrite Dc.
    change (c :: w ++ d :: c_string tail)
      with ((c :: w) ++ d :: c_string tail).
    rewrite (take_token_app (c :: w) d _ F0 T). reflexivity.
Qed.

Lemma word_ends_firstn (n : nat) (tail : list byte) :
  word_ends tail -> word_ends (firstn n tail).
Proof. destruct n, tail; cbn; auto. Qed.

(** X13: the directive [#pragma xftmpl name] with a word gives the
    variable name, which is the word cut to the 492 bytes of it that the
    buffer of the line has room for, when none is set, and changes nothing
    when one is set (by a flag or by an earlier directive);
    [#pragma xftmpl size] does the same for the name of the size macro;
    a line of [#] and a word other than [pragma], which the end of the
    line, a space or a tab ends, changes nothing whatever follows the
    word and however long the line is.  None of them writes a token or is
    an error. *)
Theorem pragma_directives (host : byte_order) (s : state) (w rest : list byte) :
  is_word w ->
  (infile s = bytes_of_string "#pragma xftmpl name " ++ w ++ newline :: rest ->
   parse_token host s
   = Ret true (set_reader (with_var_name s (firstn 492 w)) rest
                          (line_no s + 1)))
  /\ (infile s = bytes_of_string "#pragma xftmpl size " ++ w ++ newline :: rest ->
      parse_token host s
      = Ret true (set_reader (with_size_name s (firstn 492 w)) rest
                             (line_no s + 1)))
  /\ (forall tail,
         w <> bytes_of_string "pragma" -> word_ends tail ->
         ~ In newline tail ->
         infile s = x23 :: w ++ tail ++ newline :: rest ->
         parse_token host s = Ret true (set_reader s rest (line_no s + 1))).
Proof.
  intros W. destruct (is_word_free w W) as [NZ NN].
  pose proof (is_word_firstn 491 w W) as W'.
  destruct (is_word_free _ W') as [NZ' _].
  pose proof (strtok_word _ W') as T.
  split; [|split]; [intro Hin|intro Hin|].
  - rewrite (directive_line host s (bytes_of_string "pragma xftmpl name " ++ w)
               rest).
    + unfold parse_directive.
      change (firstn 511 (bytes_of_string "pragma xftmpl name " ++ w))
        with (bytes_of_string "pragma xftmpl name " ++ firstn 492 w).
      rewrite c_string_no_nul
        by (intro H; apply in_app_or in H; destruct H as [H|H];
            [cbn in H; intuition discriminate|exact (NZ' H)]).
      cbn - [firstn]. rewrite T. unfold with_var_name.
      destruct (option_inc_var_name s); reflexivity.
    + intro H. apply in_app_or in H. destruct H as [H|H];
        [cbn in H; intuition discriminate|exact (NN H)].
    + rewrite Hin. reflexivity.
  - rewrite (directive_line host s (bytes_of_string "pragma xftmpl size " ++ w)
               rest).
    + unfold parse_directive.
      change (firstn 511 (bytes_of_string "pragma xftmpl size " ++ w))
        with (bytes_of_string "pragma xftmpl size " ++ firstn 492 w).
      rewrite c_string_no_nul
        by (intro H; apply in_app_or in H; destruct H as [H|H];
            [cbn in H; intuition discriminate|exact (NZ' H)]).
      cbn - [firstn]. rewrite T. unfold with_size_name.
      destruct (option_inc_size_name s); reflexivity.
    + intro H. apply in_app_or in H. destruct H as [H|H];
        [cbn in H; intuition discriminate|exact (NN H)].
    + rewrite Hin. reflexivity.
  - intros tail NP E NT Hin.
    rewrite (directive_line host s (w ++ tail) rest).
    + unfold parse_directive. rewrite firstn_app.
      destruct (strtok_first_word (firstn 511 w)
                  (firstn (511 - length w) tail)
                  (is_word_firstn 510 w W) (word_ends_firstn _ _ E))
        as [after ->].
      replace (str_is (firstn 511 w) "pragma") with false; [reflexivity|].
      symmetry. unfold str_is.
      destruct (bytes_eqb (firstn 511 w) (bytes_of_string "pragma")) eqn:B;
        [|reflexivity].
      apply bytes_eqb_eq in B. exfalso.
      destruct (Nat.le_gt_cases (length w) 511) as [L|L].
      * rewrite firstn_all2 in B by exact L. contradiction.
      * apply (f_equal (@length byte)) in B. rewrite length_firstn in B.
        change (length (bytes_of_string "pragma")) with 6%nat in B. lia.
    + intro H. apply in_app_or in H. destruct H as [H|H];
        [exact (NN H)|exact (NT H)].
    + rewrite Hin, <- app_assoc. reflexivity.
Qed.

Lemma pragma_directives_witness :
  parse_token LittleEndian
    (midway (bytes_of_string "#pragma xftmpl name Foo" ++ newline
               :: bytes_of_string "{"))
  = Ret true (set_reader (set_inc_var_name (midway [])
                            (Some (bytes_of_string "Foo")))
                (bytes_of_string "{") 2)
  /\ parse_token LittleEndian
       (midway (bytes_of_string "#endif" ++ newline :: bytes_of_string "{"))
     = Ret true (set_reader (midway []) (bytes_of_string "{") 2)
  /\ parse_token LittleEndian
       (midway (bytes_of_string "#pragma xftmpl name " ++ repeat x61 500
                  ++ [newline]))
     = Ret true (set_reader (set_inc_var_name (midway [])
                               (Some (repeat x61 492)))
                   [] 2).
Proof.
  split; [|split].
  - refine (proj1 (pragma_directives LittleEndian
                     (midway (bytes_of_string "#pragma xftmpl name Foo"
                                ++ newline :: bytes_of_string "{"))
                     (bytes_of_string "Foo") (bytes_of_string "{") _) eq_refl).
    split; [discriminate|reflexivity].
  - refine (proj2 (proj2 (pragma_directives LittleEndian
                            (midway (bytes_of_string "#endif" ++ newline
                                       :: bytes_of_string "{"))
                            (bytes_of_string "endif") (bytes_of_string "{") _))
                  [] _ I _ eq_refl).
    + split; [discriminate|reflexivity].
    + discriminate.
    + intros [].
  - refine (proj1 (pragma_directives LittleEndian
                     (midway (bytes_of_string "#pragma xftmpl name "
                                ++ repeat x61 500 ++ [newline]))
                     (repeat x61 500) [] _) eq_refl).
    split; [discriminate|reflexivity].
Defined.

(** ** Further properties: header check, command line, header file *)





Lemma parse_options_help (opts : list opt) :
  forall s, In Opt_h opts <-> parse_options opts s = None.
Proof.
  induction opts as [|o opts IH]; intro s; cbn.
  - split; [contradiction|discriminate].
  - destruct o; cbn;
      try (rewrite <- IH; split; [intros [H|H]; [discriminate|exact H]|auto]).
    split; auto.
Qed.

Lemma parse_options_header (opts : list opt) :
  forall s s',
    parse_options opts s = Some s' ->
    (option_header s' = true <->
     option_header s = true \/ In Opt_H opts \/ exists a, In (Opt_i a) opts).
Proof.
  induction opts as [|o opts IH]; intros s s' E; cbn in E.
  - injection E as <-. cbn. split; [auto|].
    intros [H|[[]|[a []]]]. exact H.
  - destruct o; try discriminate; apply IH in E; rewrite E; cbn;
      split; intros H; try tauto;
      repeat match goal with
             | H : _ \/ _ |- _ => destruct H as [H|H]
             | H : exists _, _ |- _ => destruct H as [? H]
             end; try discriminate; eauto 6.
Qed.

(** X15: the option [-h] ends the run with status 0 before anything is
    read; without it, any number of file arguments other than one is a
    usage failure; and the header mode is on exactly when [-H] or [-i] is
    among the options. *)
Theorem command_line (host : byte_order) (opts : list opt)
    (args : list (list byte)) (input : list byte) :
  (In Opt_h opts -> main host opts args input = Help)
  /\ (~ In Opt_h opts -> length args <> 1%nat ->
      main host opts args input = Failure BadUsage)
  /\ (forall s,
         parse_options opts initial_state = Some s ->
         (option_header s = true <->
          In Opt_H opts \/ exists a, In (Opt_i a) opts)).
Proof.
  split; [|split].
  - intro H. unfold main.
    rewrite (proj1 (parse_options_help opts initial_state) H). reflexivity.
  - intros NH L. unfold main.
    destruct (parse_options opts initial_state) eqn:E.
    + destruct args as [|a [|b args]]; try reflexivity. cbn in L. lia.
    + apply parse_options_help in E. contradiction.
  - intros s E. rewrite (parse_options_header opts initial_state s E).
    cbn. split; [intros [H|H]; [discriminate|exact H]|auto].
Qed.

Lemma command_line_witness :
  main LittleEndian [Opt_o (bytes_of_string "out.h"); Opt_h] [in_x] text_header
  = Help.
Proof.
  refine (proj1 (command_line LittleEndian
                   [Opt_o (bytes_of_string "out.h"); Opt_h] [in_x] text_header) _).
  cbn. tauto.
Defined.

Lemma after_last_slash_none (base : list byte) :
  ~ In x2f base -> after_last_slash base = base.
Proof.
  intro N. destruct base as [|c base]; [reflexivity|]. cbn.
  replace (existsb (Byte.eqb x2f) base) with false.
  - rewrite (proj2 (byte_eqb_neq c x2f)); [reflexivity|].
    intro. apply N. left. congruence.
  - symmetry. apply not_true_is_false. intro E.
    apply existsb_exists in E. destruct E as (x & I & X).
    apply byte_eqb_eq in X. subst x. apply N. right. exact I.
Qed.

Lemma after_last_slash_dir (dir base : list byte) :
  ~ In x2f base -> after_last_slash (dir ++ x2f :: base) = base.
Proof.
  intro N. induction dir as [|c dir IH].
  - cbn [app after_last_slash].
    replace (existsb (Byte.eqb x2f) base) with false; [reflexivity|].
    symmetry. apply not_true_is_false. intro E.
    apply existsb_exists in E. destruct E as (x & I & X).
    apply byte_eqb_eq in X. subst x. exact (N I).
  - cbn [app after_last_slash].
    replace (existsb (Byte.eqb x2f) (dir ++ x2f :: base)) with true;
      [exact IH|].
    symmetry. apply existsb_exists. exists x2f. split; [|reflexivity].
    apply in_or_app. right. left. reflexivity.
Qed.

Lemma guard_character (c : byte) :
  (if Byte.eqb c x2e then x5f else toupper c) <> x2e
  /\ islower (if Byte.eqb c x2e then x5f else toupper c) = false.
Proof. destruct c; vm_compute; split; congruence. Qed.

(** X16: the name of the include guard comes from the name of the output
    file alone, without its directories: it has as many characters, every
    dot replaced by an underscore and every small letter by its capital,
    so that it has no dot and no small letter. *)
Theorem header_name_of_path (dir base : list byte) :
  ~ In x2f base ->
  header_name (dir ++ x2f :: base) = header_name base
  /\ header_name base
     = map (fun c => if Byte.eqb c x2e then x5f else toupper c) base
  /\ length (header_name base) = length base
  /\ (forall c, In c (header_name base) -> c <> x2e /\ islower c = false).
Proof.
  intro N. unfold header_name.
  rewrite (after_last_slash_dir dir base N), (after_last_slash_none base N).
  split; [reflexivity|]. split; [reflexivity|]. split; [apply length_map|].
  intros c H. apply in_map_iff in H. destruct H as (x & <- & _).
  apply guard_character.
Qed.

Lemma header_name_of_path_witness :
  header_name (bytes_of_string "include/d3dx9/rm.templates.h")
  = bytes_of_string "RM_TEMPLATES_H".
Proof.
  refine (eq_trans
            (proj1 (header_name_of_path (bytes_of_string "include/d3dx9")
                      (bytes_of_string "rm.templates.h") _)) eq_refl).
  cbn. intuition discriminate.
Defined.

Lemma c_hex_bytes_from_mod (data : list byte) :
  forall i j, i mod 12 = j mod 12 ->
              c_hex_bytes_from i data = c_hex_bytes_from j data.
Proof.
  induction data as [|b data IH]; intros i j E; [reflexivity|].
  cbn [c_hex_bytes_from]. rewrite E, (IH (i + 1) (j + 1)); [reflexivity|].
  rewrite (Z.add_mod i), (Z.add_mod j), E by lia. reflexivity.
Qed.

(** Within a line: no newline is printed before the values at the places
    [k] to [k + length line - 1] of a line, from place 1 on. *)
Lemma c_hex_bytes_from_inside (line : list byte) :
  forall k rest,
    1 <= k -> k + Z.of_nat (length line) <= 12 ->
    c_hex_bytes_from k (line ++ rest)
    = concat (map hex_item line)
        ++ c_hex_bytes_from (k + Z.of_nat (length line)) rest.
Proof.
  induction line as [|b line IH]; intros k rest K L.
  - cbn. rewrite Z.add_0_r. reflexivity.
  - cbn [length] in L. cbn [app c_hex_bytes_from map concat].
    rewrite Z.mod_small by lia.
    replace (k =? 0) with false by (symmetry; apply Z.eqb_neq; lia).
    rewrite IH by lia.
    replace (k + 1 + Z.of_nat (length line))
      with (k + Z.of_nat (length (b :: line))) by (cbn [length]; lia).
    cbn [app]. unfold hex_item. rewrite <- !app_assoc. reflexivity.
Qed.

(** X17: the array is printed twelve values to a line: a full line of
    twelve bytes is a newline, a space, and its twelve values, and what
    follows is printed as if it came first; a last line of one to twelve
    bytes is printed the same way. *)
Theorem c_hex_bytes_lines (line rest : list byte) :
  (length line = 12%nat ->
   c_hex_bytes_from 0 (line ++ rest)
   = [newline; x20] ++ concat (map hex_item line) ++ c_hex_bytes_from 0 rest)
  /\ ((0 < length line <= 12)%nat ->
      c_hex_bytes_from 0 line
      = [newline; x20] ++ concat (map hex_item line)).
Proof.
  assert (G : forall tail,
             (0 < length line <= 12)%nat ->
             c_hex_bytes_from 0 (line ++ tail)
             = [newline; x20] ++ concat (map hex_item line)
                 ++ c_hex_bytes_from (Z.of_nat (length line)) tail).
  { intros tail L. destruct line as [|b line]; [cbn in L; lia|].
    cbn [length] in L. cbn [app c_hex_bytes_from map concat].
    change (0 mod 12 =? 0) with true. change (0 + 1) with 1. cbv iota.
    rewrite (c_hex_bytes_from_inside line 1 tail) by lia.
    replace (1 + Z.of_nat (length line))
      with (Z.of_nat (length (b :: line))) by (cbn [length]; lia).
    cbn [app]. unfold hex_item. rewrite <- !app_assoc. reflexivity. }
  split.
  - intro L. rewrite (G rest) by lia. rewrite L.
    rewrite (c_hex_bytes_from_mod rest (Z.of_nat 12) 0) by reflexivity.
    reflexivity.
  - intro L. rewrite <- (app_nil_r line) at 1. rewrite (G []) by lia.
    cbn [c_hex_bytes_from]. rewrite app_nil_r. reflexivity.
Qed.

Lemma c_hex_bytes_lines_witness :
  c_hex_bytes_from 0 (bytes_of_string "xof 0302bin " ++ bytes_of_string "0064")
  = [newline; x20] ++ concat (map hex_item (bytes_of_string "xof 0302bin "))
      ++ c_hex_bytes_from 0 (bytes_of_string "0064").
Proof.
  exact (proj1 (c_hex_bytes_lines (bytes_of_string "xof 0302bin ")
                  (bytes_of_string "0064")) eq_refl).
Defined.

(** ** Further properties: a whole run, and the keyword table *)

Lemma blank_token (host : byte_order) (s : state) (c : byte) (rest : list byte) :
  infile s = c :: rest -> is_blank c = true ->
  parse_token host s
  = Ret true (set_reader s rest
                (if Byte.eqb c newline then line_no s + 1 else line_no s)).
Proof.
  intros Hin B. unfold parse_token, bind at 1, read_byte. rewrite Hin.
  destruct c; try discriminate B; reflexivity.
Qed.

Lemma punctuation_write (host : byte_order) (s : state) (c : byte)
    (rest : list byte) (code : Z) :
  infile s = c :: rest -> punctuation_code c = Some code ->
  parse_token host s = write_word host code (set_reader s rest (line_no s)).
Proof.
  intros Hin P. unfold parse_token, bind at 1, read_byte. rewrite Hin.
  destruct c; try discriminate P; injection P as <-; reflexivity.
Qed.

Lemma end_of_input (host : byte_order) (s : state) :
  infile s = [] -> parse_token host s = Ret false s.
Proof.
  intros Hin. unfold parse_token, bind at 1, read_byte. rewrite Hin. reflexivity.
Qed.

(** The token loop on punctuation and blanks, from a state whose block is
    at least 2 bytes and at most twice the bytes written. *)
Lemma parse_tokens_punctuation (host : byte_order) (text : list byte) :
  forallb (fun c => is_blank c || is_punctuation c) text = true ->
  forall s,
    infile s = text -> buffer_inv s ->
    2 <= output_size s <= 2 * output_pos s ->
    output_pos s + 2 * Z.of_nat (length text) < 2 ^ 30 ->
    exists s',
      parse_tokens host (S (length text)) s = Ret (Some tt) s'
      /\ output_bytes s' = output_bytes s ++ punctuation_tokens host text
      /\ option_header s' = option_header s.
Proof.
  induction text as [|c text IH]; intros F s Hin Inv Cap Len.
  - exists s.
    change (parse_tokens host (S (length (@nil byte))))
      with (more <- parse_token host ;;
            if more then parse_tokens host 0 else ret (Some tt)).
    unfold bind. rewrite (end_of_input host s Hin).
    cbn. rewrite app_nil_r. auto.
  - cbn in F. apply andb_true_iff in F. destruct F as [C F].
    cbn [length] in Len. rewrite Nat2Z.inj_succ in Len.
    change (parse_tokens host (S (length (c :: text))))
      with (more <- parse_token host ;;
            if more then parse_tokens host (S (length text)) else ret (Some tt)).
    unfold bind at 1.
    destruct (is_blank c) eqn:B.
    + rewrite (blank_token host s c text Hin B).
      assert (PN : punctuation_code c = None)
        by (destruct c; try discriminate B; reflexivity).
      destruct (IH F (set_reader s text
                        (if Byte.eqb c newline then line_no s + 1
                         else line_no s)))
        as (s' & E & O & H); try assumption; try reflexivity;
        [cbn [output_pos set_reader]; lia|].
      exists s'. split; [exact E|]. split; [|exact H].
      rewrite O. cbn [punctuation_tokens flat_map]. rewrite PN. reflexivity.
    + cbn [orb] in C. unfold is_punctuation in C.
      destruct (punctuation_code c) as [code|] eqn:PC; [|discriminate].
      rewrite (punctuation_write host s c text code Hin PC).
      unfold write_word.
      assert (Inv1 : buffer_inv (set_reader s text (line_no s))) by exact Inv.
      destruct Inv as (P0 & _ & _).
      assert (G : output_pos s + 2
                  <= grown_size (output_pos s) (output_size s) 2
                  /\ 2 <= grown_size (output_pos s) (output_size s) 2
                     <= 2 * (output_pos s + 2)).
      { unfold grown_size. change UINT_MOD with 4294967296.
        rewrite (Z.mod_small (output_pos s + 2)) by lia.
        rewrite (Z.mod_small (output_size s * 2)) by lia.
        destruct (Z.gtb_spec (output_pos s + 2) (output_size s)); lia. }
      destruct G as [G1 G2].
      destruct (write_bytes_fits (host_bytes host 2 code)
                  (set_reader s text (line_no s)) Inv1)
        as (s1 & W & I1 & B1 & P1 & C1 & Fr).
      * rewrite host_bytes_length. apply uint_small. lia.
      * rewrite host_bytes_length. exact G1.
      * rewrite W. rewrite host_bytes_length in P1, C1.
        cbn [output_pos output_size set_reader] in P1, C1.
        pose proof (proj2 (write_bytes_frame _ _ _ _ W)) as Fr1.
        destruct (IH F s1) as (s' & E & O & H).
        -- rewrite Fr1. reflexivity.
        -- exact I1.
        -- rewrite P1, C1. change (Z.of_nat 2) with 2. lia.
        -- rewrite P1. change (Z.of_nat 2) with 2. lia.
        -- exists s'. split; [exact E|]. split.
           ++ rewrite O, B1. cbn [punctuation_tokens flat_map]. rewrite PC.
              rewrite <- app_assoc. reflexivity.
           ++ rewrite H, Fr1. reflexivity.
Qed.

(** X18: a file that is a valid header followed only by punctuation and
    blanks (fewer than 2^28 bytes of them) is encoded, in binary mode, as
    the output header followed by the codes of the punctuation characters
    in their order, whatever the blanks are: the run ends with status 0
    and the output buffer is never overrun. *)
Theorem punctuation_run (host : byte_order) (name text : list byte) :
  forallb (fun c => is_blank c || is_punctuation c) text = true ->
  Z.of_nat (length text) < 2 ^ 28 ->
  main host [] [name] (text_header ++ text)
  = Success (output_header ++ punctuation_tokens host text).
Proof.
  intros F L. unfold main. cbn [parse_options].
  unfold read_bytes. cbn [infile line_no set_reader initial_state].
  change (Nat.leb 16 (length (text_header ++ text))) with true.
  change (firstn 16 (text_header ++ text)) with text_header.
  change (check_header text_header) with (@None failure).
  change (skipn 16 (text_header ++ text)) with text.
  cbv beta iota.
  change (str_is (option_outfile_name _) "-") with true. cbv iota.
  unfold encode.
  set (s0 := set_outfile_name _ _).
  assert (W : write_bytes output_header s0
              = Ret true (set_output s0 output_header 16 16)) by reflexivity.
  rewrite W. cbv iota.
  set (s2 := set_reader _ _ 1).
  destruct (parse_tokens_punctuation host text F s2) as (s' & E & O & H).
  - reflexivity.
  - unfold buffer_inv. change UINT_MOD with 4294967296. cbn. lia.
  - cbn. lia.
  - cbn [output_pos s2 set_reader set_output]. lia.
  - change (infile s2) with text. rewrite E, H. cbn [option_header s2].
    unfold write_raw_bytes. rewrite O. reflexivity.
Qed.

Lemma punctuation_run_witness :
  main LittleEndian [] [in_x] (text_header ++ bytes_of_string "{ [ ] ; }")
  = Success (output_header
               ++ punctuation_tokens LittleEndian (bytes_of_string "{ [ ] ; }")).
Proof.
  refine (punctuation_run LittleEndian in_x (bytes_of_string "{ [ ] ; }")
            eq_refl _).
  cbn. lia.
Defined.

(** X19: the words of the table are in strictly increasing order of
    [compare_names], which is what the bisection needs; and for a name
    without NUL the bisection finds a keyword exactly when the keyword is
    in the table and equals the name up to the case of letters, so that it
    finds at most one, and none for a name that is only the beginning of
    a word or goes on after one. *)
Theorem keyword_lookup (name : list byte) :
  ~ In x00 name ->
  strictly_sorted reserved_words = true
  /\ (forall k,
         bsearch (fun k' => compare_names name (word k')) reserved_words = Some k
         <-> In k reserved_words /\ same_word name (word k))
  /\ (bsearch (fun k' => compare_names name (word k')) reserved_words = None
      <-> forall k, In k reserved_words -> ~ same_word name (word k)).
Proof.
  intro N.
  assert (Found : forall k,
             In k reserved_words -> same_word name (word k) ->
             bsearch (fun k' => compare_names name (word k')) reserved_words
             = Some k).
  { intros k K W. unfold bsearch.
    rewrite (bsearch_between_ext _ (fun k' => compare_names (word k) (word k')))
      by (intro p; apply strcasecmp_same_left, W).
    exact (bsearch_reserved_word k K). }
  assert (Sound : forall k,
             bsearch (fun k' => compare_names name (word k')) reserved_words
             = Some k ->
             In k reserved_words /\ same_word name (word k)).
  { intros k B. apply bsearch_between_sound in B. destruct B as [Z K].
    split; [exact K|].
    apply strcasecmp_zero; [exact N|apply reserved_words_shape, K|exact Z]. }
  split; [reflexivity|]. split.
  - intro k. split; [apply Sound|intros [K W]; apply Found; assumption].
  - split.
    + intros B k K W. rewrite (Found k K W) in B. discriminate.
    + intro H.
      destruct (bsearch _ reserved_words) as [k|] eqn:B; [|reflexivity].
      destruct (Sound k eq_refl) as [K W]. exfalso. exact (H k K W).
Qed.

Lemma keyword_lookup_witness :
  bsearch (fun k' => compare_names (bytes_of_string "dWord") (word k'))
          reserved_words
  = Some (mkKeyword (bytes_of_string "DWORD") TOKEN_DWORD).
Proof.
  refine (proj2 (proj1 (proj2 (keyword_lookup (bytes_of_string "dWord") _)) _) _).
  - cbn. intuition discriminate.
  - split; [cbn; tauto|reflexivity].
Defined.

(** ** Further properties: the two output modes encode the same bytes *)

Lemma oblivious_ret {A} (a : A) : oblivious (ret a).
Proof. intros s t R. split; [reflexivity|exact R]. Qed.

Lemma oblivious_bind {A B} (m : M A) (k : A -> M B) :
  oblivious m -> (forall a, oblivious (k a)) -> oblivious (bind m k).
Proof.
  intros Hm Hk s t R. unfold bind. specialize (Hm s t R).
  destruct (m s) as [a s'| |], (m t) as [b t'| |]; cbn in Hm; try contradiction.
  - destruct Hm as [<- R']. apply Hk, R'.
  - exact Hm.
  - exact Hm.
Qed.

Lemma oblivious_and_then (a b : M bool) :
  oblivious a -> oblivious b -> oblivious (a &&& b).
Proof.
  intros Ha Hb. unfold and_then. apply oblivious_bind; [exact Ha|].
  intros []; [exact Hb|apply oblivious_ret].
Qed.

Lemma oblivious_fatal_error {A} (e : fatal) : oblivious (@fatal_error A e).
Proof. intros s t (_ & L & _). split; [reflexivity|exact L]. Qed.

Lemma oblivious_undefined {A} (u : undefined) :
  oblivious (fun _ : state => @Undefined A u).
Proof. intros s t _. reflexivity. Qed.

Lemma oblivious_read_byte : oblivious read_byte.
Proof.
  intros s t (I & L & D & P & C). unfold read_byte. rewrite <- I, <- L.
  destruct (infile s) eqn:Hin; cbn; repeat split; first [assumption|reflexivity|congruence].
Qed.

Lemma oblivious_unread_byte (c : byte) : oblivious (unread_byte c).
Proof.
  intros s t (I & L & D & P & C). unfold unread_byte. rewrite <- I, <- L.
  destruct (Byte.eqb c xff); cbn; repeat split; first [assumption|reflexivity|congruence].
Qed.

Lemma oblivious_read_bytes (size : nat) : oblivious (read_bytes size).
Proof.
  intros s t (I & L & D & P & C). unfold read_bytes. rewrite <- I.
  cbn. repeat split; first [assumption|reflexivity|congruence].
Qed.

Lemma oblivious_while_read {A} (cond : A -> byte -> bool)
    (body : A -> byte -> A) (a : A) :
  oblivious (while_read cond body a).
Proof.
  intros s t (I & L & D & P & C). unfold while_read. rewrite <- I, <- L.
  destruct (while_read_from cond body (infile s) (line_no s) a)
    as [[[c a'] inp] line].
  cbn. repeat split; first [assumption|reflexivity|congruence].
Qed.

Lemma oblivious_write_bytes (data : list byte) : oblivious (write_bytes data).
Proof.
  intros s t (I & L & D & P & C). unfold write_bytes. rewrite <- P, <- C, <- D.
  destruct (_ >? _); cbn [output_data output_pos output_size set_output].
  - destruct (memcpy _ _ data); cbn; repeat split; first [assumption|reflexivity|congruence].
  - rewrite <- D, <- P, <- C.
    destruct (memcpy _ _ data); cbn; repeat split; first [assumption|reflexivity|congruence].
Qed.

Lemma oblivious_parse_directive (buffer : list byte) :
  oblivious (parse_directive buffer).
Proof.
  unfold parse_directive.
  repeat match goal with
         | |- oblivious (ret _) => apply oblivious_ret
         | |- oblivious (match strtok ?x with _ => _ end) =>
             destruct (strtok x) as [[? ?]|]
         | |- oblivious (if ?x then _ else _) => destruct x
         end.
  - intros s t R.
    destruct (strtok _) as [[tok ?]|];
      [destruct (option_inc_var_name s), (option_inc_var_name t)|];
      split; try reflexivity; exact R.
  - intros s t R.
    destruct (strtok _) as [[tok ?]|];
      [destruct (option_inc_size_name s), (option_inc_size_name t)|];
      split; try reflexivity; exact R.
Qed.

Lemma oblivious_parse_keyword (host : byte_order) (name : list byte) :
  oblivious (parse_keyword host name).
Proof.
  unfold parse_keyword. destruct (bsearch _ reserved_words).
  - apply oblivious_write_bytes.
  - apply oblivious_ret.
Qed.

Ltac oblivious_auto :=
  repeat first
    [ apply oblivious_parse_keyword
    | apply oblivious_ret
    | apply oblivious_fatal_error
    | apply oblivious_undefined
    | apply oblivious_read_byte
    | apply oblivious_unread_byte
    | apply oblivious_read_bytes
    | apply oblivious_while_read
    | apply oblivious_write_bytes
    | apply oblivious_parse_directive
    | apply oblivious_and_then
    | apply oblivious_bind; [|intros]
    | match goal with
      | |- oblivious (match ?x with (_, _) => _ end) => destruct x
      | |- oblivious (if ?x then _ else _) => destruct x
      | |- oblivious (match ?x with Some _ => _ | None => _ end) => destruct x
      | |- oblivious (match ?x with
                      | Converted _ _ => _
                      | MatchingFailure => _
                      | InputFailure => _
                      end) => destruct x
      end ].

Lemma oblivious_parse_guid (host : byte_order) : oblivious (parse_guid host).
Proof. unfold parse_guid, write_word. oblivious_auto. Qed.

Lemma oblivious_parse_number (host : byte_order) : oblivious (parse_number host).
Proof. unfold parse_number, write_word, write_dword. oblivious_auto. Qed.

Lemma oblivious_parse_name (host : byte_order) : oblivious (parse_name host).
Proof.
  unfold parse_name, write_word, write_dword. oblivious_auto.
Qed.

Lemma oblivious_parse_token (host : byte_order) : oblivious (parse_token host).
Proof.
  unfold parse_token. apply oblivious_bind; [apply oblivious_read_byte|].
  intros [ok c]. destruct ok; [|apply oblivious_ret].
  cbv beta iota delta [negb].
  destruct c; unfold write_word;
    repeat first
      [ apply oblivious_parse_guid
      | apply oblivious_parse_number
      | apply oblivious_parse_name
      | progress oblivious_auto ].
Qed.

Lemma oblivious_parse_tokens (host : byte_order) (fuel : nat) :
  oblivious (parse_tokens host fuel).
Proof.
  induction fuel as [|fuel IH]; cbn [parse_tokens]; [apply oblivious_ret|].
  apply oblivious_bind; [apply oblivious_parse_token|].
  intros []; [exact IH|apply oblivious_ret].
Qed.

Lemma same_run_output_bytes (s t : state) :
  same_run s t -> output_bytes s = output_bytes t.
Proof. intros (_ & _ & D & P & _). unfold output_bytes. rewrite D, P. reflexivity. Qed.

(** The encoding part of [main] in binary mode and in header mode. *)
Lemma encode_both_modes (host : byte_order) (name v : list byte)
    (sb sh : state) (out : list byte) :
  same_run sb sh ->
  option_header sb = false -> option_header sh = true ->
  option_inc_var_name sh = Some v ->
  encode host name sb = Success out ->
  exists s,
    encode host name sh = Success (c_header name s v)
    /\ write_raw_bytes s = out.
Proof.
  intros R Hb Hh Hv E. unfold encode in *.
  pose proof (oblivious_write_bytes output_header sb sh R) as W.
  destruct (write_bytes output_header sb) as [[] sb1| |] eqn:Wb;
    try discriminate.
  destruct (write_bytes output_header sh) as [b sh1| |] eqn:Wh;
    cbn in W; try contradiction.
  destruct W as [<- R1].
  assert (R2 : same_run (set_reader sb1 (infile sb1) 1)
                        (set_reader sh1 (infile sb1) 1)).
  { destruct R1 as (I & L & D & P & C). repeat split; assumption. }
  assert (Fu : infile sh1 = infile sb1) by (symmetry; apply R1).
  cbn [infile set_reader] in E |- *. rewrite Fu.
  pose proof (oblivious_parse_tokens host (S (length (infile sb1))) _ _ R2) as T.
  destruct (parse_tokens host _ (set_reader sb1 (infile sb1) 1))
    as [[u|] sb3| |] eqn:Tb; try discriminate.
  destruct (parse_tokens host _ (set_reader sh1 (infile sb1) 1))
    as [r sh3| |] eqn:Th; cbn in T; try contradiction.
  destruct T as [<- R3].
  pose proof (proj2 (write_bytes_frame _ _ _ _ Wb)) as Fb.
  pose proof (proj2 (write_bytes_frame _ _ _ _ Wh)) as Fh.
  apply parse_tokens_extends in Tb. apply parse_tokens_extends in Th.
  assert (Hb3 : option_header sb3 = false).
  { rewrite (ext_header _ _ Tb). cbn. rewrite Fb. exact Hb. }
  assert (Hh3 : option_header sh3 = true).
  { rewrite (ext_header _ _ Th). cbn. rewrite Fh. exact Hh. }
  assert (Hv3 : option_inc_var_name sh3 = Some v).
  { apply (ext_var _ _ Th). cbn. rewrite Fh. exact Hv. }
  rewrite Hb3 in E. injection E as <-.
  rewrite Hh3, Hv3. exists sh3. split; [reflexivity|].
  unfold write_raw_bytes. symmetry. apply same_run_output_bytes, R3.
Qed.

(** X20: when the binary mode encodes an input, the header mode with the
    variable name given by [-i] succeeds on the same input, and the bytes
    of the array it prints, read back from their hex values, are exactly
    the output of the binary mode. *)
Theorem header_mode_same_bytes (host : byte_order) (name input v out : list byte) :
  main host [] [name] input = Success out ->
  exists s,
    main host [Opt_i v] [name] input
    = Success (c_header (if str_is name "-" then bytes_of_string "stdin"
                         else name) s v)
    /\ write_raw_bytes s = out
    /\ decode_hex_values (write_c_hex_bytes s) = out.
Proof.
  intro E. unfold main in *. cbn [parse_options] in *.
  unfold read_bytes in *. cbn [infile line_no set_reader] in *.
  destruct (Nat.leb 16 (length input)); [|discriminate].
  destruct (check_header (firstn 16 input)); [discriminate|].
  cbn in E |- *.
  match type of E with
  | encode _ ?n ?sb = _ =>
      match goal with
      | |- exists s, encode _ _ ?sh = _ /\ _ =>
          destruct (encode_both_modes host n v sb sh out)
            as (s & Eh & Raw);
            [repeat split|reflexivity|reflexivity|reflexivity|exact E|]
      end
  end.
  exists s. split; [exact Eh|]. split; [exact Raw|].
  rewrite <- Raw. unfold write_c_hex_bytes, write_raw_bytes.
  apply decode_c_hex_bytes_from.
Qed.

Lemma header_mode_same_bytes_witness :
  exists s,
    main LittleEndian [Opt_i (bytes_of_string "tmpl")] [in_x]
         (text_header ++ bytes_of_string "template Mesh { DWORD n; }")
    = Success (c_header in_x s (bytes_of_string "tmpl"))
    /\ decode_hex_values (write_c_hex_bytes s)
       = output_header
           ++ [x1f; x00; x01; x00; x04; x00; x00; x00; x4d; x65; x73; x68;
               x0a; x00; x29; x00; x01; x00; x01; x00; x00; x00; x6e;
               x14; x00; x0b; x00].
Proof.
  assert (R : main LittleEndian [] [in_x]
                   (text_header ++ bytes_of_string "template Mesh { DWORD n; }")
              = Success
                  (output_header
                     ++ [x1f; x00; x01; x00; x04; x00; x00; x00;
                         x4d; x65; x73; x68; x0a; x00; x29; x00;
                         x01; x00; x01; x00; x00; x00; x6e;
                         x14; x00; x0b; x00]))
    by (vm_compute; reflexivity).
  destruct (header_mode_same_bytes LittleEndian in_x
              (text_header ++ bytes_of_string "template Mesh { DWORD n; }")
              (bytes_of_string "tmpl")
              (output_header
                 ++ [x1f; x00; x01; x00; x04; x00; x00; x00;
                     x4d; x65; x73; x68; x0a; x00; x29; x00;
                     x01; x00; x01; x00; x00; x00; x6e;
                     x14; x00; x0b; x00]) R) as (s & E & _ & D).
  exists s. split; [exact E|exact D].
Defined.
